(** * dz_scrap: the gazette structuring engine

    A shallow embedding of the text-processing core of the repository
    ([parsing/patterns.py], [parsing/parser.py],
    [classification/classifier.py], [rag/chunker.py]) together with the small
    part of Python's [re] module the code relies on.

    Python strings are sequences of Unicode code points; they are modelled as
    lists of [N].  Regular expressions are modelled by a backtracking matcher in
    continuation-passing style that follows the priority order of CPython's
    engine (ordered alternation, greedy and lazy single-character repeats,
    named groups, positive lookahead, [^] and [$]). *)

From Stdlib Require Import List NArith ZArith Arith Bool Lia String Ascii Sorted.
From Stdlib Require Import DecimalZ.
Import ListNotations.

Set Implicit Arguments.

(** ** Python strings *)

Definition char := N.
Definition pystr := list char.

(** Decoding of the UTF-8 bytes of a Rocq string literal into code points, so
    that the French text of the source can be written as it appears there. *)
Fixpoint utf8_decode (bs : list N) (need : nat) (acc : N) : pystr :=
  match bs with
  | [] => []
  | b :: t =>
      match need with
      | O =>
          if (b <? 128)%N then b :: utf8_decode t 0 0%N
          else if (b <? 224)%N then utf8_decode t 1 (b - 192)%N
          else if (b <? 240)%N then utf8_decode t 2 (b - 224)%N
          else utf8_decode t 3 (b - 240)%N
      | S O => (acc * 64 + (b - 128))%N :: utf8_decode t 0 0%N
      | S n => utf8_decode t n (acc * 64 + (b - 128))%N
      end
  end.

Definition u (s : string) : pystr :=
  utf8_decode (map N_of_ascii (list_ascii_of_string s)) 0 0%N.

Definition NL : char := 10%N.
Definition SP : char := 32%N.

(** [unlines [l1; ...; ln]] is l1 + "\n" + ... + "\n" + ln. *)
Fixpoint unlines (ls : list string) : pystr :=
  match ls with
  | [] => []
  | [l] => u l
  | l :: rest => u l ++ NL :: unlines rest
  end.

Definition pystr_eqb (a b : pystr) : bool :=
  if list_eq_dec N.eq_dec a b then true else false.

(** [s[a:b]] for [0 <= a], [0 <= b]. *)
Definition slice (a b : nat) (s : pystr) : pystr := firstn (b - a) (skipn a s).

Fixpoint dropwhile (p : char -> bool) (s : pystr) : pystr :=
  match s with
  | [] => []
  | c :: t => if p c then dropwhile p t else s
  end.

Fixpoint starts_with (pre s : pystr) : bool :=
  match pre, s with
  | [], _ => true
  | _ :: _, [] => false
  | a :: pre', b :: s' => (a =? b)%N && starts_with pre' s'
  end.

(** [sub in s] on strings. *)
Fixpoint contains (sub s : pystr) : bool :=
  starts_with sub s ||
  match s with
  | [] => false
  | _ :: t => contains sub t
  end.

(** ** Character properties *)

Fixpoint in_ranges (rs : list (N * N)) (c : char) : bool :=
  match rs with
  | [] => false
  | (lo, hi) :: rest => ((lo <=? c)%N && (c <=? hi)%N) || in_ranges rest c
  end.

(** [Py_UNICODE_ISSPACE], used both by [str.strip()] and by [\s]. *)
Definition isspace (c : char) : bool :=
  in_ranges [(9, 13); (28, 32); (133, 133); (160, 160); (5760, 5760);
             (8192, 8202); (8232, 8233); (8239, 8239); (8287, 8287);
             (12288, 12288)]%N c.

(** The remaining character tables of the interpreter (alphanumerics, decimal
    digits, case mappings) are large and change with the Unicode version the
    interpreter ships; they are not part of the repository, and the development
    is parametric in them. *)
Record UnicodeDB := {
  isalnum : char -> bool;        (* Py_UNICODE_ISALNUM *)
  isdecimal : char -> bool;      (* Py_UNICODE_ISDECIMAL *)
  tolower : char -> char;        (* _sre.unicode_tolower *)
  iscased : char -> bool;        (* _sre.unicode_iscased *)
  str_lower : pystr -> pystr     (* str.lower() *)
}.

(** The tables of CPython on Basic Latin and Latin-1 Supplement (code points
    up to U+00FF), where the French text of the gazette lives.  Above U+00FF the
    entries are placeholders (caseless, not alphanumeric); what is computed with
    [latin1] on a text in scope holds for every database that agrees with it
    there (see [faithful] and [structured_data_faithful]). *)
Definition latin1_tolower (c : char) : char :=
  if in_ranges [(0x41, 0x5a); (0xc0, 0xd6); (0xd8, 0xde)]%N c then (c + 32)%N else c.

Definition latin1 : UnicodeDB := {|
  isalnum := in_ranges [(0x30, 0x39); (0x41, 0x5a); (0x61, 0x7a); (0xaa, 0xaa);
                        (0xb2, 0xb3); (0xb5, 0xb5); (0xb9, 0xba); (0xbc, 0xbe);
                        (0xc0, 0xd6); (0xd8, 0xf6); (0xf8, 0xff)]%N;
  isdecimal := in_ranges [(0x30, 0x39)]%N;
  tolower := latin1_tolower;
  iscased := in_ranges [(0x41, 0x5a); (0x61, 0x7a); (0xb5, 0xb5); (0xc0, 0xd6);
                        (0xd8, 0xf6); (0xf8, 0xff)]%N;
  str_lower := map latin1_tolower
|}.

(** The code points of the French text handled below: Basic Latin, Latin-1
    Supplement and the em dash. *)
Definition in_scope (c : char) : bool := (c <=? 0xff)%N || (c =? 0x2014)%N.

Definition scoped (s : pystr) : Prop := Forall (fun c => in_scope c = true) s.

(** A character database is faithful when it agrees with [latin1] on these
    code points, as the interpreter's does. *)
Record faithful (db : UnicodeDB) : Prop := {
  faithful_isalnum : forall c, in_scope c = true -> isalnum db c = isalnum latin1 c;
  faithful_isdecimal : forall c, in_scope c = true -> isdecimal db c = isdecimal latin1 c;
  faithful_tolower : forall c, in_scope c = true -> tolower db c = tolower latin1 c;
  faithful_iscased : forall c, in_scope c = true -> iscased db c = iscased latin1 c;
  faithful_str_lower : forall s, scoped s -> str_lower db s = str_lower latin1 s
}.

(** [re._casefix._EXTRA_CASES]: characters that match each other under
    IGNORECASE although their lowercase forms differ. *)
Definition EXTRA_CASES_table : list (N * list N) :=
  [(0x69, [0x131]); (0x73, [0x17f]); (0xb5, [0x3bc]); (0x131, [0x69]);
   (0x17f, [0x73]); (0x345, [0x3b9; 0x1fbe]); (0x390, [0x1fd3]);
   (0x3b0, [0x1fe3]); (0x3b2, [0x3d0]); (0x3b5, [0x3f5]); (0x3b8, [0x3d1]);
   (0x3b9, [0x345; 0x1fbe]); (0x3ba, [0x3f0]); (0x3bc, [0xb5]);
   (0x3c0, [0x3d6]); (0x3c1, [0x3f1]); (0x3c2, [0x3c3]); (0x3c3, [0x3c2]);
   (0x3c6, [0x3d5]); (0x3d0, [0x3b2]); (0x3d1, [0x3b8]); (0x3d5, [0x3c6]);
   (0x3d6, [0x3c0]); (0x3f0, [0x3ba]); (0x3f1, [0x3c1]); (0x3f5, [0x3b5]);
   (0x432, [0x1c80]); (0x434, [0x1c81]); (0x43e, [0x1c82]); (0x441, [0x1c83]);
   (0x442, [0x1c84; 0x1c85]); (0x44a, [0x1c86]); (0x463, [0x1c87]);
   (0x1c80, [0x432]); (0x1c81, [0x434]); (0x1c82, [0x43e]); (0x1c83, [0x441]);
   (0x1c84, [0x442; 0x1c85]); (0x1c85, [0x442; 0x1c84]); (0x1c86, [0x44a]);
   (0x1c87, [0x463]); (0x1c88, [0xa64b]); (0x1e61, [0x1e9b]); (0x1e9b, [0x1e61]);
   (0x1fbe, [0x345; 0x3b9]); (0x1fd3, [0x390]); (0x1fe3, [0x3b0]);
   (0xa64b, [0x1c88]); (0xfb05, [0xfb06]); (0xfb06, [0xfb05])]%N.

Fixpoint assoc_N (tbl : list (N * list N)) (c : N) : list N :=
  match tbl with
  | [] => []
  | (k, v) :: rest => if (k =? c)%N then v else assoc_N rest c
  end.

Definition EXTRA_CASES (c : char) : list char := assoc_N EXTRA_CASES_table c.

(** ** Regular expressions *)

Module Re.

Record flags := { IGNORECASE : bool; MULTILINE : bool; DOTALL : bool }.

Inductive charclass := CSpace | CWord | CDigit.       (* \s  \w  \d *)

Inductive setitem :=
| ILit (c : char)
| ICat (k : charclass).

(** Items that consume exactly one character. *)
Inductive single :=
| SLit (c : char)                 (* a literal character *)
| SAny                            (* . *)
| SIn (items : list setitem).     (* [...]; \s is [SIn [ICat CSpace]] *)

Inductive regex :=
| Eps
| One (x : single)
| Seq (a b : regex)
| Alt (a b : regex)                    (* a|b, left alternative first *)
| Star (greedy : bool) (x : single)    (* x* and x*? *)
| Group (name : string) (a : regex)    (* (?P<name>a) *)
| Look (a : regex)                     (* (?=a) *)
| Bol                                  (* ^ *)
| Eol.                                 (* $ *)

(** x+ / x+? and a? *)
Definition Plus (greedy : bool) (x : single) : regex := Seq (One x) (Star greedy x).
Definition Opt (a : regex) : regex := Alt a Eps.

Fixpoint lits (s : pystr) : regex :=
  match s with
  | [] => Eps
  | c :: t => Seq (One (SLit c)) (lits t)
  end.

Fixpoint seq (rs : list regex) : regex :=
  match rs with
  | [] => Eps
  | [r] => r
  | r :: rest => Seq r (seq rest)
  end.

Fixpoint alt (rs : list regex) : regex :=
  match rs with
  | [] => Eps
  | [r] => r
  | r :: rest => Alt r (alt rest)
  end.

Record pattern := { p_flags : flags; p_re : regex }.

(** All the literal characters of a pattern are in scope. *)
Definition single_scoped (p : single) : bool :=
  match p with
  | SLit c => in_scope c
  | SAny => true
  | SIn items => forallb (fun it => match it with ILit c => in_scope c | ICat _ => true end) items
  end.

Fixpoint re_scoped (r : regex) : bool :=
  match r with
  | One p | Star _ p => single_scoped p
  | Seq a b | Alt a b => re_scoped a && re_scoped b
  | Group _ a | Look a => re_scoped a
  | _ => true
  end.

(** The names of the groups of a pattern, and the least number of characters
    a match of it consumes. *)
Fixpoint gnames (r : regex) : list string :=
  match r with
  | Seq a b | Alt a b => gnames a ++ gnames b
  | Group name a => name :: gnames a
  | Look a => gnames a
  | _ => []
  end.

Fixpoint minlen (r : regex) : nat :=
  match r with
  | One _ => 1
  | Seq a b => minlen a + minlen b
  | Alt a b => Nat.min (minlen a) (minlen b)
  | Group _ a => minlen a
  | _ => 0
  end.

(** The state of a match attempt: the current offset, the character before
    it, the text from it on, and the spans of the groups closed so far. *)
Record mstate := {
  st_pos : nat;
  st_prev : option char;
  st_rest : pystr;
  st_caps : list (string * (nat * nat))
}.

(** A match object: [start()], [end()] and the group spans. *)
Record mobj := {
  m_start : nat;
  m_end : nat;
  m_caps : list (string * (nat * nat))
}.

Fixpoint lookup_cap (name : string) (caps : list (string * (nat * nat))) : option (nat * nat) :=
  match caps with
  | [] => None
  | (n, sp) :: rest => if String.eqb n name then Some sp else lookup_cap name rest
  end.

(** [m.groupdict().get(name, default)] for a match [m] on [text]. *)
Definition group_get (text : pystr) (m : mobj) (name : string) (default : pystr) : pystr :=
  match lookup_cap name (m_caps m) with
  | Some (a, b) => slice a b text
  | None => default
  end.

Section Engine.

Variable db : UnicodeDB.
Variable fl : flags.

Definition cat_ok (k : charclass) (x : char) : bool :=
  match k with
  | CSpace => isspace x
  | CWord => isalnum db x || (x =? 95)%N
  | CDigit => isdecimal db x
  end.

(** A literal of the pattern against a character of the text.  Under
    IGNORECASE a cased literal is compiled to its lowercase form (with the
    extra cases) and compared with the lowercase of the text character. *)
Definition lit_ok (c x : char) : bool :=
  if IGNORECASE fl && iscased db c then
    let lo := tolower db c in
    let y := tolower db x in
    (y =? lo)%N || existsb (N.eqb y) (EXTRA_CASES lo)
  else (x =? c)%N.

(** A character set.  Under IGNORECASE its literals are lowered at compile
    time, and the text character is lowered only when the set holds a cased
    literal. *)
Definition set_ok (items : list setitem) (x : char) : bool :=
  if IGNORECASE fl then
    let hascased :=
      existsb (fun it => match it with ILit c => iscased db c | ICat _ => false end) items in
    let y := if hascased then tolower db x else x in
    existsb (fun it =>
               match it with
               | ILit c => let lo := tolower db c in
                           (y =? lo)%N || existsb (N.eqb y) (EXTRA_CASES lo)
               | ICat k => cat_ok k y
               end) items
  else
    existsb (fun it =>
               match it with
               | ILit c => (x =? c)%N
               | ICat k => cat_ok k x
               end) items.

Definition single_ok (p : single) (x : char) : bool :=
  match p with
  | SLit c => lit_ok c x
  | SAny => DOTALL fl || negb (x =? NL)%N
  | SIn items => set_ok items x
  end.

Definition at_bol (s : mstate) : bool :=
  match st_prev s with
  | None => true
  | Some c => MULTILINE fl && (c =? NL)%N
  end.

Definition at_eol (s : mstate) : bool :=
  match st_rest s with
  | [] => true
  | c :: t => (c =? NL)%N && (MULTILINE fl || match t with [] => true | _ => false end)
  end.

Definition mk (pos : nat) (prev : option char) (l : pystr)
           (caps : list (string * (nat * nat))) : mstate :=
  {| st_pos := pos; st_prev := prev; st_rest := l; st_caps := caps |}.

(** x* : take as many characters as possible, then give them back one by one
    until the rest of the pattern matches. *)
Fixpoint star_greedy (ok : char -> bool) (k : mstate -> option mstate)
         (caps : list (string * (nat * nat)))
         (pos : nat) (prev : option char) (l : pystr) : option mstate :=
  match l with
  | c :: t =>
      if ok c then
        match star_greedy ok k caps (S pos) (Some c) t with
        | Some r => Some r
        | None => k (mk pos prev l caps)
        end
      else k (mk pos prev l caps)
  | [] => k (mk pos prev l caps)
  end.

(** x*? : try the rest of the pattern first, take one more character only
    when it fails. *)
Fixpoint star_lazy (ok : char -> bool) (k : mstate -> option mstate)
         (caps : list (string * (nat * nat)))
         (pos : nat) (prev : option char) (l : pystr) : option mstate :=
  match k (mk pos prev l caps) with
  | Some r => Some r
  | None =>
      match l with
      | c :: t => if ok c then star_lazy ok k caps (S pos) (Some c) t else None
      | [] => None
      end
  end.

(** [rmatch r k s]: match [r] at state [s], then the rest of the pattern [k];
    the first success in priority order is the result. *)
Fixpoint rmatch (r : regex) (k : mstate -> option mstate) (s : mstate) : option mstate :=
  match r with
  | Eps => k s
  | One p =>
      match st_rest s with
      | c :: t => if single_ok p c then k (mk (S (st_pos s)) (Some c) t (st_caps s)) else None
      | [] => None
      end
  | Seq a b => rmatch a (rmatch b k) s
  | Alt a b =>
      match rmatch a k s with
      | Some r' => Some r'
      | None => rmatch b k s
      end
  | Star true p => star_greedy (single_ok p) k (st_caps s) (st_pos s) (st_prev s) (st_rest s)
  | Star false p => star_lazy (single_ok p) k (st_caps s) (st_pos s) (st_prev s) (st_rest s)
  | Group name a =>
      rmatch a (fun s' => k (mk (st_pos s') (st_prev s') (st_rest s')
                                ((name, (st_pos s, st_pos s')) :: st_caps s'))) s
  | Look a =>
      match rmatch a Some s with
      | Some s' => k (mk (st_pos s) (st_prev s) (st_rest s) (st_caps s'))
      | None => None
      end
  | Bol => if at_bol s then k s else None
  | Eol => if at_eol s then k s else None
  end.

(** One match attempt at offset [pos].  With [must_advance] an empty match
    is refused (the engine backtracks into the pattern instead). *)
Definition match_at (r : regex) (must_advance : bool)
           (pos : nat) (prev : option char) (l : pystr) : option mobj :=
  match rmatch r (fun s => if must_advance && (st_pos s =? pos) then None else Some s)
               (mk pos prev l []) with
  | Some s => Some {| m_start := pos; m_end := st_pos s; m_caps := st_caps s |}
  | None => None
  end.

(** [pattern.search]: the leftmost offset at which an attempt succeeds. *)
Fixpoint search_from (r : regex) (pos : nat) (prev : option char) (l : pystr) : option mobj :=
  match match_at r false pos prev l with
  | Some m => Some m
  | None =>
      match l with
      | [] => None
      | c :: t => search_from r (S pos) (Some c) t
      end
  end.

(** [pattern.finditer]: successive searches, each starting where the previous
    match ended; [skip] counts the characters still inside the previous match.
    After an empty match the same offset is tried once more with
    [must_advance]. *)
Fixpoint finditer_from (r : regex) (skip : nat)
         (pos : nat) (prev : option char) (l : pystr) : list mobj :=
  match skip with
  | S n =>
      match l with
      | [] => []
      | c :: t => finditer_from r n (S pos) (Some c) t
      end
  | O =>
      match match_at r false pos prev l with
      | None =>
          match l with
          | [] => []
          | c :: t => finditer_from r 0 (S pos) (Some c) t
          end
      | Some m =>
          m ::
          (if m_end m =? pos then
             match match_at r true pos prev l with
             | None =>
                 match l with
                 | [] => []
                 | c :: t => finditer_from r 0 (S pos) (Some c) t
                 end
             | Some m' =>
                 m' ::
                 match l with
                 | [] => []
                 | c :: t => finditer_from r (m_end m' - S pos) (S pos) (Some c) t
                 end
             end
           else
             match l with
             | [] => []
             | c :: t => finditer_from r (m_end m - S pos) (S pos) (Some c) t
             end)
      end
  end.

(** [pattern.sub(repl, text)] with a literal replacement: the text between
    matches is copied, every match is replaced by [repl]. *)
Fixpoint sub_from (r : regex) (repl : pystr) (skip : nat)
         (pos : nat) (prev : option char) (l : pystr) : pystr :=
  match skip with
  | S n =>
      match l with
      | [] => []
      | c :: t => sub_from r repl n (S pos) (Some c) t
      end
  | O =>
      match match_at r false pos prev l with
      | None =>
          match l with
          | [] => []
          | c :: t => c :: sub_from r repl 0 (S pos) (Some c) t
          end
      | Some m =>
          repl ++
          (if m_end m =? pos then
             match match_at r true pos prev l with
             | None =>
                 match l with
                 | [] => []
                 | c :: t => c :: sub_from r repl 0 (S pos) (Some c) t
                 end
             | Some m' =>
                 repl ++
                 match l with
                 | [] => []
                 | c :: t => sub_from r repl (m_end m' - S pos) (S pos) (Some c) t
                 end
             end
           else
             match l with
             | [] => []
             | c :: t => sub_from r repl (m_end m - S pos) (S pos) (Some c) t
             end)
      end
  end.

End Engine.

Definition search (db : UnicodeDB) (p : pattern) (text : pystr) : option mobj :=
  search_from db (p_flags p) (p_re p) 0 None text.

Definition finditer (db : UnicodeDB) (p : pattern) (text : pystr) : list mobj :=
  finditer_from db (p_flags p) (p_re p) 0 0 None text.

Definition sub (db : UnicodeDB) (p : pattern) (repl text : pystr) : pystr :=
  sub_from db (p_flags p) (p_re p) repl 0 0 None text.

(** [re.split(p, text, maxsplit=1)] for a pattern without groups: the text
    before and after the first match, or the whole text alone. *)
Definition split1 (db : UnicodeDB) (p : pattern) (text : pystr) : list pystr :=
  match search db p text with
  | Some m => [firstn (m_start m) text; skipn (m_end m) text]
  | None => [text]
  end.

End Re.

Open Scope string_scope.
Open Scope list_scope.

Definition ch (s : string) : char := hd 0%N (u s).

(** ** parsing/patterns.py *)

Module Patterns.
Import Re.

Definition ws : single := SIn [ICat CSpace].        (* \s *)
Definition digit : single := SIn [ICat CDigit].     (* \d *)
Definition nl : regex := One (SLit NL).             (* \n *)
Definition str (s : string) : regex := lits (u s).

(** [r'^(?:Décret|Loi|Arrêté|Décision)\s'], IGNORECASE | MULTILINE. *)
Definition DOCUMENT_START_PATTERN : pattern :=
  {| p_flags := {| IGNORECASE := true; MULTILINE := true; DOTALL := false |};
     p_re := seq [Bol;
                  alt [str "Décret"; str "Loi"; str "Arrêté"; str "Décision"];
                  One ws] |}.

(** The full header, VERBOSE | DOTALL | IGNORECASE | MULTILINE. *)
Definition DOCUMENT_HEADER_PATTERN : pattern :=
  {| p_flags := {| IGNORECASE := true; MULTILINE := true; DOTALL := true |};
     p_re :=
       seq [Bol;
            Group "type"
              (Seq (alt [str "Décret"; str "Loi"; str "Arrêté"; str "Décision"])
                   (Plus false
                      (SIn [ICat CSpace; ICat CWord; ILit (ch "é"); ILit (ch "è");
                            ILit (ch "ç"); ILit (ch "à"); ILit (ch "-");
                            ILit (ch "."); ILit (ch "/")])));
            Plus true ws; str "n°"; Star true ws;
            Group "number"
              (Plus false (SIn [ICat CDigit; ICat CSpace; ILit (ch "-");
                                ILit (ch "."); ILit (ch "/")]));
            Plus true ws; str "du"; Plus true ws;
            Group "date" (Star false SAny);
            Plus true ws;
            alt [str "portant";
                 seq [str "relative"; Plus true ws; str "au"];
                 str "fixant"; str "modifiant"; str "mettant"; str "portant"];
            Plus true ws;
            Group "title" (Star false SAny);
            Look (alt [seq [nl; Star true ws; str "Le"; One ws; str "Président"; One ws;
                            str "de"; One ws; str "la"; One ws; str "République,"];
                       seq [nl; Star true ws; str "Le"; One ws; str "Premier"; One ws;
                            str "ministre,"];
                       seq [nl; Star true ws; str "Vu"; Plus true ws; str "la";
                            Plus true ws; str "Constitution"];
                       seq [nl; Star true ws; str "Article"; Star true ws; One digit]])] |}.

(** The individual decision, VERBOSE | IGNORECASE | MULTILINE. *)
Definition INDIVIDUAL_DECISION_PATTERN : pattern :=
  {| p_flags := {| IGNORECASE := true; MULTILINE := true; DOTALL := false |};
     p_re :=
       seq [Bol;
            Group "type"
              (Alt (seq [str "Décret"; One ws; alt [str "présidentiel"; str "exécutif"]])
                   (str "Arrêté"));
            Plus true ws; str "du"; Plus true ws;
            Group "date" (Plus false SAny);
            Plus true ws;
            Group "title"
              (Seq (alt [seq [str "mettant"; One ws; str "fin"];
                         seq [str "portant"; One ws; str "nomination"]])
                   (Star true SAny))] |}.

(** One article, VERBOSE | DOTALL. *)
Definition ARTICLE_PATTERN : pattern :=
  {| p_flags := {| IGNORECASE := false; MULTILINE := false; DOTALL := true |};
     p_re :=
       seq [nl; Star true ws;
            alt [str "Art"; str "Article"]; str "."; Star true ws;
            Group "number"
              (Seq (Plus true (SIn [ICat CWord; ICat CDigit])) (Opt (str "er")));
            Star true ws; Opt (One (SIn [ILit (ch "—"); ILit (ch "-")])); Star true ws;
            Group "content" (Star false SAny);
            Look (alt [seq [nl; Star true ws; alt [str "Art"; str "Article"]; str "."];
                       seq [nl; Star true ws; str "Fait"; One ws; str "à"; One ws; str "Alger"];
                       seq [nl; Star true ws; str "Le"; One ws; str "ministre"];
                       seq [nl; Star true ws; str "Par"; Plus true ws; str "ces";
                            Plus true ws; str "motifs"];
                       Eol])] |}.

End Patterns.

(** ** parsing/parser.py *)

Definition NA : pystr := u "N/A".

Record article := { number : pystr; content : pystr }.

(** The dictionary built by [parse_document]; [category] is absent until the
    classifier has run. *)
Record document := {
  document_type : pystr;
  official_number : pystr;
  date : pystr;
  title : pystr;
  articles : list article;
  category : option pystr
}.

Definition is_nil {A : Type} (l : list A) : bool :=
  match l with [] => true | _ => false end.

Module LegalParser.
Import Re Patterns.

Definition no_flags : flags := {| IGNORECASE := false; MULTILINE := false; DOTALL := false |}.

Definition NEW_PAGE : pattern :=
  {| p_flags := no_flags; p_re := str "--- NEW PAGE ---" |}.

Definition HIJRI_FOOTER : pattern :=
  {| p_flags := no_flags;
     p_re := seq [nl; Star true ws; str "9 Joumada Ethania 1446"; nl; Star true SAny] |}.

Definition JOURNAL_BANNER : pattern :=
  {| p_flags := no_flags;
     p_re := seq [nl; Star true ws;
                  str "JOURNAL OFFICIEL DE LA REPUBLIQUE ALGERIENNE N° "; Plus true digit] |}.

Definition WS_RUN : pattern := {| p_flags := no_flags; p_re := Plus true ws |}.

Definition SOMMAIRE : pattern :=
  {| p_flags := {| IGNORECASE := true; MULTILINE := false; DOTALL := false |};
     p_re := Seq (str "SOMMAIRE") (Opt (str " (suite)")) |}.

(** [str.strip()], [str.lstrip(chars)] and [str.replace('\n', ' ')]. *)
Definition lstrip_ws (s : pystr) : pystr := dropwhile isspace s.
Definition rstrip_ws (s : pystr) : pystr := rev (dropwhile isspace (rev s)).
Definition strip (s : pystr) : pystr := lstrip_ws (rstrip_ws s).
Definition lstrip_chars (chars s : pystr) : pystr :=
  dropwhile (fun c => existsb (N.eqb c) chars) s.
Definition replace_nl (s : pystr) : pystr :=
  map (fun c => if (c =? NL)%N then SP else c) s.

Section WithDB.

Variable db : UnicodeDB.

Definition _pre_clean_gazette (text : pystr) : pystr :=
  let text := sub db NEW_PAGE [] text in
  let text := sub db HIJRI_FOOTER [] text in
  let text := sub db JOURNAL_BANNER [] text in
  text.

Definition _clean_field (text : pystr) : pystr :=
  let text := strip (replace_nl text) in
  let text := sub db WS_RUN (u " ") text in
  strip (lstrip_chars (u ".- ") text).

Definition _find_content_start (text : pystr) : pystr :=
  match split1 db SOMMAIRE text with
  | _ :: after :: _ => after
  | _ => text
  end.

Definition parse_articles (text : pystr) : list article :=
  map (fun m => {| number := _clean_field (group_get text m "number" []);
                   content := _clean_field (group_get text m "content" []) |})
      (finditer db ARTICLE_PATTERN text).

(** The header match of [parse_document] and its [is_individual] flag. *)
Definition header_match (doc_text : pystr) : option (mobj * bool) :=
  match search db DOCUMENT_HEADER_PATTERN doc_text with
  | Some m => Some (m, false)
  | None =>
      match search db INDIVIDUAL_DECISION_PATTERN doc_text with
      | Some m => Some (m, true)
      | None => None
      end
  end.

(** The fields extracted from a segment, before the final validation. *)
Definition structural_record (doc_text : pystr) : option document :=
  match header_match doc_text with
  | None => None
  | Some (m, is_individual) =>
      let document_type := _clean_field (group_get doc_text m "type" NA) in
      let official_number := _clean_field (group_get doc_text m "number" NA) in
      let date := _clean_field (group_get doc_text m "date" NA) in
      let title := _clean_field (group_get doc_text m "title" NA) in
      let articles :=
        if is_individual then []
        else parse_articles (skipn (m_end m) doc_text) in
      Some {| document_type := document_type;
              official_number := official_number;
              date := date;
              title := title;
              articles := articles;
              category := None |}
  end.

Definition parse_document (doc_text : pystr) : option document :=
  match structural_record doc_text with
  | None => None
  | Some d =>
      (* Final validation *)
      if pystr_eqb (title d) NA && is_nil (articles d) then None else Some d
  end.

(** The offsets at which a legal act starts. *)
Definition starts (main_content : pystr) : list nat :=
  map m_start (finditer db DOCUMENT_START_PATTERN main_content).

(** [(start_pos, end_pos)] for every index of [starts]. *)
Fixpoint segment_bounds (starts : list nat) (len : nat) : list (nat * nat) :=
  match starts with
  | [] => []
  | start_pos :: rest =>
      (start_pos, match rest with next :: _ => next | [] => len end)
        :: segment_bounds rest len
  end.

Definition doc_texts (main_content : pystr) : list pystr :=
  map (fun se => slice (fst se) (snd se) main_content)
      (segment_bounds (starts main_content) (List.length main_content)).

(** The second loop of [process_full_gazette]. *)
Fixpoint parse_segments (doc_texts : list pystr) : list document :=
  match doc_texts with
  | [] => []
  | doc_text :: rest =>
      match parse_document doc_text with
      | Some parsed_doc =>
          if pystr_eqb (official_number parsed_doc) NA && is_nil (articles parsed_doc) then
            if contains (u "nomination") (title parsed_doc)
               || contains (u "mettant fin") (title parsed_doc)
            then parsed_doc :: parse_segments rest
            else parse_segments rest
          else parsed_doc :: parse_segments rest
      | None => parse_segments rest
      end
  end.

Definition process_full_gazette (full_text : pystr) : list document :=
  let cleaned_gazette_text := _pre_clean_gazette full_text in
  let main_content := _find_content_start cleaned_gazette_text in
  if is_nil (starts main_content) then []
  else parse_segments (doc_texts main_content).

End WithDB.

End LegalParser.

(** ** classification/classifier.py *)

Module DocumentClassifier.

Definition classify (db : UnicodeDB) (d : document) : pystr :=
  let doc_type := str_lower db (document_type d) in
  if contains (u "décret") doc_type then u "Decree"
  else if contains (u "loi") doc_type then u "Law"
  else if contains (u "arrêté") doc_type then u "Order"
  else if contains (u "décision") doc_type then u "Decision"
  else if contains (u "circulaire") doc_type then u "Circular"
  else if contains (u "ordonnance") doc_type then u "Ordinance"
  else u "Uncategorized".

End DocumentClassifier.

(** ** rag/chunker.py *)

Record metadata := {
  source_document_type : pystr;
  source_official_number : pystr;
  source_date : pystr;
  source_category : option pystr;
  source_article_number : pystr
}.

Record chunk := { text : pystr; chunk_metadata : metadata }.

Module DocumentChunker.

Definition base_metadata (d : document) (article_number : pystr) : metadata :=
  {| source_document_type := document_type d;
     source_official_number := official_number d;
     source_date := date d;
     source_category := category d;
     source_article_number := article_number |}.

Definition chunk_document (d : document) : list chunk :=
  match articles d with
  | [] =>
      [{| text := document_type d ++ u ": " ++ title d;
          chunk_metadata := base_metadata d NA |}]
  | _ =>
      map (fun a => {| text := u "Article " ++ number a ++ u ": " ++ content a;
                       chunk_metadata := base_metadata d (number a) |})
          (articles d)
  end.

End DocumentChunker.

(** ** tools/run_full_pipeline.py: parsing, classification, chunking *)

Definition set_category (d : document) (c : pystr) : document :=
  {| document_type := document_type d;
     official_number := official_number d;
     date := date d;
     title := title d;
     articles := articles d;
     category := Some c |}.

Definition structured_data (db : UnicodeDB) (raw_text : pystr) : list document :=
  map (fun doc => set_category doc (DocumentClassifier.classify db doc))
      (LegalParser.process_full_gazette db raw_text).

Definition all_chunks (structured : list document) : list chunk :=
  flat_map DocumentChunker.chunk_document structured.

(** ** Inputs of the scenarios *)

Definition scenario_A : pystr :=
  unlines ["SOMMAIRE";
           "Décret exécutif n° 24-100 du 12 janvier 2024 portant création d'un établissement";
           "Le Président de la République,";
           "...";
           "Article 1er. — Il est créé...";
           "Article 2. — Le présent décret...";
           "Fait à Alger, le 12 janvier 2024."].

Definition scenario_B : pystr :=
  u "Décret présidentiel du 3 mars 2024 mettant fin aux fonctions de M. X.".

Definition scenario_B_upper : pystr :=
  u "Décret présidentiel du 3 mars 2024 METTANT FIN aux fonctions de M. X.".

(** ** Vocabulary of the statements *)

(** A group span recorded during a match: its name is one of the pattern's,
    and it lies between the offset where the match started and the end of the
    text. *)
Definition cap_ok (names : list string) (lo hi : nat) (c : string * (nat * nat)) : Prop :=
  In (fst c) names /\ lo <= fst (snd c) /\ fst (snd c) <= snd (snd c) /\ snd (snd c) <= hi.

(** [reach names n s s']: [s'] is [s] after consuming at least [n] characters
    and recording spans of groups among [names]. *)
Definition reach (names : list string) (n : nat) (s s' : Re.mstate) : Prop :=
  (exists w, Re.st_rest s = w ++ Re.st_rest s' /\ Re.st_pos s' = Re.st_pos s + List.length w
             /\ n <= List.length w) /\
  (exists new, Re.st_caps s' = new ++ Re.st_caps s /\
               Forall (cap_ok names (Re.st_pos s) (Re.st_pos s + List.length (Re.st_rest s))) new).

(** What a match object of a single attempt looks like. *)
Definition mobj_ok (r : Re.regex) (lo hi : nat) (m : Re.mobj) : Prop :=
  lo <= Re.m_start m /\ Re.m_start m + Re.minlen r <= Re.m_end m /\ Re.m_end m <= hi /\
  Forall (cap_ok (Re.gnames r) (Re.m_start m) hi) (Re.m_caps m).

(** The text left to match is in scope. *)
Definition st_scoped (s : Re.mstate) : Prop := scoped (Re.st_rest s).

(** Consecutive non-empty half-open intervals, the last one ending at [len]. *)
Fixpoint contiguous (bs : list (nat * nat)) (len : nat) : Prop :=
  match bs with
  | [] => True
  | (a, b) :: rest =>
      a < b /\ b <= len /\
      b = match rest with (a', _) :: _ => a' | [] => len end /\
      contiguous rest len
  end.

Definition preamble_content : pystr :=
  unlines ["Avis et communications";
           "Loi n° 24-01 du 2 janvier 2024 portant loi de finances";
           "Décret exécutif n° 24-02 du 3 janvier 2024 fixant les attributions"].

(** The length of the run of whitespace a string starts with. *)
Fixpoint span_len (l : pystr) : nat :=
  match l with
  | c :: t => if isspace c then S (span_len t) else 0
  | [] => 0
  end.

(** Every run of whitespace replaced by one space; [in_run] tells that the
    run the string starts with has been replaced already. *)
Fixpoint collapse (in_run : bool) (l : pystr) : pystr :=
  match l with
  | [] => []
  | c :: t =>
      if isspace c then (if in_run then collapse true t else SP :: collapse true t)
      else c :: collapse false t
  end.

Definition hd_not (p : char -> bool) (l : pystr) : Prop :=
  match l with [] => True | d :: _ => p d = false end.

(** Whitespace occurs only as single spaces. *)
Fixpoint spaced (l : pystr) : Prop :=
  match l with
  | [] => True
  | c :: t => (isspace c = true -> c = SP /\ hd_not isspace t) /\ spaced t
  end.

Definition is_marker (c : char) : bool := existsb (N.eqb c) (u ".- ").

(** The shape of a cleaned field. *)
Definition tidy (l : pystr) : Prop :=
  spaced l /\ hd_not isspace l /\ hd_not isspace (rev l) /\ hd_not is_marker l.

(** The ordered keyword table and the category vocabulary of the
    specification. *)
Definition KEYWORD_TABLE : list (pystr * pystr) :=
  [(u "décret", u "Decree"); (u "loi", u "Law"); (u "arrêté", u "Order");
   (u "décision", u "Decision"); (u "circulaire", u "Circular");
   (u "ordonnance", u "Ordinance")].

Definition CATEGORIES : list pystr :=
  [u "Decree"; u "Law"; u "Order"; u "Decision"; u "Circular"; u "Ordinance";
   u "Uncategorized"].

(** A lowercase keyword occurs in a string, letter case ignored. *)
Definition contains_ci (db : UnicodeDB) (keyword s : pystr) : bool :=
  contains keyword (str_lower db s).

(** The classifier as the specification words it: the first entry of the
    table whose keyword occurs wins. *)
Definition classify_spec (db : UnicodeDB) (doc_type : pystr) : pystr :=
  match find (fun e => contains_ci db (fst e) doc_type) KEYWORD_TABLE with
  | Some e => snd e
  | None => u "Uncategorized"
  end.

Definition typed (t : pystr) : document :=
  {| document_type := t; official_number := NA; date := NA; title := NA;
     articles := []; category := None |}.

Definition title_chunk (d : document) : chunk :=
  {| text := document_type d ++ u ": " ++ title d;
     chunk_metadata := {| source_document_type := document_type d;
                          source_official_number := official_number d;
                          source_date := date d;
                          source_category := category d;
                          source_article_number := NA |} |}.

Definition article_text (a : article) : pystr :=
  u "Article " ++ number a ++ u ": " ++ content a.

(** The provenance every chunk of [d] carries. *)
Definition provenance_of (d : document) (c : chunk) : Prop :=
  source_document_type (chunk_metadata c) = document_type d /\
  source_official_number (chunk_metadata c) = official_number d /\
  source_date (chunk_metadata c) = date d /\
  source_category (chunk_metadata c) = category d.

(** A segment in which both header patterns match. *)
Definition both_headers : pystr :=
  unlines ["Décret présidentiel du 3 mars 2024 portant nomination au poste n° 12 du 4 avril 2024 fixant la liste";
           "Le Premier ministre,"].

Definition no_header : pystr := u "Décret sans suite".

(** The document the parser builds for scenario B. *)
Definition document_B : document :=
  {| document_type := u "Décret présidentiel";
     official_number := NA;
     date := u "3 mars 2024";
     title := u "mettant fin aux fonctions de M. X.";
     articles := [];
     category := Some (u "Decree") |}.

(** The document the parser builds for the upper-case variant of scenario B,
    before the allowlist is applied. *)
Definition document_B_upper : document :=
  {| document_type := u "Décret présidentiel";
     official_number := NA;
     date := u "3 mars 2024";
     title := u "METTANT FIN aux fonctions de M. X.";
     articles := [];
     category := None |}.

(** A span [(a, b)] of the article block, seen in the segment: it is the
    span [(off + a, off + b)], which starts at or after [off]. *)
Definition span_after (doc_text : pystr) (off : nat) (sp : nat * nat) : Prop :=
  let s := off + fst sp in
  let e := off + snd sp in
  off <= s /\ s <= e /\ e <= List.length doc_text /\
  slice (fst sp) (snd sp) (skipn off doc_text) = slice s e doc_text.

Definition doc_with_articles : pystr :=
  unlines ["Décret exécutif n° 24-100 du 12 janvier 2024 portant création d'un établissement";
           "Le Président de la République,";
           "Art. 1er — Il est créé...";
           "Art. 2 — Le présent décret...";
           "Fait à Alger, le 12 janvier 2024."].

(** The document the code builds for scenario A: the header is read as the
    specification says, but no article is found. *)
Definition document_A : document :=
  {| document_type := u "Décret exécutif";
     official_number := u "24-100";
     date := u "12 janvier 2024";
     title := u "création d'un établissement";
     articles := [];
     category := Some (u "Decree") |}.

(** Scenario A with its articles headed "Art." instead of "Article". *)
Definition scenario_A_abbrev : pystr :=
  unlines ["SOMMAIRE";
           "Décret exécutif n° 24-100 du 12 janvier 2024 portant création d'un établissement";
           "Le Président de la République,";
           "...";
           "Art. 1er. — Il est créé...";
           "Art. 2. — Le présent décret...";
           "Fait à Alger, le 12 janvier 2024."].

(** The text that follows the header of scenario A. *)
Definition block_A : pystr :=
  unlines [""; "Le Président de la République,"; "...";
           "Article 1er. — Il est créé..."; "Article 2. — Le présent décret...";
           "Fait à Alger, le 12 janvier 2024."].

(** ** Vocabulary of the further properties *)

(** [Subseq l1 l2]: [l1] is [l2] with some elements left out, the order
    being kept. *)
Inductive Subseq {A : Type} : list A -> list A -> Prop :=
| Subseq_nil : Subseq [] []
| Subseq_skip x l1 l2 : Subseq l1 l2 -> Subseq l1 (x :: l2)
| Subseq_keep x l1 l2 : Subseq l1 l2 -> Subseq (x :: l1) (x :: l2).

(** All the fields of a document are tidy. *)
Definition tidy_article (a : article) : Prop := tidy (number a) /\ tidy (content a).

Definition tidy_document (d : document) : Prop :=
  tidy (document_type d) /\ tidy (official_number d) /\ tidy (date d) /\
  tidy (title d) /\ Forall tidy_article (articles d).

(** What the two validation steps leave in the output. *)
Definition validated (d : document) : Prop :=
  (title d <> NA \/ articles d <> []) /\
  (official_number d <> NA \/ articles d <> [] \/
   contains (u "nomination") (title d) = true \/
   contains (u "mettant fin") (title d) = true).

(** A declarative reading of the patterns: [matches db fl r s s'] holds when
    [r] can take the matcher from state [s] to state [s'], whatever the order
    in which the alternatives are tried. *)
Inductive matches (db : UnicodeDB) (fl : Re.flags) :
  Re.regex -> Re.mstate -> Re.mstate -> Prop :=
| M_Eps s : matches db fl Re.Eps s s
| M_One p s c t :
    Re.st_rest s = c :: t -> Re.single_ok db fl p c = true ->
    matches db fl (Re.One p) s (Re.mk (S (Re.st_pos s)) (Some c) t (Re.st_caps s))
| M_Seq a b s s1 s2 :
    matches db fl a s s1 -> matches db fl b s1 s2 -> matches db fl (Re.Seq a b) s s2
| M_AltL a b s s' : matches db fl a s s' -> matches db fl (Re.Alt a b) s s'
| M_AltR a b s s' : matches db fl b s s' -> matches db fl (Re.Alt a b) s s'
| M_Star0 g p s : matches db fl (Re.Star g p) s s
| M_StarS g p s c t s' :
    Re.st_rest s = c :: t -> Re.single_ok db fl p c = true ->
    matches db fl (Re.Star g p) (Re.mk (S (Re.st_pos s)) (Some c) t (Re.st_caps s)) s' ->
    matches db fl (Re.Star g p) s s'
| M_Group name a s s' :
    matches db fl a s s' ->
    matches db fl (Re.Group name a) s
            (Re.mk (Re.st_pos s') (Re.st_prev s') (Re.st_rest s')
                   ((name, (Re.st_pos s, Re.st_pos s')) :: Re.st_caps s'))
| M_Look a s s' :
    matches db fl a s s' ->
    matches db fl (Re.Look a) s
            (Re.mk (Re.st_pos s) (Re.st_prev s) (Re.st_rest s) (Re.st_caps s'))
| M_Bol s : Re.at_bol fl s = true -> matches db fl Re.Bol s s
| M_Eol s : Re.at_eol fl s = true -> matches db fl Re.Eol s s.

(** The character before offset [n] of [l], [prev] being the one before [l]. *)
Definition prev_at (prev : option char) (l : pystr) (n : nat) : option char :=
  match n with
  | O => prev
  | S k => nth_error l k
  end.

(** [x] is the literal [w] as a pattern with flags [fl] reads it (up to letter
    case under IGNORECASE). *)
Definition lit_eq (db : UnicodeDB) (fl : Re.flags) (w x : pystr) : Prop :=
  Forall2 (fun c y => Re.lit_ok db fl c y = true) w x.

Definition IC : Re.flags :=
  {| Re.IGNORECASE := true; Re.MULTILINE := false; Re.DOTALL := false |}.

(** [m] is the result of a match attempt at one of the offsets of [l], which
    starts at offset [pos] of the text and is preceded by [prev]. *)
Definition attempt_at (db : UnicodeDB) (fl : Re.flags) (r : Re.regex)
           (pos : nat) (prev : option char) (l : pystr) (m : Re.mobj) : Prop :=
  exists n ma, Re.m_start m = pos + n /\ n <= List.length l /\
               Re.match_at db fl r ma (pos + n) (prev_at prev l n) (skipn n l) = Some m.

(** The keywords that start a legal act. *)
Definition ACT_KEYWORDS : list pystr :=
  [u "Décret"; u "Loi"; u "Arrêté"; u "Décision"].

(** ** Python's decimal formatting of integers *)

Fixpoint uint_digits (d : Decimal.uint) : pystr :=
  match d with
  | Decimal.Nil => []
  | Decimal.D0 r => 48%N :: uint_digits r
  | Decimal.D1 r => 49%N :: uint_digits r
  | Decimal.D2 r => 50%N :: uint_digits r
  | Decimal.D3 r => 51%N :: uint_digits r
  | Decimal.D4 r => 52%N :: uint_digits r
  | Decimal.D5 r => 53%N :: uint_digits r
  | Decimal.D6 r => 54%N :: uint_digits r
  | Decimal.D7 r => 55%N :: uint_digits r
  | Decimal.D8 r => 56%N :: uint_digits r
  | Decimal.D9 r => 57%N :: uint_digits r
  end.

(** [str(z)], also what [f"{z}"] gives. *)
Definition str_int (z : Z) : pystr :=
  match Z.to_int z with
  | Decimal.Pos d => uint_digits d
  | Decimal.Neg d => 45%N :: uint_digits d
  end.

(** [s.zfill]-like padding with zeros up to [width] characters. *)
Definition zero_pad (width : nat) (s : pystr) : pystr :=
  repeat 48%N (width - List.length s) ++ s.

(** [f"{z:03d}"]: the sign, if any, comes first and counts in the width. *)
Definition format_03d (z : Z) : pystr :=
  match Z.to_int z with
  | Decimal.Pos d => zero_pad 3 (uint_digits d)
  | Decimal.Neg d => 45%N :: zero_pad 2 (uint_digits d)
  end.

(** ** ocr/ocr_processor.py *)

Module OcrProcessor.

(** What Tesseract does with one page image: it returns a text, raises a
    [TesseractError], or fails in another way. *)
Inductive page_outcome :=
| Recognised (page_text : pystr)
| TesseractError
| Failure.

(** [sep.join(parts)] *)
Fixpoint join (sep : pystr) (parts : list pystr) : pystr :=
  match parts with
  | [] => []
  | [p] => p
  | p :: rest => p ++ sep ++ join sep rest
  end.

Definition PAGE_SEPARATOR : pystr := unlines [""; ""; "--- NEW PAGE ---"; ""; ""].

(** [f"\n--- TESSERACT ERROR ON PAGE {page_num} ---\n"] *)
Definition tesseract_error_text (page_num : Z) : pystr :=
  NL :: u "--- TESSERACT ERROR ON PAGE " ++ str_int page_num ++ u " ---" ++ [NL].

(** The loop over the page images, [i] being the index of the first one:
    [None] when a page fails with an error that is not caught in the loop. *)
Fixpoint page_loop (i : nat) (images : list page_outcome) : option (list pystr) :=
  match images with
  | [] => Some []
  | image :: rest =>
      let page_num := Z.of_nat (i + 1) in
      match image with
      | Recognised text =>
          option_map (cons text) (page_loop (S i) rest)
      | TesseractError =>
          option_map (cons (tesseract_error_text page_num)) (page_loop (S i) rest)
      | Failure => None
      end
  end.

(** [process_pdf]: [pdf_exists] is [pdf_path.exists()], [images] the result
    of [convert_from_path], [None] when it raises. *)
Definition process_pdf (pdf_exists : bool) (images : option (list page_outcome)) : pystr :=
  if negb pdf_exists then []
  else
    match images with
    | None => []
    | Some images =>
        match page_loop 0 images with
        | Some full_text => join PAGE_SEPARATOR full_text
        | None => []
        end
    end.

End OcrProcessor.

(** The page marker the normalizer removes, and four line breaks. *)
Definition PAGE_MARKER : pystr := u "--- NEW PAGE ---".
Definition BLANK_LINES : pystr := [NL; NL; NL; NL].

(** [re.sub(w, '', l)] for a literal pattern [w] compiled with flags [fl]. *)
Definition delete_literal (db : UnicodeDB) (fl : Re.flags) (w l : pystr) : pystr :=
  Re.sub_from db fl (Re.lits w) [] 0 0 None l.

(** A page whose recognised text does not hold the page marker. *)
Definition marker_free (image : OcrProcessor.page_outcome) : bool :=
  match image with
  | OcrProcessor.Recognised text => negb (contains PAGE_MARKER text)
  | _ => true
  end.

(** ** scraping/scraper.py *)

Module JoradpScraper.

(** [_construct_pdf_url], [base_url] being [self.base_url]. *)
Definition _construct_pdf_url (base_url : pystr) (year issue_number : Z) : pystr :=
  let formatted_issue := format_03d issue_number in
  base_url ++ str_int year ++ u "/F" ++ str_int year ++ formatted_issue ++ u ".pdf".

(** The name under which [scrape_by_range] saves an issue. *)
Definition file_name (year issue : Z) : pystr :=
  u "F" ++ str_int year ++ format_03d issue ++ u ".pdf".

(** [data_dir / str(year) / file_name], as the components below [data_dir]. *)
Definition save_path (year issue : Z) : list pystr :=
  [str_int year; file_name year issue].

End JoradpScraper.

(** The categories of the four act keywords. *)
Definition ACT_CATEGORIES : list pystr := [u "Decree"; u "Law"; u "Order"; u "Decision"].

(** The letters of the act keywords. *)
Definition ACT_LETTERS : list char := List.concat ACT_KEYWORDS.

(** Neither whitespace nor one of the characters stripped from the front of
    a field. *)
Definition solid (c : char) : Prop := isspace c = false /\ is_marker c = false.

(** The word and digit classes hold no whitespace, period or dash, as in
    Unicode. *)
Definition words_are_solid (db : UnicodeDB) : Prop :=
  forall x, isspace x = true \/ is_marker x = true ->
            isalnum db x = false /\ isdecimal db x = false.

(** * Properties *)

Ltac by_eval := vm_compute; reflexivity.

(** ** The matcher *)

(** The matcher on small patterns, with the results CPython gives: a lazy
    star first matches empty and is then made to advance; a greedy star yields
    an empty match where nothing else fits; [$] also matches before a final
    newline. *)
Example finditer_lazy_star :
  map (fun m => (Re.m_start m, Re.m_end m))
      (Re.finditer latin1
         {| Re.p_flags := LegalParser.no_flags; Re.p_re := Re.Star false (Re.SLit (ch "a")) |}
         (u "a"))
  = [(0, 0); (0, 1); (1, 1)].
Proof. by_eval. Qed.

Example finditer_greedy_star :
  map (fun m => (Re.m_start m, Re.m_end m))
      (Re.finditer latin1
         {| Re.p_flags := LegalParser.no_flags; Re.p_re := Re.Star true (Re.SLit (ch "a")) |}
         (u "baac"))
  = [(0, 0); (1, 3); (3, 3); (4, 4)].
Proof. by_eval. Qed.

Example sub_greedy_star :
  Re.sub latin1
    {| Re.p_flags := LegalParser.no_flags; Re.p_re := Re.Star true (Re.SLit (ch "x")) |}
    (u "-") (u "abxd")
  = u "-a-b--d-".
Proof. by_eval. Qed.

Example finditer_end_anchor :
  map (fun m => (Re.m_start m, Re.m_end m))
      (Re.finditer latin1 {| Re.p_flags := LegalParser.no_flags; Re.p_re := Re.Eol |}
         (unlines ["ab"; ""]))
  = [(2, 2); (3, 3)].
Proof. by_eval. Qed.

Example ignorecase_extra_case :
  Re.search latin1
    {| Re.p_flags := {| Re.IGNORECASE := true; Re.MULTILINE := false; Re.DOTALL := false |};
       Re.p_re := Re.lits (u "loi") |}
    [0x4c; 0x4f; 0x131]%N
  = Some {| Re.m_start := 0; Re.m_end := 3; Re.m_caps := [] |}.
Proof. by_eval. Qed.

Section EngineFacts.
Import Re.

Variable db : UnicodeDB.
Variable fl : flags.

Lemma cap_ok_weaken names names' lo lo' hi c :
  incl names names' -> lo' <= lo -> cap_ok names lo hi c -> cap_ok names' lo' hi c.
Proof.
  unfold cap_ok; intros Hi Hl (Hn & H1 & H2 & H3); repeat split; auto; lia.
Qed.

Lemma reach_refl names s : reach names 0 s s.
Proof.
  split; [exists [] | exists []]; simpl; repeat split; auto; lia.
Qed.

Lemma reach_weaken names names' n n' s s' :
  incl names names' -> n' <= n -> reach names n s s' -> reach names' n' s s'.
Proof.
  intros Hi Hn [(w & Hw & Hp & Hl) (new & Hc & Hf)]; split.
  - exists w; repeat split; auto; lia.
  - exists new; split; auto.
    eapply Forall_impl; [| exact Hf]; intros c Hc'.
    eapply cap_ok_weaken; eauto.
Qed.

Lemma reach_trans n1 n2 names1 names2 s s1 s2 :
  reach names1 n1 s s1 -> reach names2 n2 s1 s2 ->
  reach (names1 ++ names2) (n1 + n2) s s2.
Proof.
  intros [(w1 & Hw1 & Hp1 & Hl1) (new1 & Hc1 & Hf1)]
         [(w2 & Hw2 & Hp2 & Hl2) (new2 & Hc2 & Hf2)]; split.
  - exists (w1 ++ w2); rewrite length_app, <- app_assoc, <- Hw2.
    repeat split; auto; lia.
  - exists (new2 ++ new1); rewrite <- app_assoc, <- Hc1; split; auto.
    apply Forall_app; split.
    + eapply Forall_impl; [| exact Hf2]; intros c Hc.
      assert (He : st_pos s1 + List.length (st_rest s1) = st_pos s + List.length (st_rest s))
        by (rewrite Hw1, length_app; lia).
      rewrite He in Hc.
      eapply cap_ok_weaken; [apply incl_appr, incl_refl | | exact Hc]; lia.
    + eapply Forall_impl; [| exact Hf1]; intros c Hc.
      eapply cap_ok_weaken; [apply incl_appl, incl_refl | | exact Hc]; lia.
Qed.

Lemma reach_step names c t s :
  st_rest s = c :: t ->
  reach names 1 s (mk (S (st_pos s)) (Some c) t (st_caps s)).
Proof.
  intros H; split.
  - exists [c]; simpl; rewrite H; repeat split; auto; lia.
  - exists []; simpl; auto.
Qed.

Lemma star_greedy_sound ok k caps l : forall pos prev res,
  star_greedy ok k caps pos prev l = Some res ->
  exists s', k s' = Some res /\ reach [] 0 (mk pos prev l caps) s'.
Proof.
  induction l as [| c t IH]; intros pos prev res H; simpl in H.
  - eexists; split; [exact H | apply reach_refl].
  - destruct (ok c).
    + destruct (star_greedy ok k caps (S pos) (Some c) t) as [r |] eqn:E.
      * inversion H; subst r.
        destruct (IH _ _ _ E) as (s' & Hk & Hr).
        exists s'; split; auto.
        assert (R1 : reach [] 1 (mk pos prev (c :: t) caps) (mk (S pos) (Some c) t caps))
          by (apply (@reach_step [] c t (mk pos prev (c :: t) caps)); reflexivity).
        eapply reach_weaken; [| | exact (reach_trans R1 Hr)]; [apply incl_refl | lia].
      * eexists; split; [exact H | apply reach_refl].
    + eexists; split; [exact H | apply reach_refl].
Qed.

Lemma star_lazy_sound ok k caps l : forall pos prev res,
  star_lazy ok k caps pos prev l = Some res ->
  exists s', k s' = Some res /\ reach [] 0 (mk pos prev l caps) s'.
Proof.
  induction l as [| c t IH]; intros pos prev res H; simpl in H.
  - destruct (k (mk pos prev [] caps)) eqn:E; [| discriminate].
    eexists; split; [rewrite E; exact H | apply reach_refl].
  - destruct (k (mk pos prev (c :: t) caps)) eqn:E.
    + eexists; split; [rewrite E; exact H | apply reach_refl].
    + destruct (ok c); [| discriminate].
      destruct (IH _ _ _ H) as (s' & Hk & Hr).
      exists s'; split; auto.
      assert (R1 : reach [] 1 (mk pos prev (c :: t) caps) (mk (S pos) (Some c) t caps))
        by (apply (@reach_step [] c t (mk pos prev (c :: t) caps)); reflexivity).
      eapply reach_weaken; [| | exact (reach_trans R1 Hr)]; [apply incl_refl | lia].
Qed.

Lemma mk_eta s : mk (st_pos s) (st_prev s) (st_rest s) (st_caps s) = s.
Proof. destruct s; reflexivity. Qed.

(** Soundness of the matcher: a successful match hands to its continuation a
    state reached from the initial one. *)
Lemma rmatch_sound r : forall k s res,
  rmatch db fl r k s = Some res ->
  exists s', k s' = Some res /\ reach (gnames r) (minlen r) s s'.
Proof.
  induction r as [| p | a IHa b IHb | a IHa b IHb | g p | name a IHa | a IHa | |];
    intros k s res H; simpl in H.
  - exists s; split; auto; apply reach_refl.
  - destruct (st_rest s) as [| c t] eqn:Er; [discriminate |].
    destruct (single_ok db fl p c); [| discriminate].
    eexists; split; [exact H |]. apply reach_step; auto.
  - apply IHa in H; destruct H as (s1 & H1 & R1).
    apply IHb in H1; destruct H1 as (s2 & H2 & R2).
    exists s2; split; auto. simpl. eapply reach_trans; eauto.
  - simpl. destruct (rmatch db fl a k s) as [r' |] eqn:E.
    + inversion H; subst r'. apply IHa in E; destruct E as (s1 & H1 & R1).
      exists s1; split; auto.
      eapply reach_weaken; [apply incl_appl, incl_refl | | exact R1]; lia.
    + apply IHb in H; destruct H as (s1 & H1 & R1).
      exists s1; split; auto.
      eapply reach_weaken; [apply incl_appr, incl_refl | | exact R1]; lia.
  - destruct g; [apply star_greedy_sound in H | apply star_lazy_sound in H];
      rewrite mk_eta in H; exact H.
  - apply IHa in H; destruct H as (s1 & H1 & [(w & Hw & Hp & Hl) (new & Hc & Hf)]).
    eexists; split; [exact H1 |]. split; simpl.
    + exists w; auto.
    + exists ((name, (st_pos s, st_pos s1)) :: new); rewrite Hc; split; auto.
      constructor.
      * unfold cap_ok; simpl. rewrite Hw, length_app. repeat split; auto; lia.
      * eapply Forall_impl; [| exact Hf]; intros c Hc'.
        eapply cap_ok_weaken; [apply incl_tl, incl_refl | | exact Hc']; lia.
  - destruct (rmatch db fl a Some s) as [s1 |] eqn:E; [| discriminate].
    apply IHa in E; destruct E as (s2 & H2 & [_ (new & Hc & Hf)]).
    inversion H2; subst s2.
    eexists; split; [exact H |]. split; simpl.
    + exists []; simpl; repeat split; auto; lia.
    + exists new; auto.
  - destruct (at_bol fl s); [| discriminate].
    exists s; split; auto; apply reach_refl.
  - destruct (at_eol fl s); [| discriminate].
    exists s; split; auto; apply reach_refl.
Qed.

Lemma match_at_sound r ma pos prev l m :
  match_at db fl r ma pos prev l = Some m ->
  m_start m = pos /\ mobj_ok r pos (pos + List.length l) m /\
  (ma = true -> pos < m_end m).
Proof.
  unfold match_at; intros H.
  destruct (rmatch db fl r _ (mk pos prev l [])) as [s |] eqn:E; [| discriminate].
  inversion H; subst m; clear H; simpl.
  apply rmatch_sound in E.
  destruct E as (s' & Hk & [(w & Hw & Hp & Hl) (new & Hc & Hf)]); simpl in *.
  destruct (ma && Nat.eqb (st_pos s') pos) eqn:Ema; [discriminate |].
  inversion Hk; subst s'; clear Hk.
  split; auto. split.
  - unfold mobj_ok; simpl. rewrite Hw, length_app. repeat split; try lia.
    rewrite Hc, app_nil_r. rewrite Hw, length_app in Hf. exact Hf.
  - intros ->; simpl in Ema. apply Nat.eqb_neq in Ema. lia.
Qed.

Lemma mobj_ok_weaken r lo lo' hi m : lo' <= lo -> mobj_ok r lo hi m -> mobj_ok r lo' hi m.
Proof. unfold mobj_ok; intros Hl (H1 & H2 & H3 & H4); repeat split; auto; lia. Qed.

Lemma search_from_sound r l : forall pos prev m,
  search_from db fl r pos prev l = Some m ->
  mobj_ok r pos (pos + List.length l) m.
Proof.
  induction l as [| c t IH]; intros pos prev m H; simpl in H.
  - destruct (match_at db fl r false pos prev []) eqn:E; [| discriminate].
    inversion H; subst; apply match_at_sound in E; tauto.
  - destruct (match_at db fl r false pos prev (c :: t)) eqn:E.
    + inversion H; subst; apply match_at_sound in E; tauto.
    + apply IH in H. simpl. replace (pos + S (List.length t)) with (S pos + List.length t) by lia.
      eapply mobj_ok_weaken; [| exact H]; lia.
Qed.

(** Successive matches of a pattern that cannot match the empty string lie
    one after the other inside the text. *)
Ltac shift_bound pos t :=
  replace (pos + S (List.length t)) with (S pos + List.length t) by lia.

Lemma finditer_from_sound r (Hmin : 0 < minlen r) l : forall skip pos prev,
  Forall (mobj_ok r (pos + skip) (pos + List.length l)) (finditer_from db fl r skip pos prev l) /\
  StronglySorted (fun a b => m_end a <= m_start b) (finditer_from db fl r skip pos prev l).
Proof.
  induction l as [| c t IH]; intros skip pos prev.
  - destruct skip; simpl; [| split; constructor].
    destruct (match_at db fl r false pos prev []) as [m |] eqn:E; [| split; constructor].
    apply match_at_sound in E; destruct E as (Hs & (H1 & H2 & H3 & H4) & _).
    simpl in *; lia.
  - destruct skip as [| n]; simpl.
    + destruct (match_at db fl r false pos prev (c :: t)) as [m |] eqn:E.
      * apply match_at_sound in E; destruct E as (Hs & Hok & _).
        assert (Hne : Nat.eqb (m_end m) pos = false)
          by (apply Nat.eqb_neq; destruct Hok as (_ & H2 & _); lia).
        rewrite Hne.
        destruct (IH (m_end m - S pos) (S pos) (Some c)) as [HF HS].
        assert (Hend : S pos + (m_end m - S pos) = m_end m)
          by (destruct Hok as (_ & H2 & _); lia).
        rewrite Hend in HF. split.
        -- constructor.
           ++ simpl in Hok. rewrite Nat.add_0_r. exact Hok.
           ++ eapply Forall_impl; [| exact HF]; intros x Hx.
              simpl. shift_bound pos t.
              eapply mobj_ok_weaken; [| exact Hx]. destruct Hok as (_ & H2 & _); lia.
        -- constructor; auto.
           eapply Forall_impl; [| exact HF]; intros x (Hx & _); exact Hx.
      * destruct (IH 0 (S pos) (Some c)) as [HF HS]. split; auto.
        eapply Forall_impl; [| exact HF]; intros x Hx.
        simpl. shift_bound pos t.
        eapply mobj_ok_weaken; [| exact Hx]; lia.
    + destruct (IH n (S pos) (Some c)) as [HF HS]. split; auto.
      eapply Forall_impl; [| exact HF]; intros x Hx.
      shift_bound pos t.
      eapply mobj_ok_weaken; [| exact Hx]; lia.
Qed.

End EngineFacts.

(** ** Segmentation *)

Lemma slice_to_end (a : nat) (s : pystr) : slice a (List.length s) s = skipn a s.
Proof.
  unfold slice. apply firstn_all2. rewrite length_skipn. lia.
Qed.

Lemma slice_then_skipn (a b : nat) (s : pystr) :
  a <= b -> slice a b s ++ skipn b s = skipn a s.
Proof.
  intros H. unfold slice.
  replace (skipn b s) with (skipn (b - a) (skipn a s))
    by (rewrite skipn_skipn; f_equal; lia).
  apply firstn_skipn.
Qed.

Lemma segment_bounds_cover (s : pystr) : forall ss,
  StronglySorted lt ss -> Forall (fun a => a < List.length s) ss ->
  contiguous (LegalParser.segment_bounds ss (List.length s)) (List.length s) /\
  List.concat (map (fun se => slice (fst se) (snd se) s)
              (LegalParser.segment_bounds ss (List.length s)))
  = match ss with [] => [] | a :: _ => skipn a s end.
Proof.
  induction ss as [| a rest IH]; intros Hs Hb; simpl; [split; auto |].
  inversion Hs as [| ? ? Hs' Hlt]; subst.
  inversion Hb as [| ? ? Ha Hb']; subst.
  destruct (IH Hs' Hb') as [Hc Hcat]. rewrite Hcat.
  destruct rest as [| b rest'].
  - split; [repeat split; auto; lia |].
    rewrite app_nil_r. apply slice_to_end.
  - inversion Hlt; subst. inversion Hb'; subst.
    split; [| apply slice_then_skipn; lia].
    split; [lia | split; [lia | split; [reflexivity | exact Hc]]].
Qed.

Lemma starts_sorted (db : UnicodeDB) (content : pystr) :
  StronglySorted lt (LegalParser.starts db content) /\
  Forall (fun a => a < List.length content) (LegalParser.starts db content).
Proof.
  unfold LegalParser.starts, Re.finditer.
  assert (Hmin : 0 < Re.minlen (Re.p_re Patterns.DOCUMENT_START_PATTERN))
    by (vm_compute; lia).
  destruct (@finditer_from_sound db (Re.p_flags Patterns.DOCUMENT_START_PATTERN)
              _ Hmin content 0 0 None) as [HF HS].
  set (ms := Re.finditer_from _ _ _ _ _ _ _) in *. clearbody ms.
  induction ms as [| m ms IH]; simpl; [split; constructor |].
  inversion HF as [| ? ? Hm HF']; subst. inversion HS as [| ? ? HS' Hle]; subst.
  destruct (IH HF' HS') as [IH1 IH2].
  destruct Hm as (_ & H2 & H3 & _). split.
  - constructor; auto.
    apply Forall_map. rewrite Forall_forall in *. intros x Hx.
    specialize (Hle x Hx). lia.
  - constructor; auto. simpl in H3. lia.
Qed.

(** C2, as the code has it: the act boundaries are strictly increasing
    offsets inside the content; the segments are non-empty, consecutive,
    non-overlapping intervals, the last one ending at the length of the content;
    together they are exactly the content from the first boundary on (nothing
    at all when there is no boundary), so the text before the first boundary
    belongs to no segment. *)
Theorem C2_segments_cover_from_first_boundary (db : UnicodeDB) (content : pystr) :
  let ss := LegalParser.starts db content in
  StronglySorted lt ss /\
  Forall (fun a => a < List.length content) ss /\
  contiguous (LegalParser.segment_bounds ss (List.length content)) (List.length content) /\
  List.concat (LegalParser.doc_texts db content)
  = match ss with [] => [] | a :: _ => skipn a content end.
Proof.
  intros ss. destruct (starts_sorted db content) as [Hs Hb].
  destruct (segment_bounds_cover content Hs Hb) as [Hc Hcat].
  repeat split; auto.
Qed.

(** C2 as stated fails: the segments of [preamble_content] do not cover its
    first line. *)
Lemma C2_prefix_not_covered :
  LegalParser.starts latin1 preamble_content = [23; 78] /\
  List.concat (LegalParser.doc_texts latin1 preamble_content) <> preamble_content.
Proof.
  split; [vm_compute; reflexivity |].
  intros H. apply (f_equal (@List.length char)) in H. vm_compute in H. discriminate.
Qed.

(** ** The field cleaner *)

Section CleanerFacts.
Import Re LegalParser.

Variable db : UnicodeDB.

Lemma ws_ok c : single_ok db no_flags Patterns.ws c = isspace c.
Proof. simpl. unfold set_ok; simpl. apply orb_false_r. Qed.

Lemma star_greedy_run ok k caps l :
  (forall c, ok c = isspace c) -> (forall s, k s = Some s) -> forall pos prev,
  exists s', star_greedy ok k caps pos prev l = Some s' /\
             st_pos s' = pos + span_len l /\ st_caps s' = caps.
Proof.
  intros Hok Hk; induction l as [| c t IH]; intros pos prev; simpl.
  - rewrite Hk. eexists; split; [reflexivity |]; simpl; split; auto; lia.
  - rewrite Hok. destruct (isspace c).
    + destruct (IH (S pos) (Some c)) as (s' & -> & Hp & Hc).
      exists s'; repeat split; auto; lia.
    + rewrite Hk. eexists; split; [reflexivity |]; simpl; split; auto; lia.
Qed.

Lemma match_at_ws pos prev l :
  match_at db no_flags (p_re WS_RUN) false pos prev l =
  match l with
  | c :: t =>
      if isspace c
      then Some {| m_start := pos; m_end := S pos + span_len t; m_caps := [] |}
      else None
  | [] => None
  end.
Proof.
  unfold match_at. destruct l as [| c t]; [reflexivity |].
  unfold WS_RUN, p_re, Plus. cbn [rmatch st_rest mk st_pos st_caps st_prev].
  rewrite ws_ok. destruct (isspace c); [| reflexivity].
  destruct (@star_greedy_run (single_ok db no_flags Patterns.ws)
              (fun s : mstate => if false && Nat.eqb (st_pos s) pos then None else Some s)
              [] t ws_ok (fun s => eq_refl) (S pos) (Some c))
    as (s' & Hs & Hp & Hc).
  rewrite Hs, Hp, Hc. reflexivity.
Qed.

Lemma sub_ws_collapse l : forall pos prev,
  sub_from db no_flags (p_re WS_RUN) [SP] 0 pos prev l = collapse false l /\
  sub_from db no_flags (p_re WS_RUN) [SP] (span_len l) pos prev l = collapse true l.
Proof.
  induction l as [| c t IH]; intros pos prev.
  - simpl span_len. unfold sub_from. rewrite match_at_ws. auto.
  - assert (H0 : sub_from db no_flags (p_re WS_RUN) [SP] 0 pos prev (c :: t)
                 = collapse false (c :: t)).
    { cbn [sub_from]. rewrite match_at_ws. cbn [collapse].
      destruct (isspace c) eqn:Ec.
      - cbn [m_end]. replace (Nat.eqb (S pos + span_len t) pos) with false
          by (symmetry; apply Nat.eqb_neq; lia).
        replace (S pos + span_len t - S pos) with (span_len t) by lia.
        simpl. f_equal. apply IH.
      - f_equal. apply IH. }
    split; [exact H0 |].
    cbn [span_len collapse]. destruct (isspace c) eqn:Ec.
    + cbn [sub_from]. apply IH.
    + rewrite H0. cbn [collapse]. rewrite Ec. reflexivity.
Qed.

Lemma sub_ws text : sub db WS_RUN (u " ") text = collapse false text.
Proof. unfold sub. apply sub_ws_collapse. Qed.

Lemma collapse_spaced l :
  spaced (collapse false l) /\ spaced (collapse true l) /\ hd_not isspace (collapse true l).
Proof.
  induction l as [| c t (IH1 & IH2 & IH3)]; simpl; [auto |].
  destruct (isspace c) eqn:Ec; simpl.
  - repeat split; auto.
  - rewrite Ec. repeat split; auto; discriminate.
Qed.

Lemma collapse_true_hd l : hd_not isspace l -> collapse true l = collapse false l.
Proof. destruct l as [| c t]; simpl; auto. intros ->. reflexivity. Qed.

Lemma collapse_id l : spaced l -> collapse false l = l.
Proof.
  induction l as [| c t IH]; simpl; auto.
  intros [Hc Ht]. destruct (isspace c).
  - destruct (Hc eq_refl) as [-> Hn].
    rewrite (collapse_true_hd _ Hn), IH; auto.
  - rewrite IH; auto.
Qed.

Lemma dropwhile_hd p l : hd_not p (dropwhile p l).
Proof.
  induction l as [| c t IH]; simpl; auto.
  destruct (p c) eqn:E; simpl; auto.
Qed.

Lemma dropwhile_id p l : hd_not p l -> dropwhile p l = l.
Proof. destruct l as [| c t]; simpl; auto. intros ->. reflexivity. Qed.

Lemma dropwhile_suffix p l : exists w, l = w ++ dropwhile p l.
Proof.
  induction l as [| c t (w & IH)]; simpl; [exists []; reflexivity |].
  destruct (p c).
  - exists (c :: w); simpl; f_equal; exact IH.
  - exists []; reflexivity.
Qed.

Lemma spaced_app_r a b : spaced (a ++ b) -> spaced b.
Proof. induction a as [| c t IH]; simpl; auto. intros [_ H]; auto. Qed.

Lemma spaced_app_l a b : spaced (a ++ b) -> spaced a.
Proof.
  induction a as [| c t IH]; simpl; auto.
  intros [Hc H]; split; auto.
  intros E; destruct (Hc E) as [-> Hn]; split; auto.
  destruct t; simpl in *; auto.
Qed.

Lemma spaced_dropwhile p l : spaced l -> spaced (dropwhile p l).
Proof.
  intros H. destruct (dropwhile_suffix p l) as (w & Hw).
  rewrite Hw in H. eapply spaced_app_r; eauto.
Qed.

Lemma rstrip_prefix l : exists w, l = rstrip_ws l ++ w.
Proof.
  unfold rstrip_ws. destruct (dropwhile_suffix isspace (rev l)) as (w & Hw).
  exists (rev w). rewrite <- rev_app_distr, <- Hw, rev_involutive. reflexivity.
Qed.

Lemma rstrip_last l : hd_not isspace (rev (rstrip_ws l)).
Proof. unfold rstrip_ws. rewrite rev_involutive. apply dropwhile_hd. Qed.

Lemma rstrip_id l : hd_not isspace (rev l) -> rstrip_ws l = l.
Proof.
  intros H. unfold rstrip_ws. rewrite (dropwhile_id _ _ H). apply rev_involutive.
Qed.

Lemma strip_id l : hd_not isspace l -> hd_not isspace (rev l) -> strip l = l.
Proof.
  intros H1 H2. unfold strip. rewrite (rstrip_id _ H2). apply dropwhile_id; auto.
Qed.

Lemma spaced_no_nl l : spaced l -> replace_nl l = l.
Proof.
  induction l as [| c t IH]; simpl; auto.
  intros [Hc Ht]. rewrite IH; auto. f_equal.
  destruct (N.eqb_spec c NL) as [-> |]; auto.
  destruct (Hc eq_refl) as [E _]; discriminate.
Qed.

(** A tidy string is left as it is. *)
Lemma clean_tidy_id l : tidy l -> _clean_field db l = l.
Proof.
  intros (Hs & Hh & Hl & Hm). unfold _clean_field.
  rewrite (spaced_no_nl _ Hs), (strip_id _ Hh Hl), sub_ws, (collapse_id _ Hs).
  unfold lstrip_chars. fold is_marker.
  rewrite (dropwhile_id _ _ Hm). apply strip_id; auto.
Qed.

(** The cleaner returns tidy strings. *)
Lemma clean_is_tidy s : tidy (_clean_field db s).
Proof.
  unfold _clean_field. rewrite sub_ws.
  set (B := collapse false (strip (replace_nl s))).
  assert (HB : spaced B) by apply collapse_spaced.
  unfold lstrip_chars. fold is_marker.
  set (C := dropwhile is_marker B).
  assert (HC : spaced C) by (apply spaced_dropwhile; exact HB).
  assert (HCm : hd_not is_marker C) by apply dropwhile_hd.
  destruct (rstrip_prefix C) as (w & Hw).
  assert (HR : spaced (rstrip_ws C)) by (rewrite Hw in HC; eapply spaced_app_l; eauto).
  assert (HRm : hd_not is_marker (rstrip_ws C)).
  { destruct (rstrip_ws C) as [| d R'] eqn:ER; simpl; auto.
    rewrite Hw in HCm. exact HCm. }
  assert (HRs : hd_not isspace (rstrip_ws C)).
  { destruct (rstrip_ws C) as [| d R'] eqn:ER; simpl; auto.
    destruct (isspace d) eqn:Ed; auto.
    destruct HR as [Hd _]. destruct (Hd Ed) as [-> _].
    simpl in HRm. vm_compute in HRm. discriminate. }
  unfold strip at 1. unfold lstrip_ws. rewrite (dropwhile_id _ _ HRs).
  repeat split; auto. apply rstrip_last.
Qed.

End CleanerFacts.

(** C7: the field cleaner is idempotent. *)
Theorem C7_clean_field_idempotent (db : UnicodeDB) (s : pystr) :
  LegalParser._clean_field db (LegalParser._clean_field db s)
  = LegalParser._clean_field db s.
Proof. apply clean_tidy_id, clean_is_tidy. Qed.

(** ** Faithful character databases *)

Section Transfer.
Import Re.

Variable db : UnicodeDB.
Hypothesis F : faithful db.
Variable fl : flags.

Lemma tolower_scope c : in_scope c = true -> in_scope (tolower latin1 c) = true.
Proof.
  simpl. unfold latin1_tolower.
  destruct (in_ranges _ c) eqn:E; auto.
  unfold in_scope, in_ranges in *.
  rewrite !orb_true_iff, !andb_true_iff, !N.leb_le in E.
  rewrite !orb_true_iff, !N.leb_le, !N.eqb_eq. intros _. left. lia.
Qed.

Lemma existsb_ext_in {A} (f g : A -> bool) l :
  (forall x, In x l -> f x = g x) -> existsb f l = existsb g l.
Proof.
  induction l as [| a l IH]; simpl; auto.
  intros H. rewrite (H a), IH; auto.
Qed.

Lemma cat_ok_ext k x : in_scope x = true -> cat_ok db k x = cat_ok latin1 k x.
Proof.
  intros H. destruct k; simpl; auto.
  - rewrite (faithful_isalnum F _ H); reflexivity.
  - apply (faithful_isdecimal F _ H).
Qed.

Lemma single_ok_ext p x :
  single_scoped p = true -> in_scope x = true ->
  single_ok db fl p x = single_ok latin1 fl p x.
Proof.
  intros Hp Hx. destruct p as [c | | items]; simpl in *.
  - unfold lit_ok.
    rewrite (faithful_iscased F _ Hp), (faithful_tolower F _ Hp), (faithful_tolower F _ Hx).
    reflexivity.
  - reflexivity.
  - unfold set_ok. rewrite forallb_forall in Hp.
    assert (Hc : existsb (fun it => match it with ILit c => iscased db c | ICat _ => false end) items
                 = existsb (fun it => match it with ILit c => iscased latin1 c | ICat _ => false end) items).
    { apply existsb_ext_in. intros [c | k] Hin; auto.
      apply (faithful_iscased F). apply (Hp _ Hin). }
    rewrite Hc, (faithful_tolower F _ Hx). clear Hc.
    destruct (IGNORECASE fl).
    + set (y := if existsb _ items then tolower latin1 x else x).
      assert (Hy : in_scope y = true)
        by (unfold y; destruct (existsb _ items); [apply tolower_scope |]; exact Hx).
      apply existsb_ext_in. intros [c | k] Hin.
      * rewrite (faithful_tolower F c (Hp _ Hin)). reflexivity.
      * apply cat_ok_ext; exact Hy.
    + apply existsb_ext_in. intros [c | k] Hin; auto.
      apply cat_ok_ext; exact Hx.
Qed.

Lemma star_greedy_ext ok1 ok2 k1 k2 caps l :
  (forall c, in_scope c = true -> ok1 c = ok2 c) ->
  (forall s, st_scoped s -> k1 s = k2 s) ->
  scoped l -> forall pos prev,
  star_greedy ok1 k1 caps pos prev l = star_greedy ok2 k2 caps pos prev l.
Proof.
  intros Hok Hk. induction l as [| c t IH]; intros Hl pos prev; simpl.
  - apply Hk. exact Hl.
  - inversion Hl as [| ? ? Hc Ht]; subst.
    rewrite (Hok c Hc), (IH Ht), (Hk (mk pos prev (c :: t) caps) Hl). reflexivity.
Qed.

Lemma star_lazy_ext ok1 ok2 k1 k2 caps l :
  (forall c, in_scope c = true -> ok1 c = ok2 c) ->
  (forall s, st_scoped s -> k1 s = k2 s) ->
  scoped l -> forall pos prev,
  star_lazy ok1 k1 caps pos prev l = star_lazy ok2 k2 caps pos prev l.
Proof.
  intros Hok Hk. induction l as [| c t IH]; intros Hl pos prev; simpl.
  - rewrite (Hk (mk pos prev [] caps) Hl). reflexivity.
  - inversion Hl as [| ? ? Hc Ht]; subst.
    rewrite (Hok c Hc), (IH Ht), (Hk (mk pos prev (c :: t) caps) Hl). reflexivity.
Qed.

Lemma rmatch_ext r : re_scoped r = true -> forall k1 k2 s,
  (forall s', st_scoped s' -> k1 s' = k2 s') -> st_scoped s ->
  rmatch db fl r k1 s = rmatch latin1 fl r k2 s.
Proof.
  induction r as [| p | a IHa b IHb | a IHa b IHb | g p | name a IHa | a IHa | |];
    intros Hr k1 k2 s Hk Hs; simpl in *.
  - auto.
  - unfold st_scoped in Hs. destruct (st_rest s) as [| c t]; auto.
    inversion Hs as [| ? ? Hc Ht]; subst.
    rewrite (@single_ok_ext p c Hr Hc). destruct (single_ok latin1 fl p c); auto.
  - apply andb_true_iff in Hr. destruct Hr as [Ha Hb].
    apply IHa; auto.
  - apply andb_true_iff in Hr. destruct Hr as [Ha Hb].
    rewrite (IHa Ha k1 k2 s Hk Hs), (IHb Hb k1 k2 s Hk Hs). reflexivity.
  - destruct g; [apply star_greedy_ext | apply star_lazy_ext]; auto;
      intros c Hc; apply single_ok_ext; auto.
  - apply IHa; auto.
  - rewrite (IHa Hr Some Some s (fun _ _ => eq_refl) Hs).
    destruct (rmatch latin1 fl a Some s); auto.
  - destruct (at_bol fl s); auto.
  - destruct (at_eol fl s); auto.
Qed.

Lemma match_at_ext r ma pos prev l :
  re_scoped r = true -> scoped l ->
  match_at db fl r ma pos prev l = match_at latin1 fl r ma pos prev l.
Proof.
  intros Hr Hl. unfold match_at.
  erewrite rmatch_ext; [reflexivity | exact Hr | reflexivity | exact Hl].
Qed.

Lemma search_from_ext r l : re_scoped r = true -> scoped l -> forall pos prev,
  search_from db fl r pos prev l = search_from latin1 fl r pos prev l.
Proof.
  intros Hr. induction l as [| c t IH]; intros Hl pos prev; simpl;
    rewrite (@match_at_ext r _ pos prev _ Hr Hl); [reflexivity |].
  inversion Hl; subst. rewrite IH; auto.
Qed.

Lemma finditer_from_ext r l : re_scoped r = true -> scoped l -> forall skip pos prev,
  finditer_from db fl r skip pos prev l = finditer_from latin1 fl r skip pos prev l.
Proof.
  intros Hr. induction l as [| c t IH]; intros Hl skip pos prev.
  - destruct skip; simpl; rewrite ?(@match_at_ext r _ pos prev _ Hr Hl); reflexivity.
  - inversion Hl as [| ? ? Hc Ht]; subst.
    destruct skip; simpl; [| apply IH; exact Ht].
    rewrite !(@match_at_ext r _ pos prev _ Hr Hl).
    destruct (match_at latin1 fl r false pos prev (c :: t)) as [m |];
      [| rewrite IH; auto].
    destruct (Nat.eqb (m_end m) pos); [| rewrite IH; auto].
    destruct (match_at latin1 fl r true pos prev (c :: t)); rewrite IH; auto.
Qed.

Lemma sub_from_ext r repl l : re_scoped r = true -> scoped l -> forall skip pos prev,
  sub_from db fl r repl skip pos prev l = sub_from latin1 fl r repl skip pos prev l.
Proof.
  intros Hr. induction l as [| c t IH]; intros Hl skip pos prev.
  - destruct skip; simpl; rewrite ?(@match_at_ext r _ pos prev _ Hr Hl); reflexivity.
  - inversion Hl as [| ? ? Hc Ht]; subst.
    destruct skip; simpl; [| apply IH; exact Ht].
    rewrite !(@match_at_ext r _ pos prev _ Hr Hl).
    destruct (match_at latin1 fl r false pos prev (c :: t)) as [m |];
      [| rewrite IH; auto].
    destruct (Nat.eqb (m_end m) pos); [| rewrite IH; auto].
    destruct (match_at latin1 fl r true pos prev (c :: t)); rewrite IH; auto.
Qed.

Lemma sub_from_scoped d r repl l : scoped repl -> scoped l -> forall skip pos prev,
  scoped (sub_from d fl r repl skip pos prev l).
Proof.
  intros Hrepl. unfold scoped in *.
  induction l as [| c t IH]; intros Hl skip pos prev.
  - destruct skip; simpl; [| constructor].
    destruct (match_at d fl r false pos prev []) as [m |]; [| constructor].
    apply Forall_app; split; auto.
    destruct (m_end m =? pos)%nat; [| constructor].
    destruct (match_at d fl r true pos prev []); [| constructor].
    rewrite app_nil_r; auto.
  - inversion Hl as [| ? ? Hc Ht]; subst.
    destruct skip; simpl; [| apply IH; exact Ht].
    destruct (match_at d fl r false pos prev (c :: t)) as [m |];
      [| constructor; auto].
    apply Forall_app; split; auto.
    destruct (m_end m =? pos)%nat; [| auto].
    destruct (match_at d fl r true pos prev (c :: t)); [| constructor; auto].
    apply Forall_app; split; auto.
Qed.

End Transfer.

Section TransferParser.
Import Re Patterns LegalParser.

Variable db : UnicodeDB.
Hypothesis F : faithful db.

Lemma search_ext p text :
  re_scoped (p_re p) = true -> scoped text -> search db p text = search latin1 p text.
Proof. intros Hp Ht. unfold search. apply search_from_ext; auto. Qed.

Lemma finditer_ext p text :
  re_scoped (p_re p) = true -> scoped text -> finditer db p text = finditer latin1 p text.
Proof. intros Hp Ht. unfold finditer. apply finditer_from_ext; auto. Qed.

Lemma sub_ext p repl text :
  re_scoped (p_re p) = true -> scoped text -> sub db p repl text = sub latin1 p repl text.
Proof. intros Hp Ht. unfold sub. apply sub_from_ext; auto. Qed.

Lemma sub_scoped d p repl text :
  scoped repl -> scoped text -> scoped (sub d p repl text).
Proof. intros. unfold sub. apply sub_from_scoped; auto. Qed.

Lemma scoped_skipn n s : scoped s -> scoped (skipn n s).
Proof.
  unfold scoped. intros H. rewrite <- (firstn_skipn n s) in H.
  apply Forall_app in H. tauto.
Qed.

Lemma scoped_firstn n s : scoped s -> scoped (firstn n s).
Proof.
  unfold scoped. intros H. rewrite <- (firstn_skipn n s) in H.
  apply Forall_app in H. tauto.
Qed.

Lemma scoped_slice a b s : scoped s -> scoped (slice a b s).
Proof. intros H. unfold slice. apply scoped_firstn, scoped_skipn, H. Qed.

Lemma scoped_dropwhile p s : scoped s -> scoped (dropwhile p s).
Proof.
  intros H. destruct (dropwhile_suffix p s) as (w & Hw).
  unfold scoped in *. rewrite Hw in H. apply Forall_app in H. tauto.
Qed.

Lemma scoped_strip s : scoped s -> scoped (strip s).
Proof.
  intros H. unfold strip, lstrip_ws, rstrip_ws.
  apply scoped_dropwhile. unfold scoped. apply Forall_rev.
  apply scoped_dropwhile. apply Forall_rev. exact H.
Qed.

(** The field cleaner does not consult the character database. *)
Lemma clean_field_any_db d1 d2 t : _clean_field d1 t = _clean_field d2 t.
Proof. unfold _clean_field. rewrite !sub_ws. reflexivity. Qed.

Lemma clean_field_scoped d t : scoped t -> scoped (_clean_field d t).
Proof.
  intros H. unfold _clean_field.
  apply scoped_strip. unfold lstrip_chars. apply scoped_dropwhile.
  apply sub_scoped; [repeat constructor |].
  apply scoped_strip. unfold replace_nl, scoped.
  apply Forall_map. eapply Forall_impl; [| exact H].
  intros c Hc; simpl. destruct (c =? NL)%N; auto.
Qed.

Lemma group_get_scoped text m name dflt :
  scoped text -> scoped dflt -> scoped (group_get text m name dflt).
Proof.
  intros Ht Hd. unfold group_get.
  destruct (lookup_cap name (m_caps m)) as [[a b] |]; auto using scoped_slice.
Qed.

Lemma scoped_NA : scoped NA.
Proof. repeat constructor. Qed.

Lemma pre_clean_scoped d t : scoped t -> scoped (_pre_clean_gazette d t).
Proof.
  intros H. unfold _pre_clean_gazette. repeat apply sub_scoped; auto; constructor.
Qed.

Lemma pre_clean_ext t :
  scoped t -> _pre_clean_gazette db t = _pre_clean_gazette latin1 t.
Proof.
  intros H. unfold _pre_clean_gazette.
  rewrite (sub_ext NEW_PAGE [] eq_refl H).
  assert (H1 : scoped (sub latin1 NEW_PAGE [] t)) by (apply sub_scoped; auto; constructor).
  rewrite (sub_ext HIJRI_FOOTER [] eq_refl H1).
  assert (H2 : scoped (sub latin1 HIJRI_FOOTER [] (sub latin1 NEW_PAGE [] t)))
    by (apply sub_scoped; auto; constructor).
  rewrite (sub_ext JOURNAL_BANNER [] eq_refl H2). reflexivity.
Qed.

Lemma find_content_start_ext t :
  scoped t -> _find_content_start db t = _find_content_start latin1 t.
Proof.
  intros H. unfold _find_content_start, split1.
  rewrite (search_ext SOMMAIRE eq_refl H). reflexivity.
Qed.

Lemma find_content_start_scoped d t : scoped t -> scoped (_find_content_start d t).
Proof.
  intros H. unfold _find_content_start, split1.
  destruct (search d SOMMAIRE t); auto using scoped_skipn.
Qed.

Lemma parse_articles_ext t :
  scoped t -> parse_articles db t = parse_articles latin1 t.
Proof.
  intros H. unfold parse_articles.
  rewrite (finditer_ext ARTICLE_PATTERN eq_refl H).
  apply map_ext. intros m.
  rewrite (clean_field_any_db db latin1 (group_get t m "number" [])),
          (clean_field_any_db db latin1 (group_get t m "content" [])).
  reflexivity.
Qed.

Lemma header_match_ext t : scoped t -> header_match db t = header_match latin1 t.
Proof.
  intros H. unfold header_match.
  rewrite (search_ext DOCUMENT_HEADER_PATTERN eq_refl H),
          (search_ext INDIVIDUAL_DECISION_PATTERN eq_refl H).
  reflexivity.
Qed.

Lemma structural_record_ext t :
  scoped t -> structural_record db t = structural_record latin1 t.
Proof.
  intros H. unfold structural_record. rewrite (header_match_ext H).
  destruct (header_match latin1 t) as [[m isind] |]; auto.
  rewrite (parse_articles_ext (scoped_skipn (m_end m) H)).
  rewrite !(clean_field_any_db db latin1). reflexivity.
Qed.

Lemma parse_document_ext t :
  scoped t -> parse_document db t = parse_document latin1 t.
Proof. intros H. unfold parse_document. rewrite (structural_record_ext H). reflexivity. Qed.

Lemma parse_document_scoped d t doc :
  scoped t -> parse_document d t = Some doc -> scoped (document_type doc).
Proof.
  intros H. unfold parse_document, structural_record.
  destruct (header_match d t) as [[m isind] |]; [| discriminate].
  match goal with |- (if ?c then _ else _) = _ -> _ => destruct c; [discriminate |] end.
  intros E; inversion E; subst; simpl.
  apply clean_field_scoped, group_get_scoped; auto using scoped_NA.
Qed.

Lemma starts_ext t : scoped t -> starts db t = starts latin1 t.
Proof.
  intros H. unfold starts. rewrite (finditer_ext DOCUMENT_START_PATTERN eq_refl H).
  reflexivity.
Qed.

Lemma doc_texts_ext t : scoped t -> doc_texts db t = doc_texts latin1 t.
Proof. intros H. unfold doc_texts. rewrite (starts_ext H). reflexivity. Qed.

Lemma doc_texts_scoped d t : scoped t -> Forall scoped (doc_texts d t).
Proof.
  intros H. unfold doc_texts. apply Forall_map, Forall_forall.
  intros se _. apply scoped_slice, H.
Qed.

Lemma parse_segments_ext ts :
  Forall scoped ts -> parse_segments db ts = parse_segments latin1 ts.
Proof.
  induction 1 as [| t ts Ht Hts IH]; simpl; auto.
  rewrite (parse_document_ext Ht), IH. reflexivity.
Qed.

Lemma parse_segments_scoped d ts :
  Forall scoped ts -> Forall (fun doc => scoped (document_type doc)) (parse_segments d ts).
Proof.
  induction 1 as [| t ts Ht Hts IH]; simpl; [constructor |].
  destruct (parse_document d t) as [doc |] eqn:E; auto.
  apply (@parse_document_scoped d t doc Ht) in E.
  destruct (pystr_eqb (official_number doc) NA && is_nil (articles doc)); auto.
  destruct (contains (u "nomination") (title doc) || contains (u "mettant fin") (title doc));
    auto.
Qed.

End TransferParser.

(** On a text in scope, every faithful character database gives the results
    that [latin1] gives. *)
Theorem process_full_gazette_faithful (db : UnicodeDB) (full_text : pystr) :
  faithful db -> scoped full_text ->
  LegalParser.process_full_gazette db full_text
  = LegalParser.process_full_gazette latin1 full_text.
Proof.
  intros F H. unfold LegalParser.process_full_gazette.
  rewrite (pre_clean_ext F H).
  assert (H1 : scoped (LegalParser._pre_clean_gazette latin1 full_text))
    by (apply pre_clean_scoped, H).
  rewrite (find_content_start_ext F H1).
  assert (H2 : scoped (LegalParser._find_content_start latin1
                         (LegalParser._pre_clean_gazette latin1 full_text)))
    by (apply find_content_start_scoped, H1).
  rewrite (starts_ext F H2), (doc_texts_ext F H2).
  rewrite (parse_segments_ext F (doc_texts_scoped latin1 H2)). reflexivity.
Qed.

Theorem structured_data_faithful (db : UnicodeDB) (raw_text : pystr) :
  faithful db -> scoped raw_text ->
  structured_data db raw_text = structured_data latin1 raw_text.
Proof.
  intros F H. unfold structured_data.
  rewrite (process_full_gazette_faithful F H).
  apply map_ext_in. intros doc Hin.
  assert (Hs : scoped (document_type doc)).
  { unfold LegalParser.process_full_gazette in Hin.
    destruct (is_nil (LegalParser.starts latin1 _)); [destruct Hin |].
    revert doc Hin. apply Forall_forall.
    apply parse_segments_scoped, doc_texts_scoped, find_content_start_scoped,
      pre_clean_scoped, H. }
  unfold DocumentClassifier.classify. rewrite (faithful_str_lower F Hs). reflexivity.
Qed.

Lemma latin1_faithful : faithful latin1.
Proof. constructor; reflexivity. Qed.

Lemma scoped_forallb s : forallb in_scope s = true -> scoped s.
Proof. intros H. apply Forall_forall. rewrite forallb_forall in H. exact H. Qed.

Ltac solve_scoped := apply scoped_forallb; vm_compute; reflexivity.

(** ** The classifier *)

Ltac case_contains :=
  repeat match goal with
         | |- context [if contains ?k ?s then _ else _] => destruct (contains k s)
         end.

(** C6: the classifier is a total function of the type string alone; it
    returns the category of the first table entry whose keyword occurs in the
    string, letter case ignored, and "Uncategorized" when none does; the result
    is always in the category vocabulary.  The order of the table decides when
    two keywords occur: "Arrêté portant loi" holds both "arrêté" and "loi", and
    is a "Law". *)
Theorem C6_classifier_total_ordered (db : UnicodeDB) (d : document) :
  DocumentClassifier.classify db d = classify_spec db (document_type d) /\
  In (DocumentClassifier.classify db d) CATEGORIES /\
  (contains_ci latin1 (u "arrêté") (u "Arrêté portant loi") = true /\
   contains_ci latin1 (u "loi") (u "Arrêté portant loi") = true /\
   DocumentClassifier.classify latin1 (typed (u "Arrêté portant loi")) = u "Law" /\
   DocumentClassifier.classify latin1 (typed (u "ARRÊTÉ INTERMINISTÉRIEL")) = u "Order" /\
   DocumentClassifier.classify latin1 (typed (u "Avis")) = u "Uncategorized").
Proof.
  split; [| split].
  - unfold DocumentClassifier.classify, classify_spec, KEYWORD_TABLE, contains_ci.
    cbn [find fst snd]. case_contains; reflexivity.
  - unfold DocumentClassifier.classify, CATEGORIES.
    case_contains; cbn [In]; auto 10.
  - split; [| split; [| split; [| split]]]; by_eval.
Qed.

(** ** The chunker *)

(** C8: a document with N > 0 articles yields N chunks, one per article and
    in article order, with text "Article {number}: {content}" and the article's
    number as source_article_number; a document without articles yields the
    single chunk "{document_type}: {title}" with source_article_number "N/A";
    every chunk carries the document's type, number, date and category; no
    article is filtered out. *)
Theorem C8_chunker (d : document) :
  List.length (DocumentChunker.chunk_document d) = Nat.max 1 (List.length (articles d)) /\
  Forall (provenance_of d) (DocumentChunker.chunk_document d) /\
  (if is_nil (articles d)
   then DocumentChunker.chunk_document d = [title_chunk d]
   else map text (DocumentChunker.chunk_document d) = map article_text (articles d) /\
        map (fun c => source_article_number (chunk_metadata c))
            (DocumentChunker.chunk_document d)
        = map number (articles d)).
Proof.
  unfold DocumentChunker.chunk_document.
  destruct (articles d) as [| a rest] eqn:E.
  - repeat split. repeat constructor.
  - cbn [is_nil]. rewrite length_map, !map_map. repeat split.
    apply Forall_map, Forall_forall. intros x _. repeat split.
Qed.

(** ** Header extraction and validation *)

Section ParserFacts.
Import Re Patterns LegalParser.

Variable db : UnicodeDB.

Lemma search_sound p text m :
  search db p text = Some m -> mobj_ok (p_re p) 0 (List.length text) m.
Proof. unfold search; intros H. apply search_from_sound in H. exact H. Qed.

Lemma lookup_cap_absent name names lo hi caps :
  Forall (cap_ok names lo hi) caps -> ~ In name names -> lookup_cap name caps = None.
Proof.
  induction caps as [| [n sp] rest IH]; intros HF Hn; simpl; auto.
  inversion HF as [| ? ? (Hin & _) HF']; subst; simpl in Hin.
  destruct (String.eqb_spec n name) as [-> |]; [contradiction | auto].
Qed.

Lemma clean_NA : _clean_field db NA = NA.
Proof. apply clean_tidy_id. vm_compute. repeat split; discriminate. Qed.

(** The individual-decision pattern has no group for the official number. *)
Lemma individual_has_no_number text m :
  search db INDIVIDUAL_DECISION_PATTERN text = Some m ->
  group_get text m "number" NA = NA.
Proof.
  intros H. apply search_sound in H. destruct H as (_ & _ & _ & HF).
  unfold group_get. erewrite lookup_cap_absent; eauto.
  vm_compute. intros [H | [H | [H | []]]]; discriminate.
Qed.

Lemma parse_segments_app l1 l2 :
  parse_segments db (l1 ++ l2) = parse_segments db l1 ++ parse_segments db l2.
Proof.
  induction l1 as [| t rest IH]; simpl; auto.
  destruct (parse_document db t) as [d |]; auto.
  destruct (pystr_eqb (official_number d) NA && is_nil (articles d)); [| rewrite IH; auto].
  destruct (contains (u "nomination") (title d) || contains (u "mettant fin") (title d));
    rewrite IH; auto.
Qed.

End ParserFacts.

Lemma starts_with_spec pre : forall s,
  starts_with pre s = true <-> exists b, s = pre ++ b.
Proof.
  induction pre as [| a pre IH]; intros s; simpl.
  - split; auto. intros _. exists s; reflexivity.
  - destruct s as [| c s]; [split; [discriminate | intros (b & H); discriminate] |].
    rewrite andb_true_iff, IH, N.eqb_eq. split.
    + intros (-> & b & ->). exists b; reflexivity.
    + intros (b & H). inversion H; subst. split; eauto.
Qed.

(** [contains] is exact containment of the code points of [sub]: no case
    folding takes place. *)
Lemma contains_spec sub : forall s,
  contains sub s = true <-> exists a b, s = a ++ sub ++ b.
Proof.
  induction s as [| c s IH]; simpl; rewrite orb_true_iff, starts_with_spec.
  - split.
    + intros [(b & H) | H]; [| discriminate]. exists [], b; exact H.
    + intros (a & b & H). left. destruct a; [exists b; exact H |]. discriminate.
  - rewrite IH. split.
    + intros [(b & H) | (a & b & H)].
      * exists [], b; exact H.
      * exists (c :: a), b; simpl; rewrite H; reflexivity.
    + intros (a & b & H). destruct a as [| x a]; simpl in H.
      * left; exists b; exact H.
      * right; inversion H; subst. exists a, b; reflexivity.
Qed.

(** C4: the full-header pattern is tried first and the individual-decision
    pattern only when it fails; the flag is_individual tells that the
    individual-decision pattern supplied the match; when both fail,
    parse_document returns None and the segment is skipped, the remaining
    segments being processed as usual. *)
Theorem C4_header_precedence (db : UnicodeDB) (doc_text : pystr) :
  match Re.search db Patterns.DOCUMENT_HEADER_PATTERN doc_text,
        Re.search db Patterns.INDIVIDUAL_DECISION_PATTERN doc_text with
  | Some m, _ => LegalParser.header_match db doc_text = Some (m, false)
  | None, Some m => LegalParser.header_match db doc_text = Some (m, true)
  | None, None =>
      LegalParser.header_match db doc_text = None /\
      LegalParser.parse_document db doc_text = None /\
      forall rest, LegalParser.parse_segments db (doc_text :: rest)
                   = LegalParser.parse_segments db rest
  end.
Proof.
  unfold LegalParser.parse_document, LegalParser.structural_record.
  cbn [LegalParser.parse_segments].
  unfold LegalParser.parse_document, LegalParser.structural_record,
    LegalParser.header_match.
  destruct (Re.search db Patterns.DOCUMENT_HEADER_PATTERN doc_text); auto.
  destruct (Re.search db Patterns.INDIVIDUAL_DECISION_PATTERN doc_text); auto.
Qed.

(** On [both_headers] both patterns match and the full header wins; on
    [scenario_B] only the individual decision matches; on [no_header] none. *)
Example header_precedence_examples :
  (exists m m', Re.search latin1 Patterns.DOCUMENT_HEADER_PATTERN both_headers = Some m /\
                Re.search latin1 Patterns.INDIVIDUAL_DECISION_PATTERN both_headers = Some m' /\
                LegalParser.header_match latin1 both_headers = Some (m, false)) /\
  (exists m, LegalParser.header_match latin1 scenario_B = Some (m, true)) /\
  LegalParser.parse_document latin1 no_header = None.
Proof.
  split; [| split].
  - do 2 eexists. split; [| split]; vm_compute; reflexivity.
  - eexists. vm_compute; reflexivity.
  - vm_compute; reflexivity.
Qed.

(** C5: a structural record whose cleaned title is "N/A" and which has no
    article is rejected by parse_document, before the allowlist is looked at; a
    record whose number is "N/A" and which has no article is kept only when its
    title contains "nomination" or "mettant fin"; every other record is kept;
    a rejected segment does not disturb the segments around it. *)
Theorem C5_validation (db : UnicodeDB) (doc_text : pystr) (rest : list pystr) :
  match LegalParser.structural_record db doc_text with
  | None =>
      LegalParser.parse_segments db (doc_text :: rest) = LegalParser.parse_segments db rest
  | Some d =>
      if pystr_eqb (title d) NA && is_nil (articles d) then
        LegalParser.parse_document db doc_text = None /\
        LegalParser.parse_segments db (doc_text :: rest) = LegalParser.parse_segments db rest
      else
        LegalParser.parse_document db doc_text = Some d /\
        LegalParser.parse_segments db (doc_text :: rest) =
        if pystr_eqb (official_number d) NA && is_nil (articles d) then
          if contains (u "nomination") (title d) || contains (u "mettant fin") (title d)
          then d :: LegalParser.parse_segments db rest
          else LegalParser.parse_segments db rest
        else d :: LegalParser.parse_segments db rest
  end /\
  forall before after,
    LegalParser.parse_segments db (before ++ doc_text :: after)
    = LegalParser.parse_segments db before
      ++ LegalParser.parse_segments db [doc_text]
      ++ LegalParser.parse_segments db after.
Proof.
  split.
  - cbn [LegalParser.parse_segments]. unfold LegalParser.parse_document.
    destruct (LegalParser.structural_record db doc_text) as [d |]; auto.
    destruct (pystr_eqb (title d) NA && is_nil (articles d)); auto.
  - intros before after.
    rewrite parse_segments_app.
    change (doc_text :: after) with ([doc_text] ++ after).
    rewrite parse_segments_app. reflexivity.
Qed.

(** ** The scenarios *)

(** C9: scenario B is one segment, matched by the individual-decision
    pattern; the pipeline produces the single document [document_B], without
    number and without articles, kept because its title contains "mettant fin";
    chunking gives the single title chunk, whose source_article_number is "N/A".
    In general a document matched in individual-decision mode has "N/A" for
    official number and no article. *)
Theorem C9_individual_decision :
  (forall db : UnicodeDB, faithful db ->
     LegalParser.doc_texts db
       (LegalParser._find_content_start db
          (LegalParser._pre_clean_gazette db scenario_B)) = [scenario_B] /\
     (exists m, LegalParser.header_match db scenario_B = Some (m, true)) /\
     structured_data db scenario_B = [document_B]) /\
  (contains (u "mettant fin") (title document_B) = true /\
   all_chunks [document_B] = [title_chunk document_B] /\
   text (title_chunk document_B)
   = u "Décret présidentiel: mettant fin aux fonctions de M. X." /\
   source_article_number (chunk_metadata (title_chunk document_B)) = u "N/A") /\
  (forall (db : UnicodeDB) (doc_text : pystr) (m : Re.mobj) (d : document),
      LegalParser.header_match db doc_text = Some (m, true) ->
      LegalParser.parse_document db doc_text = Some d ->
      official_number d = NA /\ articles d = []).
Proof.
  split; [| split].
  - intros db F.
    assert (HB : scoped scenario_B) by solve_scoped.
    assert (H1 : scoped (LegalParser._pre_clean_gazette latin1 scenario_B))
      by (apply pre_clean_scoped, HB).
    assert (H2 : scoped (LegalParser._find_content_start latin1
                           (LegalParser._pre_clean_gazette latin1 scenario_B)))
      by (apply find_content_start_scoped, H1).
    rewrite (pre_clean_ext F HB), (find_content_start_ext F H1), (doc_texts_ext F H2),
      (header_match_ext F HB), (structured_data_faithful F HB).
    split; [by_eval |]. split; [eexists; by_eval | by_eval].
  - split; [by_eval |]. split; [by_eval |]. split; by_eval.
  - intros db doc_text m d Hm Hd.
    assert (Hi : Re.search db Patterns.INDIVIDUAL_DECISION_PATTERN doc_text = Some m).
    { unfold LegalParser.header_match in Hm.
      destruct (Re.search db Patterns.DOCUMENT_HEADER_PATTERN doc_text); [discriminate |].
      destruct (Re.search db Patterns.INDIVIDUAL_DECISION_PATTERN doc_text);
        [| discriminate].
      inversion Hm; reflexivity. }
    unfold LegalParser.parse_document, LegalParser.structural_record in Hd.
    rewrite Hm in Hd.
    rewrite (individual_has_no_number db doc_text Hi), clean_NA in Hd.
    match type of Hd with
    | (if ?c then _ else _) = _ => destruct c; [discriminate |]
    end.
    inversion Hd; subst d; simpl. split; reflexivity.
Qed.

Lemma C9_individual_decision_witness :
  structured_data latin1 scenario_B = [document_B] /\
  exists m d,
    LegalParser.header_match latin1 scenario_B = Some (m, true) /\
    LegalParser.parse_document latin1 scenario_B = Some d /\
    official_number d = NA /\ articles d = [].
Proof.
  split.
  - apply (proj1 C9_individual_decision latin1). constructor; reflexivity.
  - eexists. eexists.
    assert (Hm : LegalParser.header_match latin1 scenario_B
                 = Some ({| Re.m_start := 0; Re.m_end := 69;
                            Re.m_caps := [("title", (35, 69)); ("date", (23, 34));
                                          ("type", (0, 19))] |}, true))
      by by_eval.
    assert (Hd : LegalParser.parse_document latin1 scenario_B
                 = Some {| document_type := u "Décret présidentiel";
                           official_number := NA;
                           date := u "3 mars 2024";
                           title := u "mettant fin aux fonctions de M. X.";
                           articles := [];
                           category := None |})
      by by_eval.
    split; [exact Hm |]. split; [exact Hd |].
    exact (proj2 (proj2 C9_individual_decision) latin1 scenario_B _ _ Hm Hd).
Defined.

(** C10: the allowlist compares code points exactly.  A parsed document
    without number and without articles is kept exactly when "nomination" or
    "mettant fin" occurs in its title, [contains] being plain containment of the
    code points; in [scenario_B_upper] the individual-decision pattern matches
    (it ignores case), parse_document returns [document_B_upper], whose title
    holds neither phrase in lower case, and the document is dropped from the
    output. *)
Theorem C10_allowlist_case_sensitive :
  (forall (db : UnicodeDB) (doc_text : pystr) (rest : list pystr) (d : document),
      LegalParser.parse_document db doc_text = Some d ->
      official_number d = NA -> articles d = [] ->
      LegalParser.parse_segments db (doc_text :: rest)
      = if contains (u "nomination") (title d) || contains (u "mettant fin") (title d)
        then d :: LegalParser.parse_segments db rest
        else LegalParser.parse_segments db rest) /\
  (forall sub s : pystr, contains sub s = true <-> exists a b, s = a ++ sub ++ b) /\
  (contains (u "nomination") (title document_B_upper) = false /\
   contains (u "mettant fin") (title document_B_upper) = false) /\
  (forall db : UnicodeDB, faithful db ->
     (exists m, Re.search db Patterns.INDIVIDUAL_DECISION_PATTERN scenario_B_upper = Some m) /\
     LegalParser.parse_document db scenario_B_upper = Some document_B_upper /\
     LegalParser.process_full_gazette db scenario_B_upper = []).
Proof.
  split; [| split; [| split]].
  - intros db doc_text rest d Hd Hn Ha.
    cbn [LegalParser.parse_segments]. rewrite Hd, Hn, Ha.
    replace (pystr_eqb NA NA) with true by by_eval.
    reflexivity.
  - intros sub s. apply contains_spec.
  - split; by_eval.
  - intros db F.
    assert (HB : scoped scenario_B_upper) by solve_scoped.
    rewrite (search_ext F Patterns.INDIVIDUAL_DECISION_PATTERN eq_refl HB),
      (parse_document_ext F HB), (process_full_gazette_faithful F HB).
    split; [eexists; by_eval |]. split; by_eval.
Qed.

Lemma C10_allowlist_case_sensitive_witness :
  LegalParser.parse_document latin1 scenario_B_upper = Some document_B_upper /\
  LegalParser.parse_segments latin1 [scenario_B_upper] = [] /\
  LegalParser.process_full_gazette latin1 scenario_B_upper = [].
Proof.
  assert (Hd : LegalParser.parse_document latin1 scenario_B_upper = Some document_B_upper)
    by by_eval.
  split; [exact Hd |]. split.
  - exact (proj1 C10_allowlist_case_sensitive latin1 scenario_B_upper []
             document_B_upper Hd eq_refl eq_refl).
  - apply (proj2 (proj2 (proj2 C10_allowlist_case_sensitive)) latin1).
    constructor; reflexivity.
Defined.

(** ** Articles are read after the header *)

Lemma slice_skipn (off a b : nat) (s : pystr) :
  slice a b (skipn off s) = slice (off + a) (off + b) s.
Proof.
  unfold slice. rewrite skipn_skipn.
  replace (off + b - (off + a)) with (b - a) by lia.
  replace (a + off) with (off + a) by lia. reflexivity.
Qed.

(** C3: when the full-header pattern matches a segment at [m], the articles
    of the document are the cleaned groups of the article matches found in the
    text after the end offset of [m]: every article match, and every group it
    captured (number, content), is a span of the segment that starts at or
    after that offset. *)
Theorem C3_articles_after_header (db : UnicodeDB) (doc_text : pystr) (m : Re.mobj) :
  Re.search db Patterns.DOCUMENT_HEADER_PATTERN doc_text = Some m ->
  let off := Re.m_end m in
  off <= List.length doc_text /\
  LegalParser.header_match db doc_text = Some (m, false) /\
  (forall d, LegalParser.structural_record db doc_text = Some d ->
             articles d
             = map (fun am =>
                      {| number := LegalParser._clean_field db
                                     (Re.group_get (skipn off doc_text) am "number" []);
                         content := LegalParser._clean_field db
                                      (Re.group_get (skipn off doc_text) am "content" []) |})
                   (Re.finditer db Patterns.ARTICLE_PATTERN (skipn off doc_text))) /\
  Forall (fun am =>
            span_after doc_text off (Re.m_start am, Re.m_end am) /\
            Forall (fun c => span_after doc_text off (snd c)) (Re.m_caps am))
         (Re.finditer db Patterns.ARTICLE_PATTERN (skipn off doc_text)).
Proof.
  intros H off.
  assert (Hoff : off <= List.length doc_text)
    by (apply search_sound in H; destruct H as (_ & _ & H3 & _); exact H3).
  assert (Hm : LegalParser.header_match db doc_text = Some (m, false))
    by (unfold LegalParser.header_match; rewrite H; reflexivity).
  split; [exact Hoff |]. split; [exact Hm |]. split.
  - intros d Hd. unfold LegalParser.structural_record in Hd. rewrite Hm in Hd.
    inversion Hd; reflexivity.
  - unfold Re.finditer.
    assert (Hmin : 0 < Re.minlen (Re.p_re Patterns.ARTICLE_PATTERN)) by (vm_compute; lia).
    destruct (@finditer_from_sound db (Re.p_flags Patterns.ARTICLE_PATTERN) _ Hmin
                (skipn off doc_text) 0 0 None) as [HF _].
    eapply Forall_impl; [| exact HF].
    intros am (_ & H2 & H3 & H4). simpl in H3. rewrite length_skipn in H3.
    assert (Hspan : forall a b, a <= b -> b <= List.length doc_text - off ->
                                span_after doc_text off (a, b)).
    { intros a b Hab Hb. unfold span_after; simpl.
      repeat split; try lia. apply slice_skipn. }
    split; [apply Hspan; lia |].
    eapply Forall_impl; [| exact H4].
    intros [n [a b]] (_ & _ & Hab & Hb). simpl in *. rewrite length_skipn in Hb.
    apply Hspan; lia.
Qed.

Lemma C3_articles_after_header_witness :
  exists m,
    Re.search latin1 Patterns.DOCUMENT_HEADER_PATTERN doc_with_articles = Some m /\
    Re.m_end m = 80 /\
    map number (LegalParser.parse_articles latin1 (skipn 80 doc_with_articles))
    = [u "1er"; u "2"] /\
    Forall (fun am =>
              span_after doc_with_articles 80 (Re.m_start am, Re.m_end am) /\
              Forall (fun c => span_after doc_with_articles 80 (snd c)) (Re.m_caps am))
           (Re.finditer latin1 Patterns.ARTICLE_PATTERN (skipn 80 doc_with_articles)).
Proof.
  eexists.
  assert (H : Re.search latin1 Patterns.DOCUMENT_HEADER_PATTERN doc_with_articles
              = Some {| Re.m_start := 0; Re.m_end := 80;
                        Re.m_caps := [("title", (53, 80)); ("date", (29, 44));
                                      ("number", (19, 25)); ("type", (0, 15))] |})
    by (vm_compute; reflexivity).
  split; [exact H |]. split; [reflexivity |].
  split; [vm_compute; reflexivity |].
  exact (proj2 (proj2 (proj2 (C3_articles_after_header latin1 doc_with_articles H)))).
Defined.

(** ** Scenario A *)

(** C1 on the code: for scenario A the pipeline returns one document whose
    header fields and category are those of the claim, but the article pattern
    asks for a period right after "Article" and finds nothing in the body, so
    the document has no article and chunking yields the single title chunk.
    The same text with its articles headed "Art." yields the two articles
    "1er" and "2". *)
Theorem C1_scenario_A_on_the_code (db : UnicodeDB) :
  faithful db ->
  structured_data db scenario_A = [document_A] /\
  Re.finditer db Patterns.ARTICLE_PATTERN block_A = [] /\
  map text (all_chunks (structured_data db scenario_A))
  = [u "Décret exécutif: création d'un établissement"] /\
  map (fun d => map number (articles d))
      (LegalParser.process_full_gazette db scenario_A_abbrev)
  = [[u "1er"; u "2"]].
Proof.
  intros F.
  assert (HA : scoped scenario_A) by solve_scoped.
  assert (HA' : scoped scenario_A_abbrev) by solve_scoped.
  assert (Hb : scoped block_A) by solve_scoped.
  rewrite (structured_data_faithful F HA), (process_full_gazette_faithful F HA'),
    (finditer_ext F Patterns.ARTICLE_PATTERN eq_refl Hb).
  split; [| split; [| split]]; by_eval.
Qed.

Lemma C1_scenario_A_on_the_code_witness :
  structured_data latin1 scenario_A = [document_A] /\
  List.length (all_chunks (structured_data latin1 scenario_A)) = 1.
Proof.
  assert (F : faithful latin1) by (constructor; reflexivity).
  destruct (C1_scenario_A_on_the_code F) as (H1 & _ & H3 & _).
  split; [exact H1 |].
  rewrite <- (length_map text), H3. reflexivity.
Defined.

(** * Further properties of the code *)

(** ** The validator and the cleaner on the output *)

Lemma pystr_eqb_eq a b : pystr_eqb a b = true <-> a = b.
Proof.
  unfold pystr_eqb. destruct (list_eq_dec N.eq_dec a b); split; auto; discriminate.
Qed.

Lemma pystr_eqb_neq a b : pystr_eqb a b = false <-> a <> b.
Proof.
  unfold pystr_eqb. destruct (list_eq_dec N.eq_dec a b); split; auto;
    [discriminate | contradiction].
Qed.

Lemma is_nil_false {A} (l : list A) : is_nil l = false <-> l <> [].
Proof. destruct l; simpl; split; auto; try discriminate. intros H; contradiction. Qed.

Section OutputFacts.
Import Re Patterns LegalParser.

Variable db : UnicodeDB.

Lemma parse_articles_tidy t : Forall tidy_article (parse_articles db t).
Proof.
  unfold parse_articles. apply Forall_map, Forall_forall. intros m _.
  split; apply clean_is_tidy.
Qed.

Lemma structural_record_tidy t d : structural_record db t = Some d -> tidy_document d.
Proof.
  unfold structural_record. destruct (header_match db t) as [[m isind] |]; [| discriminate].
  intros E; inversion E; subst; clear E. unfold tidy_document; simpl.
  repeat (split; [apply clean_is_tidy |]).
  destruct isind; [constructor | apply parse_articles_tidy].
Qed.

Lemma parse_document_some t d :
  parse_document db t = Some d ->
  structural_record db t = Some d /\ category d = None /\
  (title d <> NA \/ articles d <> []).
Proof.
  unfold parse_document. destruct (structural_record db t) as [d' |] eqn:E; [| discriminate].
  destruct (pystr_eqb (title d') NA && is_nil (articles d')) eqn:Ev; [discriminate |].
  intros H; inversion H; subst d'. split; auto. split.
  - unfold structural_record in E.
    destruct (header_match db t) as [[m isind] |]; [| discriminate].
    inversion E; reflexivity.
  - apply andb_false_iff in Ev. destruct Ev as [Ev | Ev].
    + left. apply pystr_eqb_neq, Ev.
    + right. apply is_nil_false, Ev.
Qed.

Lemma parse_segments_inv (P : document -> Prop) ts :
  (forall t d, In t ts -> parse_document db t = Some d ->
               (official_number d <> NA \/ articles d <> [] \/
                contains (u "nomination") (title d) = true \/
                contains (u "mettant fin") (title d) = true) -> P d) ->
  Forall P (parse_segments db ts).
Proof.
  induction ts as [| t ts IH]; intros H; simpl; [constructor |].
  assert (IH' : Forall P (parse_segments db ts))
    by (apply IH; intros t' d Hin; apply H; right; exact Hin).
  destruct (parse_document db t) as [d |] eqn:E; auto.
  destruct (pystr_eqb (official_number d) NA && is_nil (articles d)) eqn:Ev.
  - destruct (contains (u "nomination") (title d)) eqn:E1;
      [| destruct (contains (u "mettant fin") (title d)) eqn:E2]; simpl; auto;
      constructor; auto; apply (H t d); simpl; auto.
  - constructor; auto. apply (H t d); simpl; auto.
    apply andb_false_iff in Ev. destruct Ev as [Ev | Ev].
    + left. apply pystr_eqb_neq, Ev.
    + right; left. apply is_nil_false, Ev.
Qed.

Lemma process_full_gazette_inv (P : document -> Prop) text :
  (forall t d, parse_document db t = Some d ->
               (official_number d <> NA \/ articles d <> [] \/
                contains (u "nomination") (title d) = true \/
                contains (u "mettant fin") (title d) = true) -> P d) ->
  Forall P (process_full_gazette db text).
Proof.
  intros H. unfold process_full_gazette.
  destruct (is_nil (starts db _)); [constructor |].
  apply parse_segments_inv. intros t d _. apply H.
Qed.

End OutputFacts.

(** X1: every document returned by process_full_gazette has passed both
    validation steps: it has a title other than "N/A" or at least one article,
    and it has an official number other than "N/A", or an article, or a title
    that contains "nomination" or "mettant fin"; it carries no category yet. *)
Theorem X1_output_is_validated (db : UnicodeDB) (full_text : pystr) :
  Forall (fun d => validated d /\ category d = None)
         (LegalParser.process_full_gazette db full_text).
Proof.
  apply process_full_gazette_inv. intros t d Hd Hk.
  destruct (parse_document_some db t Hd) as (_ & Hc & Ht).
  split; [split |]; auto.
Qed.

Lemma process_full_gazette_tidy db full_text :
  Forall tidy_document (LegalParser.process_full_gazette db full_text).
Proof.
  apply process_full_gazette_inv. intros t d Hd _.
  destruct (parse_document_some db t Hd) as (Hs & _).
  eapply structural_record_tidy; eauto.
Qed.

(** X2: every field of every document returned by process_full_gazette, and
    the number and content of each of its articles, is in cleaned form:
    whitespace occurs only as single spaces between other characters (so no
    line break), and the field does not start with a period, a dash or a
    space. *)
Theorem X2_output_fields_are_tidy (db : UnicodeDB) (full_text : pystr) :
  Forall tidy_document (LegalParser.process_full_gazette db full_text).
Proof. apply process_full_gazette_tidy. Qed.

(** ** Order and size of the output *)

Lemma Subseq_length {A} (l1 l2 : list A) : Subseq l1 l2 -> List.length l1 <= List.length l2.
Proof. induction 1; simpl; lia. Qed.

Lemma Subseq_refl {A} (l : list A) : Subseq l l.
Proof. induction l; [apply Subseq_nil | apply Subseq_keep; auto]. Qed.

Lemma Subseq_trans {A} (l1 l2 l3 : list A) : Subseq l1 l2 -> Subseq l2 l3 -> Subseq l1 l3.
Proof.
  intros H12 H23. revert l1 H12.
  induction H23 as [| x l2 l3 H IH | x l2 l3 H IH]; intros l1 H12; auto.
  - apply Subseq_skip; auto.
  - inversion H12; subst; [apply Subseq_skip | apply Subseq_keep]; auto.
Qed.

Lemma Subseq_app {A} (a1 a2 b1 b2 : list A) :
  Subseq a1 a2 -> Subseq b1 b2 -> Subseq (a1 ++ b1) (a2 ++ b2).
Proof.
  induction 1 as [| x l1 l2 H IH | x l1 l2 H IH]; simpl; intros Hb; auto;
    [apply Subseq_skip | apply Subseq_keep]; auto.
Qed.

Lemma Subseq_nil_l {A} (l : list A) : Subseq [] l.
Proof. induction l; [apply Subseq_nil | apply Subseq_skip; auto]. Qed.

Lemma Subseq_skipn {A} n (l : list A) : Subseq (skipn n l) l.
Proof.
  revert n; induction l as [| x l IH]; intros [| n]; simpl;
    try apply Subseq_refl. apply Subseq_skip; auto.
Qed.

Lemma Subseq_In {A} (l1 l2 : list A) x : Subseq l1 l2 -> In x l1 -> In x l2.
Proof. induction 1; simpl; auto. intros [-> | H']; auto. Qed.

Lemma parse_segments_subseq db ts :
  Subseq (map Some (LegalParser.parse_segments db ts))
         (map (LegalParser.parse_document db) ts).
Proof.
  induction ts as [| t ts IH]; simpl; [apply Subseq_nil |].
  destruct (LegalParser.parse_document db t) as [d |]; [| apply Subseq_skip; auto].
  destruct (pystr_eqb (official_number d) NA && is_nil (articles d)).
  - destruct (contains (u "nomination") (title d) || contains (u "mettant fin") (title d));
      simpl; [apply Subseq_keep | apply Subseq_skip]; auto.
  - simpl; apply Subseq_keep; auto.
Qed.

(** X3: the documents come out in the order of the segments, at most one per
    segment, each being what parse_document returns for its segment; so there
    are never more documents than act boundaries in the content. *)
Theorem X3_documents_follow_segments (db : UnicodeDB) (full_text : pystr) :
  let main_content :=
    LegalParser._find_content_start db (LegalParser._pre_clean_gazette db full_text) in
  Subseq (map Some (LegalParser.process_full_gazette db full_text))
         (map (LegalParser.parse_document db) (LegalParser.doc_texts db main_content)) /\
  List.length (LegalParser.process_full_gazette db full_text)
  <= List.length (LegalParser.starts db main_content).
Proof.
  intros main_content.
  assert (H : Subseq (map Some (LegalParser.process_full_gazette db full_text))
                     (map (LegalParser.parse_document db)
                          (LegalParser.doc_texts db main_content))).
  { unfold LegalParser.process_full_gazette. fold main_content.
    destruct (is_nil (LegalParser.starts db main_content)); [apply Subseq_nil_l |].
    apply parse_segments_subseq. }
  split; [exact H |].
  apply Subseq_length in H. rewrite !length_map in H.
  unfold LegalParser.doc_texts in H. rewrite length_map in H.
  assert (Hb : forall ss n, List.length (LegalParser.segment_bounds ss n) = List.length ss)
    by (induction ss; simpl; auto).
  rewrite Hb in H. exact H.
Qed.

(** ** The text normalizer and the content locator *)

Lemma sub_from_delete d fl r l : forall skip pos prev,
  Subseq (Re.sub_from d fl r [] skip pos prev l) l.
Proof.
  induction l as [| c t IH]; intros skip pos prev.
  - destruct skip; simpl; [| apply Subseq_nil].
    destruct (Re.match_at d fl r false pos prev []) as [m |]; [| apply Subseq_nil].
    simpl. destruct (Nat.eqb (Re.m_end m) pos); [| apply Subseq_nil].
    destruct (Re.match_at d fl r true pos prev []); apply Subseq_nil.
  - destruct skip; simpl; [| apply Subseq_skip, IH].
    destruct (Re.match_at d fl r false pos prev (c :: t)) as [m |];
      [| apply Subseq_keep, IH].
    simpl. destruct (Nat.eqb (Re.m_end m) pos); [| apply Subseq_skip, IH].
    destruct (Re.match_at d fl r true pos prev (c :: t)); simpl;
      [apply Subseq_skip | apply Subseq_keep]; apply IH.
Qed.

(** X4: _pre_clean_gazette only deletes: its result is the input with some
    characters left out, in the same order, and is never longer than the
    input. *)
Theorem X4_pre_clean_only_deletes (db : UnicodeDB) (text : pystr) :
  Subseq (LegalParser._pre_clean_gazette db text) text /\
  List.length (LegalParser._pre_clean_gazette db text) <= List.length text.
Proof.
  assert (H : Subseq (LegalParser._pre_clean_gazette db text) text).
  { unfold LegalParser._pre_clean_gazette, Re.sub.
    eapply Subseq_trans; [apply sub_from_delete |].
    eapply Subseq_trans; [apply sub_from_delete |].
    apply sub_from_delete. }
  split; [exact H | apply Subseq_length, H].
Qed.

(** ** The shape of a cleaned field *)

Lemma spaced_forall l : spaced l -> Forall (fun c => isspace c = true -> c = SP) l.
Proof.
  induction l as [| c t IH]; simpl; constructor.
  - intros E. apply H in E. tauto.
  - apply IH. tauto.
Qed.

Lemma dropwhile_length p l : List.length (dropwhile p l) <= List.length l.
Proof.
  destruct (dropwhile_suffix p l) as (w & Hw).
  rewrite Hw at 2. rewrite length_app. lia.
Qed.

Lemma strip_length l : List.length (LegalParser.strip l) <= List.length l.
Proof.
  unfold LegalParser.strip, LegalParser.lstrip_ws, LegalParser.rstrip_ws.
  etransitivity; [apply dropwhile_length |].
  rewrite length_rev. etransitivity; [apply dropwhile_length |].
  rewrite length_rev. lia.
Qed.

Lemma collapse_length l b : List.length (collapse b l) <= List.length l.
Proof.
  revert b; induction l as [| c t IH]; intros b; simpl; auto.
  pose proof (IH true). pose proof (IH false).
  destruct (isspace c); [destruct b |]; simpl; lia.
Qed.

Lemma Forall_dropwhile (P : char -> Prop) p l : Forall P l -> Forall P (dropwhile p l).
Proof.
  intros H. destruct (dropwhile_suffix p l) as (w & Hw).
  rewrite Hw in H. apply Forall_app in H. tauto.
Qed.

Lemma Forall_strip (P : char -> Prop) l : Forall P l -> Forall P (LegalParser.strip l).
Proof.
  intros H. unfold LegalParser.strip, LegalParser.lstrip_ws, LegalParser.rstrip_ws.
  apply Forall_dropwhile, Forall_rev, Forall_dropwhile, Forall_rev, H.
Qed.

Lemma collapse_markers l b :
  Forall (fun c => isspace c = true \/ is_marker c = true) l ->
  Forall (fun c => is_marker c = true) (collapse b l).
Proof.
  revert b; induction l as [| c t IH]; intros b H; simpl; [constructor |].
  inversion H as [| ? ? Hc Ht]; subst.
  destruct (isspace c) eqn:E.
  - destruct b; [apply IH; auto | constructor; [reflexivity | apply IH; auto]].
  - constructor; [destruct Hc; [discriminate | auto] | apply IH; auto].
Qed.

Lemma dropwhile_all p l : Forall (fun c => p c = true) l -> dropwhile p l = [].
Proof. induction 1 as [| c t Hc Ht IH]; simpl; auto. rewrite Hc; exact IH. Qed.

(** X5: the strings the field cleaner leaves unchanged are exactly the tidy
    ones; a cleaned field never contains a line break, is never longer than
    the captured text, and is empty when the captured text consists only of
    whitespace, periods and dashes. *)
Theorem X5_clean_field_shape (db : UnicodeDB) (s : pystr) :
  (LegalParser._clean_field db s = s <-> tidy s) /\
  ~ In NL (LegalParser._clean_field db s) /\
  List.length (LegalParser._clean_field db s) <= List.length s /\
  (Forall (fun c => isspace c = true \/ is_marker c = true) s ->
   LegalParser._clean_field db s = []).
Proof.
  split; [| split; [| split]].
  - split; [intros <-; apply clean_is_tidy | apply clean_tidy_id].
  - intros Hin. destruct (clean_is_tidy db s) as (Hs & _).
    apply spaced_forall in Hs. rewrite Forall_forall in Hs.
    specialize (Hs NL Hin eq_refl). discriminate.
  - unfold LegalParser._clean_field. rewrite sub_ws.
    etransitivity; [apply strip_length |].
    unfold LegalParser.lstrip_chars.
    etransitivity; [apply dropwhile_length |].
    etransitivity; [apply collapse_length |].
    etransitivity; [apply strip_length |].
    unfold LegalParser.replace_nl. rewrite length_map. apply Nat.le_refl.
  - intros H. unfold LegalParser._clean_field. rewrite sub_ws.
    unfold LegalParser.lstrip_chars. fold is_marker.
    rewrite dropwhile_all; [reflexivity |].
    apply collapse_markers, Forall_strip.
    unfold LegalParser.replace_nl. apply Forall_map.
    eapply Forall_impl; [| exact H]. intros c Hc; simpl.
    destruct (N.eqb_spec c NL); auto.
Qed.

Lemma X5_clean_field_shape_witness :
  LegalParser._clean_field latin1 (unlines [" .- -"; ". "]) = [].
Proof.
  apply (proj2 (proj2 (proj2 (X5_clean_field_shape latin1 (unlines [" .- -"; ". "]))))).
  repeat (constructor; [first [left; reflexivity | right; reflexivity] |]).
  constructor.
Defined.

(** ** Chunks of a list of documents *)

Lemma chunk_document_length d :
  List.length (DocumentChunker.chunk_document d) = Nat.max 1 (List.length (articles d)).
Proof.
  unfold DocumentChunker.chunk_document. destruct (articles d); simpl; auto.
  rewrite length_map. reflexivity.
Qed.

(** X6: chunking a list of documents yields max(1, number of articles)
    chunks per document, so at least one chunk per document: the list of chunks
    is empty only when there is no document at all. *)
Theorem X6_chunk_count (docs : list document) :
  List.length (all_chunks docs)
  = list_sum (map (fun d => Nat.max 1 (List.length (articles d))) docs) /\
  List.length docs <= List.length (all_chunks docs) /\
  (all_chunks docs = [] <-> docs = []).
Proof.
  assert (H1 : List.length (all_chunks docs)
               = list_sum (map (fun d => Nat.max 1 (List.length (articles d))) docs)).
  { unfold all_chunks. induction docs as [| d docs IH]; [reflexivity |].
    cbn [flat_map map list_sum fold_right].
    rewrite length_app, chunk_document_length, IH. reflexivity. }
  assert (H2 : List.length docs <= List.length (all_chunks docs)).
  { rewrite H1. clear H1. induction docs as [| d docs IH]; [apply Nat.le_refl |].
    cbn [map list_sum fold_right List.length].
    pose proof (Nat.le_max_l 1 (List.length (articles d))). unfold list_sum in IH. lia. }
  split; [exact H1 |]. split; [exact H2 |]. split.
  - intros E. rewrite E in H2. destruct docs; [reflexivity | simpl in H2; lia].
  - intros ->. reflexivity.
Qed.

Lemma classify_in_categories db d : In (DocumentClassifier.classify db d) CATEGORIES.
Proof.
  unfold DocumentClassifier.classify, CATEGORIES.
  case_contains; cbn [In]; auto 10.
Qed.

(** X7: every chunk of the pipeline (parsing, classification, chunking)
    belongs to one document of the classified output: it carries that
    document's type, number and date, its category is the one the classifier
    gives to the document and is one of the seven category names, and it is
    either the title chunk of a document without articles or the chunk of one
    of the document's articles. *)
Theorem X7_chunk_provenance (db : UnicodeDB) (raw_text : pystr) :
  Forall (fun c =>
            exists d, In d (structured_data db raw_text) /\
                      provenance_of d c /\
                      source_category (chunk_metadata c)
                      = Some (DocumentClassifier.classify db d) /\
                      In (DocumentClassifier.classify db d) CATEGORIES /\
                      ((articles d = [] /\ c = title_chunk d) \/
                       (exists a, In a (articles d) /\
                                  text c = article_text a /\
                                  source_article_number (chunk_metadata c) = number a)))
         (all_chunks (structured_data db raw_text)).
Proof.
  apply Forall_forall. intros c Hc.
  unfold all_chunks in Hc. apply in_flat_map in Hc. destruct Hc as (d & Hd & Hc).
  exists d. split; [exact Hd |].
  assert (Hcat : category d = Some (DocumentClassifier.classify db d)).
  { unfold structured_data in Hd. apply in_map_iff in Hd.
    destruct Hd as (d0 & <- & _). reflexivity. }
  unfold DocumentChunker.chunk_document in Hc.
  destruct (articles d) as [| a0 rest] eqn:Ea.
  - destruct Hc as [<- | []]. repeat split; auto.
    apply classify_in_categories.
  - apply in_map_iff in Hc. destruct Hc as (a & <- & Ha).
    repeat split; auto.
    + apply classify_in_categories.
    + right. exists a. repeat split; auto.
Qed.

(** ** What a successful match tells about the text *)

Section MatchFacts.
Import Re.

Variable db : UnicodeDB.
Variable fl : flags.

Lemma star_greedy_matches g p k caps l : forall pos prev res,
  star_greedy (single_ok db fl p) k caps pos prev l = Some res ->
  exists s', matches db fl (Star g p) (mk pos prev l caps) s' /\ k s' = Some res.
Proof.
  induction l as [| c t IH]; intros pos prev res H; simpl in H.
  - eexists; split; [apply M_Star0 | exact H].
  - destruct (single_ok db fl p c) eqn:Ec.
    + destruct (star_greedy (single_ok db fl p) k caps (S pos) (Some c) t) as [r |] eqn:E.
      * inversion H; subst r. destruct (IH _ _ _ E) as (s' & Hm & Hk).
        exists s'; split; auto.
        apply (@M_StarS db fl g p (mk pos prev (c :: t) caps) c t s'); simpl; auto.
      * eexists; split; [apply M_Star0 | exact H].
    + eexists; split; [apply M_Star0 | exact H].
Qed.

Lemma star_lazy_matches g p k caps l : forall pos prev res,
  star_lazy (single_ok db fl p) k caps pos prev l = Some res ->
  exists s', matches db fl (Star g p) (mk pos prev l caps) s' /\ k s' = Some res.
Proof.
  induction l as [| c t IH]; intros pos prev res H; simpl in H.
  - destruct (k (mk pos prev [] caps)) eqn:E; [| discriminate].
    eexists; split; [apply M_Star0 | rewrite E; exact H].
  - destruct (k (mk pos prev (c :: t) caps)) eqn:E.
    + eexists; split; [apply M_Star0 | rewrite E; exact H].
    + destruct (single_ok db fl p c) eqn:Ec; [| discriminate].
      destruct (IH _ _ _ H) as (s' & Hm & Hk).
      exists s'; split; auto.
      apply (@M_StarS db fl g p (mk pos prev (c :: t) caps) c t s'); simpl; auto.
Qed.

(** The matcher only finds what the declarative reading allows. *)
Lemma rmatch_matches r : forall k s res,
  rmatch db fl r k s = Some res ->
  exists s', matches db fl r s s' /\ k s' = Some res.
Proof.
  induction r as [| p | a IHa b IHb | a IHa b IHb | g p | name a IHa | a IHa | |];
    intros k s res H; simpl in H.
  - exists s; split; [constructor | exact H].
  - destruct (st_rest s) as [| c t] eqn:Er; [discriminate |].
    destruct (single_ok db fl p c) eqn:Ec; [| discriminate].
    eexists; split; [apply M_One; eauto | exact H].
  - apply IHa in H. destruct H as (s1 & M1 & H).
    apply IHb in H. destruct H as (s2 & M2 & H).
    exists s2; split; [econstructor; eauto | exact H].
  - destruct (rmatch db fl a k s) as [r' |] eqn:E.
    + inversion H; subst r'. apply IHa in E. destruct E as (s1 & M1 & E).
      exists s1; split; [apply M_AltL; auto | exact E].
    + apply IHb in H. destruct H as (s1 & M1 & H).
      exists s1; split; [apply M_AltR; auto | exact H].
  - destruct g; [apply (star_greedy_matches true) in H | apply (star_lazy_matches false) in H];
      rewrite mk_eta in H; exact H.
  - apply IHa in H. destruct H as (s1 & M1 & H).
    eexists; split; [apply M_Group; eauto | exact H].
  - destruct (rmatch db fl a Some s) as [s1 |] eqn:E; [| discriminate].
    apply IHa in E. destruct E as (s2 & M2 & E). inversion E; subst s2.
    eexists; split; [apply M_Look; eauto | exact H].
  - destruct (at_bol fl s) eqn:E; [| discriminate].
    exists s; split; [apply M_Bol; auto | exact H].
  - destruct (at_eol fl s) eqn:E; [| discriminate].
    exists s; split; [apply M_Eol; auto | exact H].
Qed.

Lemma match_at_matches r ma pos prev l m :
  match_at db fl r ma pos prev l = Some m ->
  exists s', matches db fl r (mk pos prev l []) s' /\
             m_start m = pos /\ m_end m = st_pos s' /\ m_caps m = st_caps s'.
Proof.
  unfold match_at. intros H.
  destruct (rmatch db fl r _ (mk pos prev l [])) as [s |] eqn:E; [| discriminate].
  inversion H; subst m; clear H; simpl.
  apply rmatch_matches in E. destruct E as (s' & Hm & Hk).
  destruct (ma && Nat.eqb (st_pos s') pos); [discriminate |].
  inversion Hk; subst s'. exists s; auto.
Qed.

(** Inversion of the declarative reading. *)
Lemma matches_seq_inv a b s s2 :
  matches db fl (Seq a b) s s2 ->
  exists s1, matches db fl a s s1 /\ matches db fl b s1 s2.
Proof. intros H; inversion H; subst; eauto. Qed.

Lemma matches_alt_inv a b s s' :
  matches db fl (Alt a b) s s' -> matches db fl a s s' \/ matches db fl b s s'.
Proof. intros H; inversion H; subst; auto. Qed.

Lemma matches_one_inv p s s' :
  matches db fl (One p) s s' ->
  exists c, st_rest s = c :: st_rest s' /\ single_ok db fl p c = true /\
            st_pos s' = S (st_pos s) /\ st_caps s' = st_caps s.
Proof. intros H; inversion H; subst; simpl; eauto. Qed.

Lemma matches_look_inv a s s' :
  matches db fl (Look a) s s' ->
  st_rest s' = st_rest s /\ st_pos s' = st_pos s /\
  exists s'', matches db fl a s s''.
Proof. intros H; inversion H; subst; simpl; eauto. Qed.

Lemma matches_group_inv name a s s' :
  matches db fl (Group name a) s s' ->
  exists s1, matches db fl a s s1 /\ st_rest s' = st_rest s1 /\ st_pos s' = st_pos s1 /\
             st_caps s' = (name, (st_pos s, st_pos s1)) :: st_caps s1.
Proof. intros H; inversion H; subst; simpl; eauto 10. Qed.

(** A match consumes a prefix of the text that is left. *)
Lemma matches_consumed r s s' :
  matches db fl r s s' ->
  exists w, st_rest s = w ++ st_rest s' /\ st_pos s' = st_pos s + List.length w.
Proof.
  induction 1 as [s | p s c t Hr Hc | a b s s1 s2 _ (w1 & E1 & P1) _ (w2 & E2 & P2)
                 | a b s s' _ IH | a b s s' _ IH | g p s
                 | g p s c t s' Hr Hc _ (w & E & P) | name a s s' _ (w & E & P)
                 | a s s' _ _ | s Hb | s He]; simpl in *.
  - exists []; simpl; split; auto; lia.
  - exists [c]; simpl; split; auto; lia.
  - exists (w1 ++ w2). rewrite E1, E2, <- app_assoc, length_app. split; auto; lia.
  - exact IH.
  - exact IH.
  - exists []; simpl; split; auto; lia.
  - exists (c :: w). rewrite Hr, E. simpl. split; auto; lia.
  - exists w; auto.
  - exists []; simpl; split; auto; lia.
  - exists []; simpl; split; auto; lia.
  - exists []; simpl; split; auto; lia.
Qed.

Lemma matches_star_inv g p s s' :
  matches db fl (Star g p) s s' ->
  exists w, st_rest s = w ++ st_rest s' /\
            Forall (fun c => single_ok db fl p c = true) w /\
            st_caps s' = st_caps s.
Proof.
  intros H. remember (Star g p) as r eqn:Er.
  induction H as [| | | | | g' p' s | g' p' s c t s' Hr Hc _ IH | | | |];
    try discriminate; inversion Er; subst.
  - exists []; simpl; auto.
  - destruct (IH eq_refl) as (w & E & Fw & C). simpl in *.
    exists (c :: w). rewrite Hr, E. simpl. repeat split; auto.
Qed.

Lemma matches_lits w : forall s s',
  matches db fl (lits w) s s' ->
  exists x, st_rest s = x ++ st_rest s' /\ lit_eq db fl w x /\
            st_caps s' = st_caps s.
Proof.
  induction w as [| c w IH]; intros s s' H; simpl in H.
  - inversion H; subst. exists []; simpl; repeat split; auto. constructor.
  - apply matches_seq_inv in H. destruct H as (s1 & H1 & H2).
    apply matches_one_inv in H1. destruct H1 as (y & Hr & Hy & _ & Hc).
    apply IH in H2. destruct H2 as (x & Hx & Fx & Hc').
    exists (y :: x). rewrite Hr, Hx. simpl. repeat split; auto; [| congruence].
    constructor; auto.
Qed.

(** Every match reported by finditer, and the match reported by search, is
    a successful attempt at its start offset. *)
Lemma search_from_at r l : forall pos prev m,
  search_from db fl r pos prev l = Some m ->
  exists n, m_start m = pos + n /\ n <= List.length l /\
            match_at db fl r false (pos + n) (prev_at prev l n) (skipn n l) = Some m.
Proof.
  induction l as [| c t IH]; intros pos prev m H; simpl in H.
  - destruct (match_at db fl r false pos prev []) as [m' |] eqn:E; [| discriminate].
    inversion H; subst m'. exists 0. rewrite Nat.add_0_r. simpl. split; auto.
    apply match_at_matches in E. destruct E as (_ & _ & E & _). rewrite E; lia.
  - destruct (match_at db fl r false pos prev (c :: t)) as [m' |] eqn:E.
    + inversion H; subst m'. exists 0. rewrite Nat.add_0_r. simpl. split; [| split; [lia | auto]].
      apply match_at_matches in E. destruct E as (_ & _ & E & _). rewrite E; lia.
    + apply IH in H. destruct H as (n & Hs & Hn & Hm).
      exists (S n). replace (pos + S n) with (S pos + n) by lia.
      simpl. split; [exact Hs | split; [lia |]].
      destruct n; exact Hm.
Qed.

Lemma attempt_at_here r ma pos prev l m :
  match_at db fl r ma pos prev l = Some m -> attempt_at db fl r pos prev l m.
Proof.
  intros E. exists 0, ma. rewrite Nat.add_0_r. simpl. split; [| split; [lia | exact E]].
  apply match_at_matches in E. destruct E as (_ & _ & E & _). rewrite E; lia.
Qed.

Lemma attempt_at_later r pos prev c t m :
  attempt_at db fl r (S pos) (Some c) t m -> attempt_at db fl r pos prev (c :: t) m.
Proof.
  intros (n & ma & Hs & Hn & Hm). exists (S n), ma.
  replace (pos + S n) with (S pos + n) by lia. simpl.
  split; [exact Hs | split; [lia |]]. destruct n; exact Hm.
Qed.

Lemma finditer_from_at r l : forall skip pos prev,
  Forall (attempt_at db fl r pos prev l) (finditer_from db fl r skip pos prev l).
Proof.
  induction l as [| c t IH]; intros skip pos prev.
  - destruct skip; simpl; [| constructor].
    destruct (match_at db fl r false pos prev []) as [m |] eqn:E; [| constructor].
    constructor; [eapply attempt_at_here; eauto |].
    destruct (Nat.eqb (m_end m) pos); [| constructor].
    destruct (match_at db fl r true pos prev []) as [m' |] eqn:E'; constructor;
      [eapply attempt_at_here; eauto | constructor].
  - assert (L : forall k, Forall (attempt_at db fl r pos prev (c :: t))
                                 (finditer_from db fl r k (S pos) (Some c) t)).
    { intros k. eapply Forall_impl; [| apply IH].
      intros m. apply attempt_at_later. }
    destruct skip; simpl; [| apply L].
    destruct (match_at db fl r false pos prev (c :: t)) as [m |] eqn:E; [| apply L].
    constructor; [eapply attempt_at_here; eauto |].
    destruct (Nat.eqb (m_end m) pos); [| apply L].
    destruct (match_at db fl r true pos prev (c :: t)) as [m' |] eqn:E'; [| apply L].
    constructor; [eapply attempt_at_here; eauto | apply L].
Qed.

End MatchFacts.

Section PatternFacts.
Import Re Patterns LegalParser.

Variable db : UnicodeDB.

Lemma lit_eq_exact fl w x : IGNORECASE fl = false -> lit_eq db fl w x -> x = w.
Proof.
  intros Hf. induction 1 as [| c y w x Hy _ IH]; auto.
  unfold lit_ok in Hy. rewrite Hf in Hy. simpl in Hy.
  apply N.eqb_eq in Hy. congruence.
Qed.

Lemma lit_eq_flags fl1 fl2 w x :
  IGNORECASE fl1 = IGNORECASE fl2 -> lit_eq db fl1 w x -> lit_eq db fl2 w x.
Proof.
  intros Hf. induction 1; constructor; auto.
  unfold lit_ok in *. rewrite <- Hf. assumption.
Qed.

Lemma lit_eq_length fl w x : lit_eq db fl w x -> List.length x = List.length w.
Proof. induction 1; simpl; auto. Qed.

Lemma contains_skipn sub n l : contains sub (skipn n l) = true -> contains sub l = true.
Proof.
  rewrite !contains_spec. intros (a & b & H).
  exists (firstn n l ++ a), b. rewrite <- app_assoc, <- H. symmetry. apply firstn_skipn.
Qed.

(** An article match holds "Art." or "Article." in so many characters. *)
Lemma article_match_needs_period ma pos prev l m :
  match_at db (p_flags ARTICLE_PATTERN) (p_re ARTICLE_PATTERN) ma pos prev l = Some m ->
  contains (u "Art.") l = true \/ contains (u "Article.") l = true.
Proof.
  intros H. apply match_at_matches in H. destruct H as (s' & H & _).
  unfold ARTICLE_PATTERN, p_re in H. cbn [seq alt] in H.
  apply matches_seq_inv in H. destruct H as (s1 & H1 & H).
  apply matches_one_inv in H1. destruct H1 as (c & E1 & _).
  apply matches_seq_inv in H. destruct H as (s2 & H2 & H).
  apply matches_star_inv in H2. destruct H2 as (w & E2 & _).
  apply matches_seq_inv in H. destruct H as (s3 & H3 & H).
  apply matches_seq_inv in H. destruct H as (s4 & H4 & _).
  apply matches_lits in H4. destruct H4 as (y & E4 & L4 & _).
  apply lit_eq_exact in L4; [| reflexivity]. subst y.
  simpl in E1. rewrite E2 in E1.
  apply matches_alt_inv in H3. destruct H3 as [H3 | H3];
    apply matches_lits in H3; destruct H3 as (x & E3 & L3 & _);
    apply lit_eq_exact in L3; try reflexivity; subst x;
    rewrite E3, E4 in E1; [left | right]; apply contains_spec;
    exists (c :: w), (st_rest s4); rewrite E1.
  - change (u "Art.") with (u "Art" ++ u "."). rewrite <- app_assoc. reflexivity.
  - change (u "Article.") with (u "Article" ++ u "."). rewrite <- app_assoc. reflexivity.
Qed.

Lemma finditer_nil_of_attempts p text :
  (forall m, attempt_at db (p_flags p) (p_re p) 0 None text m -> False) ->
  finditer db p text = [].
Proof.
  intros H. unfold finditer.
  pose proof (finditer_from_at db (p_flags p) (p_re p) text 0 0 None) as HF.
  destruct (finditer_from db (p_flags p) (p_re p) 0 0 None text) as [| m ms]; auto.
  inversion HF; subst. exfalso; eauto.
Qed.

End PatternFacts.

(** X8: an article is recognised only where the text holds the word "Art"
    or "Article" immediately followed by a period: a text that contains neither
    "Art." nor "Article." yields no article, however its articles are
    numbered. *)
Theorem X8_articles_need_a_period (db : UnicodeDB) (text : pystr) :
  contains (u "Art.") text = false ->
  contains (u "Article.") text = false ->
  LegalParser.parse_articles db text = [].
Proof.
  intros H1 H2. unfold LegalParser.parse_articles.
  rewrite finditer_nil_of_attempts; [reflexivity |].
  intros m (n & ma & _ & _ & Hm).
  apply article_match_needs_period in Hm.
  destruct Hm as [Hm | Hm]; apply contains_skipn in Hm; congruence.
Qed.

Lemma X8_articles_need_a_period_witness :
  LegalParser.parse_articles latin1 block_A = [].
Proof.
  apply X8_articles_need_a_period; vm_compute; reflexivity.
Defined.

Section PatternFacts2.
Import Re Patterns LegalParser.

Variable db : UnicodeDB.

Lemma skipn_app_length {A} (w r : list A) : skipn (List.length w) (w ++ r) = r.
Proof. induction w; simpl; auto. Qed.

Lemma firstn_app_length {A} (w r : list A) : firstn (List.length w) (w ++ r) = w.
Proof. induction w; simpl; auto. f_equal; auto. Qed.

Lemma match_at_rest fl r ma pos prev l m :
  match_at db fl r ma pos prev l = Some m ->
  exists s', matches db fl r (mk pos prev l []) s' /\
             pos <= m_end m /\ skipn (m_end m - pos) l = st_rest s'.
Proof.
  intros H. apply match_at_matches in H. destruct H as (s' & H & _ & He & _).
  exists s'. split; auto.
  destruct (matches_consumed H) as (w & Ew & Pw). simpl in *.
  rewrite He, Pw. split; [lia |].
  replace (pos + List.length w - pos) with (List.length w) by lia.
  rewrite Ew. apply skipn_app_length.
Qed.

Lemma search_rest p text m :
  search db p text = Some m ->
  exists s0 s', matches db (p_flags p) (p_re p) s0 s' /\
                st_rest s0 = skipn (m_start m) text /\
                st_prev s0 = prev_at None text (m_start m) /\
                m_start m <= m_end m /\ m_end m <= List.length text /\
                st_rest s' = skipn (m_end m) text.
Proof.
  intros H. pose proof (search_sound _ _ _ H) as (_ & _ & Hlen & _).
  unfold search in H. apply search_from_at in H.
  destruct H as (n & Hs & _ & H). simpl in Hs. subst n.
  apply match_at_rest in H. destruct H as (s' & Hm & Hle & Hr).
  eexists; exists s'. split; [exact Hm |]. simpl.
  repeat split; auto.
  rewrite <- Hr, skipn_skipn. f_equal. lia.
Qed.

Lemma nl_exact fl y : iscased db NL = false -> lit_ok db fl NL y = true -> y = NL.
Proof.
  intros Hc. unfold lit_ok. rewrite Hc, andb_false_r. apply N.eqb_eq.
Qed.

Ltac peel H := apply matches_seq_inv in H; destruct H as (? & _ & H).

Ltac starts_with_nl Hc H :=
  cbn [seq] in H; apply matches_seq_inv in H; destruct H as (? & H & _);
  apply matches_one_inv in H; destruct H as (? & H & ? & _);
  eexists; rewrite H; f_equal; eapply nl_exact; eauto.

Lemma header_match_rest s0 s' :
  iscased db NL = false ->
  matches db (p_flags DOCUMENT_HEADER_PATTERN) (p_re DOCUMENT_HEADER_PATTERN) s0 s' ->
  exists rest, st_rest s' = NL :: rest.
Proof.
  intros Hc H. unfold DOCUMENT_HEADER_PATTERN, p_re in H. cbn [seq] in H.
  do 14 peel H.
  apply matches_look_inv in H. destruct H as (Er & _ & s'' & H). rewrite Er.
  cbn [alt] in H.
  apply matches_alt_inv in H. destruct H as [H | H]; [starts_with_nl Hc H |].
  apply matches_alt_inv in H. destruct H as [H | H]; [starts_with_nl Hc H |].
  apply matches_alt_inv in H. destruct H as [H | H]; starts_with_nl Hc H.
Qed.

End PatternFacts2.

(** X9: the full-header match always stops right before a line break: the
    lookahead that ends the title asks for it, so the text handed to
    parse_articles starts with a newline and the title holds no part of the
    line that follows (for every character database in which the newline is
    caseless, as it is in Unicode). *)
Theorem X9_header_stops_before_a_line_break (db : UnicodeDB) (doc_text : pystr) (m : Re.mobj) :
  iscased db NL = false ->
  Re.search db Patterns.DOCUMENT_HEADER_PATTERN doc_text = Some m ->
  exists rest, skipn (Re.m_end m) doc_text = NL :: rest.
Proof.
  intros Hc H. apply search_rest in H.
  destruct H as (s0 & s' & Hm & _ & _ & _ & _ & Hr).
  rewrite <- Hr. eapply header_match_rest; eauto.
Qed.

Lemma X9_header_stops_before_a_line_break_witness :
  exists m rest,
    Re.search latin1 Patterns.DOCUMENT_HEADER_PATTERN doc_with_articles = Some m /\
    skipn (Re.m_end m) doc_with_articles = NL :: rest.
Proof.
  eexists.
  assert (H : Re.search latin1 Patterns.DOCUMENT_HEADER_PATTERN doc_with_articles
              = Some {| Re.m_start := 0; Re.m_end := 80;
                        Re.m_caps := [("title", (53, 80)); ("date", (29, 44));
                                      ("number", (19, 25)); ("type", (0, 15))] |})
    by (vm_compute; reflexivity).
  destruct (@X9_header_stops_before_a_line_break latin1 doc_with_articles _ eq_refl H)
    as (rest & Hr).
  exists rest. split; [exact H | exact Hr].
Defined.

Section PatternFacts3.
Import Re Patterns LegalParser.

Variable db : UnicodeDB.

Lemma matches_bol_inv fl s s' :
  matches db fl Bol s s' -> s' = s /\ at_bol fl s = true.
Proof. intros H; inversion H; subst; auto. Qed.

Lemma matches_eps_inv fl s s' : matches db fl Eps s s' -> s' = s.
Proof. intros H; inversion H; subst; auto. Qed.

Lemma match_at_consumed fl r ma pos prev l m :
  match_at db fl r ma pos prev l = Some m ->
  exists s' w, matches db fl r (mk pos prev l []) s' /\
               l = w ++ st_rest s' /\ m_end m = pos + List.length w.
Proof.
  intros H. apply match_at_matches in H. destruct H as (s' & H & _ & He & _).
  destruct (matches_consumed H) as (w & Ew & Pw). simpl in *.
  exists s', w. repeat split; auto. congruence.
Qed.

(** A match of the document-start pattern: at the start of a line, one of
    the act keywords, letter case ignored, then a whitespace character. *)
Lemma start_match s0 s' :
  matches db (p_flags DOCUMENT_START_PATTERN) (p_re DOCUMENT_START_PATTERN) s0 s' ->
  (st_prev s0 = None \/ st_prev s0 = Some NL) /\
  exists kw w c, In kw ACT_KEYWORDS /\ st_rest s0 = w ++ c :: st_rest s' /\
                 lit_eq db IC kw w /\ isspace c = true.
Proof.
  intros H. unfold DOCUMENT_START_PATTERN, p_re in H. cbn [seq alt] in H.
  apply matches_seq_inv in H. destruct H as (s1 & H1 & H).
  apply matches_bol_inv in H1. destruct H1 as (-> & Hb).
  apply matches_seq_inv in H. destruct H as (s2 & H2 & H).
  apply matches_one_inv in H. destruct H as (c & Ec & Hc & _).
  split.
  - unfold at_bol in Hb. destruct (st_prev s0) as [p |]; auto.
    simpl in Hb. apply N.eqb_eq in Hb. subst p. auto.
  - assert (Hsp : isspace c = true).
    { unfold single_ok, ws, set_ok in Hc. simpl in Hc.
      rewrite orb_false_r in Hc. exact Hc. }
    assert (K : forall kw, matches db (p_flags DOCUMENT_START_PATTERN) (str kw) s0 s2 ->
                           exists w, st_rest s0 = w ++ c :: st_rest s' /\
                                     lit_eq db IC (u kw) w).
    { intros kw Hk. apply matches_lits in Hk. destruct Hk as (w & Ew & Lw & _).
      exists w. rewrite Ew, Ec. split; [reflexivity |].
      eapply lit_eq_flags; [| exact Lw]. reflexivity. }
    unfold ACT_KEYWORDS.
    apply matches_alt_inv in H2. destruct H2 as [H2 | H2];
      [apply K in H2; destruct H2 as (w & E & L); exists (u "Décret"), w, c; simpl; auto 10 |].
    apply matches_alt_inv in H2. destruct H2 as [H2 | H2];
      [apply K in H2; destruct H2 as (w & E & L); exists (u "Loi"), w, c; simpl; auto 10 |].
    apply matches_alt_inv in H2. destruct H2 as [H2 | H2];
      apply K in H2; destruct H2 as (w & E & L);
      [exists (u "Arrêté"), w, c | exists (u "Décision"), w, c]; simpl; auto 10.
Qed.

Lemma segment_bounds_of_matches (ms : list mobj) (n : nat) :
  StronglySorted (fun a b => m_end a <= m_start b) ms ->
  Forall (fun m => m_end m <= n) ms ->
  Forall2 (fun m ab => fst ab = m_start m /\ m_end m <= snd ab)
          ms (segment_bounds (map m_start ms) n).
Proof.
  induction ms as [| m ms IH]; intros Hs Hn; simpl; constructor.
  - inversion Hs as [| ? ? _ Hle]; subst. inversion Hn; subst. simpl. split; auto.
    destruct ms as [| m' ms']; simpl; auto.
    inversion Hle; subst; auto.
  - inversion Hs; subst. inversion Hn; subst. apply IH; auto.
Qed.

Lemma Forall2_map_r {A B C} (R : A -> B -> Prop) (P : A -> Prop) (Q : C -> Prop)
      (f : B -> C) la lb :
  Forall2 R la lb -> Forall P la ->
  (forall a b, R a b -> P a -> Q (f b)) -> Forall Q (map f lb).
Proof.
  intros H2 HP HQ. induction H2 as [| a b la lb Hab _ IH]; simpl; constructor.
  - inversion HP; subst. eauto.
  - inversion HP; subst. auto.
Qed.

End PatternFacts3.

(** X10: every boundary found by the segmenter is at the start of the
    content or right after a line break, and every segment begins with one of
    the act keywords "Décret", "Loi", "Arrêté", "Décision", in any letter case,
    followed by a whitespace character. *)
Theorem X10_segments_start_with_a_keyword (db : UnicodeDB) (content : pystr) :
  Forall (fun a => a = 0 \/ nth_error content (a - 1) = Some NL)
         (LegalParser.starts db content) /\
  Forall (fun seg => exists kw w c rest,
                       In kw ACT_KEYWORDS /\ seg = w ++ c :: rest /\
                       lit_eq db IC kw w /\ isspace c = true)
         (LegalParser.doc_texts db content).
Proof.
  unfold LegalParser.doc_texts, LegalParser.starts, Re.finditer.
  set (fl := Re.p_flags Patterns.DOCUMENT_START_PATTERN).
  set (r := Re.p_re Patterns.DOCUMENT_START_PATTERN).
  assert (Hmin : 0 < Re.minlen r) by (vm_compute; lia).
  destruct (@finditer_from_sound db fl r Hmin content 0 0 None) as [HF HS].
  pose proof (finditer_from_at db fl r content 0 0 None) as HA.
  set (ms := Re.finditer_from db fl r 0 0 None content) in *. clearbody ms.
  assert (HQ : Forall (fun m =>
                 (Re.m_start m = 0 \/ nth_error content (Re.m_start m - 1) = Some NL) /\
                 exists kw w c rest,
                   In kw ACT_KEYWORDS /\ skipn (Re.m_start m) content = w ++ c :: rest /\
                   lit_eq db IC kw w /\ isspace c = true /\
                   Re.m_end m = Re.m_start m + List.length w + 1) ms).
  { eapply Forall_impl; [| exact HA].
    intros m (n & ma & Hs & Hn & Hm). simpl in Hs. subst n. simpl in Hm.
    apply match_at_consumed in Hm. destruct Hm as (s' & w' & Hm & Ew & He).
    apply start_match in Hm. destruct Hm as (Hp & kw & w & c & Hk & Er & Hl & Hc).
    simpl in Hp, Er. split.
    - destruct (Re.m_start m) as [| k] eqn:Es; auto. right. simpl in *.
      rewrite Nat.sub_0_r. destruct Hp as [Hp | Hp]; auto.
      apply nth_error_None in Hp. lia.
    - exists kw, w, c, (Re.st_rest s'). repeat split; auto.
      rewrite Er in Ew. change (c :: Re.st_rest s') with ([c] ++ Re.st_rest s') in Ew.
      rewrite app_assoc in Ew. apply app_inv_tail in Ew. subst w'.
      rewrite He, length_app. simpl. lia. }
  split.
  - apply Forall_map. eapply Forall_impl; [| exact HQ]. intros m [H _]; exact H.
  - assert (HN : Forall (fun m => Re.m_end m <= List.length content) ms)
      by (eapply Forall_impl; [| exact HF]; intros m (_ & _ & H & _); exact H).
    eapply Forall2_map_r; [exact (segment_bounds_of_matches HS HN) | exact HQ |].
    intros m [a b] [Ha Hb] (_ & kw & w & c & rest & Hk & Er & Hl & Hc & He).
    cbn [fst snd] in *. subst a.
    remember (b - Re.m_start m - List.length w - 1) as k eqn:Ek.
    assert (E : b - Re.m_start m - List.length w = S k) by lia.
    exists kw, w, c, (firstn k rest).
    split; [exact Hk |]. split; [| split; [exact Hl | exact Hc]].
    unfold slice. rewrite Er, firstn_app, E.
    rewrite firstn_all2 by lia. reflexivity.
Qed.

(** X11: _find_content_start returns the text unchanged, or the part of it
    that follows a marker "SOMMAIRE", in any letter case, together with the
    " (suite)" that may come right after it; what it returns is always the end
    of the text. *)
Theorem X11_content_start_follows_the_marker (db : UnicodeDB) (text : pystr) :
  LegalParser._find_content_start db text = text \/
  exists before w suite,
    text = before ++ w ++ suite ++ LegalParser._find_content_start db text /\
    lit_eq db IC (u "SOMMAIRE") w /\
    (suite = [] \/ lit_eq db IC (u " (suite)") suite).
Proof.
  unfold LegalParser._find_content_start, Re.split1.
  destruct (Re.search db LegalParser.SOMMAIRE text) as [m |] eqn:E; [| left; reflexivity].
  right. apply search_rest in E.
  destruct E as (s0 & s' & Hm & H0 & _ & _ & _ & Hr).
  unfold LegalParser.SOMMAIRE, Re.p_re, Re.Opt in Hm.
  apply matches_seq_inv in Hm. destruct Hm as (s1 & H1 & H2).
  apply matches_lits in H1. destruct H1 as (w & Ew & Lw & _).
  assert (Ht : text = firstn (Re.m_start m) text ++ w ++ Re.st_rest s1)
    by (rewrite <- Ew, H0; symmetry; apply firstn_skipn).
  apply matches_alt_inv in H2. destruct H2 as [H2 | H2].
  - apply matches_lits in H2. destruct H2 as (x & Ex & Lx & _).
    exists (firstn (Re.m_start m) text), w, x.
    rewrite <- Hr, <- Ex. repeat split; auto.
  - apply matches_eps_inv in H2. subst s'.
    exists (firstn (Re.m_start m) text), w, [].
    rewrite <- Hr. repeat split; auto.
Qed.

(** ** Chunk texts *)

Lemma tidy_no_newline l : tidy l -> ~ In NL l.
Proof.
  intros (Hs & _) Hin. apply spaced_forall in Hs. rewrite Forall_forall in Hs.
  specialize (Hs NL Hin eq_refl). discriminate.
Qed.

Lemma structured_data_tidy db raw_text :
  Forall tidy_document (structured_data db raw_text).
Proof.
  unfold structured_data. apply Forall_map.
  eapply Forall_impl; [| apply (process_full_gazette_tidy db raw_text)].
  intros d H; exact H.
Qed.

(** X12: the text of every chunk of the pipeline is a single line: it holds
    no line break, whatever line breaks the title or the article had in the
    gazette. *)
Theorem X12_chunk_texts_are_single_lines (db : UnicodeDB) (raw_text : pystr) :
  Forall (fun c => ~ In NL (text c)) (all_chunks (structured_data db raw_text)).
Proof.
  apply Forall_forall. intros c Hc.
  unfold all_chunks in Hc. apply in_flat_map in Hc. destruct Hc as (d & Hd & Hc).
  pose proof (structured_data_tidy db raw_text) as HT.
  rewrite Forall_forall in HT. destruct (HT d Hd) as (T1 & _ & _ & T4 & TA).
  unfold DocumentChunker.chunk_document in Hc.
  destruct (articles d) as [| a0 rest] eqn:Ea.
  - destruct Hc as [<- | []]. cbn [text]. intros Hin.
    apply in_app_or in Hin. destruct Hin as [Hin | Hin];
      [exact (tidy_no_newline T1 Hin) |].
    apply in_app_or in Hin. destruct Hin as [Hin | Hin];
      [| exact (tidy_no_newline T4 Hin)].
    vm_compute in Hin. intuition discriminate.
  - apply in_map_iff in Hc. destruct Hc as (a & <- & Ha). cbn [text].
    rewrite Forall_forall in TA. destruct (TA a Ha) as (Tn & Tc).
    intros Hin.
    apply in_app_or in Hin. destruct Hin as [Hin | Hin];
      [vm_compute in Hin; intuition discriminate |].
    apply in_app_or in Hin. destruct Hin as [Hin | Hin];
      [exact (tidy_no_newline Tn Hin) |].
    apply in_app_or in Hin. destruct Hin as [Hin | Hin];
      [vm_compute in Hin; intuition discriminate | exact (tidy_no_newline Tc Hin)].
Qed.

(** ** From the OCR text to the normalizer *)

Section LiteralPatterns.
Import Re.

Variable db : UnicodeDB.
Variable fl : flags.
Hypothesis Hic : IGNORECASE fl = false.

Lemma lit_ok_exact c x : lit_ok db fl c x = (c =? x)%N.
Proof. unfold lit_ok. rewrite Hic. simpl. apply N.eqb_sym. Qed.

Lemma rmatch_lits w : forall k s,
  (starts_with w (st_rest s) = false /\ rmatch db fl (lits w) k s = None) \/
  (starts_with w (st_rest s) = true /\
   exists prev,
     rmatch db fl (lits w) k s =
     k (mk (st_pos s + List.length w) prev (skipn (List.length w) (st_rest s)) (st_caps s))).
Proof.
  induction w as [| a w' IH]; intros k [pos prev rest caps].
  - right. split; [reflexivity |]. exists prev. simpl. rewrite Nat.add_0_r. reflexivity.
  - cbn [lits rmatch st_rest st_pos st_caps st_prev]. destruct rest as [| c t].
    + left. split; reflexivity.
    + cbn [single_ok starts_with]. rewrite lit_ok_exact.
      destruct (a =? c)%N; [| left; split; reflexivity].
      destruct (IH k (mk (S pos) (Some c) t caps)) as [[H1 H2] | [H1 [p H2]]];
        cbn [st_rest st_pos st_caps] in *.
      * left. split; [exact H1 | exact H2].
      * right. split; [exact H1 |]. exists p. rewrite H2.
        cbn [List.length skipn]. rewrite Nat.add_succ_r. reflexivity.
Qed.

Lemma match_at_lits w pos prev l :
  w <> [] ->
  forall adv,
  match_at db fl (lits w) adv pos prev l =
  if starts_with w l
  then Some {| m_start := pos; m_end := pos + List.length w; m_caps := [] |}
  else None.
Proof.
  intros Hw adv. unfold match_at.
  destruct (rmatch_lits w
              (fun s => if adv && Nat.eqb (st_pos s) pos then None else Some s)
              (mk pos prev l [])) as [[H1 H2] | [H1 [p H2]]];
    simpl in H1, H2; rewrite H1, H2; [reflexivity |].
  simpl.
  assert (E : Nat.eqb (pos + List.length w) pos = false).
  { apply Nat.eqb_neq. destruct w; [congruence | simpl; lia]. }
  rewrite E, andb_false_r. reflexivity.
Qed.

Variable w : pystr.
Hypothesis Hw : w <> [].

Lemma sub_lits_indep l : forall skip pos prev,
  sub_from db fl (lits w) [] skip pos prev l = sub_from db fl (lits w) [] skip 0 None l.
Proof.
  induction l as [| c t IH]; intros skip pos prev.
  - destruct skip; cbn [sub_from]; [| reflexivity].
    rewrite !match_at_lits by exact Hw.
    destruct w; [congruence | reflexivity].
  - destruct skip; cbn [sub_from].
    + rewrite !match_at_lits by exact Hw.
      destruct (starts_with w (c :: t)).
      * cbn [m_end app].
        assert (E : forall p, Nat.eqb (p + List.length w) p = false).
        { intros p. apply Nat.eqb_neq. destruct w; [congruence | simpl; lia]. }
        rewrite !E.
        replace (pos + List.length w - S pos) with (0 + List.length w - 1) by lia.
        rewrite (IH _ (S pos) (Some c)), (IH _ 1 (Some c)). reflexivity.
      * rewrite (IH _ (S pos) (Some c)), (IH _ 1 (Some c)). reflexivity.
    + rewrite (IH _ (S pos) (Some c)), (IH _ 1 (Some c)). reflexivity.
Qed.

Lemma delete_nil : delete_literal db fl w [] = [].
Proof.
  unfold delete_literal. cbn [sub_from]. rewrite match_at_lits by exact Hw.
  destruct w; [congruence | reflexivity].
Qed.

Lemma delete_copy c t :
  starts_with w (c :: t) = false ->
  delete_literal db fl w (c :: t) = c :: delete_literal db fl w t.
Proof.
  intros H. unfold delete_literal. cbn [sub_from]. rewrite match_at_lits by exact Hw.
  rewrite H. rewrite sub_lits_indep. reflexivity.
Qed.

Lemma sub_lits_skip a : forall l,
  sub_from db fl (lits w) [] (List.length a) 0 None (a ++ l) = delete_literal db fl w l.
Proof.
  induction a as [| c a IH]; intros l; [reflexivity |].
  cbn [List.length app sub_from]. rewrite sub_lits_indep. apply IH.
Qed.

Lemma starts_with_app (a l : pystr) : starts_with a (a ++ l) = true.
Proof. induction a; simpl; [reflexivity |]. rewrite N.eqb_refl. exact IHa. Qed.

Lemma sub_lits_match l pos prev :
  starts_with w l = true ->
  sub_from db fl (lits w) [] 0 pos prev l =
  sub_from db fl (lits w) [] (List.length w) pos prev l.
Proof.
  intros H.
  assert (Hlen : List.length w <> 0) by (destruct w; [congruence | discriminate]).
  destruct l as [| c t].
  { destruct w; [congruence | discriminate]. }
  cbn [sub_from]. rewrite match_at_lits by exact Hw. rewrite H.
  cbn [m_end app].
  assert (E : Nat.eqb (pos + List.length w) pos = false) by (apply Nat.eqb_neq; lia).
  rewrite E. destruct (List.length w) as [| n]; [congruence |].
  cbn [sub_from]. replace (pos + S n - S pos) with n by lia. reflexivity.
Qed.

Lemma delete_match l : delete_literal db fl w (w ++ l) = delete_literal db fl w l.
Proof.
  unfold delete_literal. rewrite sub_lits_match by apply starts_with_app.
  apply sub_lits_skip.
Qed.

Hypothesis Hnl : ~ In NL w.

Lemma starts_with_before_nl : forall (a q r : pystr),
  ~ In NL a -> starts_with a (q ++ NL :: r) = true -> starts_with a q = true.
Proof.
  induction a as [| x a IH]; intros q r Ha H; [reflexivity |].
  destruct q as [| y q]; simpl in *.
  - apply andb_true_iff in H. destruct H as [H _]. apply N.eqb_eq in H.
    exfalso. apply Ha. left. exact H.
  - apply andb_true_iff in H. destruct H as [H1 H2]. rewrite H1. simpl.
    apply (IH q r); [tauto | exact H2].
Qed.

Lemma delete_newline l : delete_literal db fl w (NL :: l) = NL :: delete_literal db fl w l.
Proof.
  apply delete_copy. destruct w as [| x w'] eqn:E; [congruence |].
  simpl. destruct (N.eqb_spec x NL) as [-> |]; [| reflexivity].
  exfalso. apply Hnl. left. reflexivity.
Qed.

Lemma delete_page p : forall rest,
  contains w p = false ->
  rest = [] \/ (exists r, rest = NL :: r) ->
  delete_literal db fl w (p ++ rest) = p ++ delete_literal db fl w rest.
Proof.
  induction p as [| c p IH]; intros rest Hc Hr; [reflexivity |].
  cbn [contains] in Hc. apply orb_false_iff in Hc. destruct Hc as [Hs Hc].
  cbn [app]. rewrite delete_copy.
  - rewrite IH by assumption. reflexivity.
  - destruct Hr as [-> | [r ->]].
    + rewrite app_nil_r. exact Hs.
    + destruct (starts_with w (c :: p ++ NL :: r)) eqn:E; [| reflexivity].
      change (c :: p ++ NL :: r) with ((c :: p) ++ NL :: r) in E.
      apply starts_with_before_nl in E; [congruence | exact Hnl].
Qed.

Lemma delete_join_separator (pages : list pystr) :
  Forall (fun p => contains w p = false) pages ->
  delete_literal db fl w (OcrProcessor.join (NL :: NL :: w ++ [NL; NL]) pages) =
  OcrProcessor.join [NL; NL; NL; NL] pages.
Proof.
  induction 1 as [| p rest Hp Hrest IH]; [apply delete_nil |].
  destruct rest as [| p' rest].
  - cbn [OcrProcessor.join]. rewrite <- (app_nil_r p) at 1.
    rewrite delete_page by auto. rewrite delete_nil, app_nil_r. reflexivity.
  - change (OcrProcessor.join (NL :: NL :: w ++ [NL; NL]) (p :: p' :: rest))
      with (p ++ (NL :: NL :: w ++ [NL; NL]) ++
            OcrProcessor.join (NL :: NL :: w ++ [NL; NL]) (p' :: rest)).
    change (OcrProcessor.join [NL; NL; NL; NL] (p :: p' :: rest))
      with (p ++ [NL; NL; NL; NL] ++ OcrProcessor.join [NL; NL; NL; NL] (p' :: rest)).
    rewrite delete_page; [| exact Hp | right; eexists; reflexivity].
    cbn [app]. rewrite !delete_newline. rewrite <- app_assoc. rewrite delete_match.
    cbn [app]. rewrite !delete_newline. rewrite IH. reflexivity.
Qed.

Lemma delete_join_blank (pages : list pystr) :
  Forall (fun p => contains w p = false) pages ->
  delete_literal db fl w (OcrProcessor.join [NL; NL; NL; NL] pages) =
  OcrProcessor.join [NL; NL; NL; NL] pages.
Proof.
  induction 1 as [| p rest Hp Hrest IH]; [apply delete_nil |].
  destruct rest as [| p' rest].
  - cbn [OcrProcessor.join]. rewrite <- (app_nil_r p) at 1.
    rewrite delete_page by auto. rewrite delete_nil, app_nil_r. reflexivity.
  - change (OcrProcessor.join [NL; NL; NL; NL] (p :: p' :: rest))
      with (p ++ [NL; NL; NL; NL] ++ OcrProcessor.join [NL; NL; NL; NL] (p' :: rest)).
    rewrite delete_page; [| exact Hp | right; eexists; reflexivity].
    cbn [app]. rewrite !delete_newline. rewrite IH. reflexivity.
Qed.

End LiteralPatterns.

Lemma uint_digits_are_digits d : Forall (fun c => (48 <= c <= 57)%N) (uint_digits d).
Proof. induction d; simpl; constructor; auto; lia. Qed.

Lemma error_text_has_no_marker (i : nat) :
  contains PAGE_MARKER (OcrProcessor.tesseract_error_text (Z.of_nat (i + 1))) = false.
Proof.
  unfold OcrProcessor.tesseract_error_text, str_int. rewrite Nat.add_1_r.
  change (Z.to_int (Z.of_nat (S i))) with (Decimal.Pos (Pos.to_uint (Pos.of_succ_nat i))).
  cbv iota beta.
  generalize (uint_digits_are_digits (Pos.to_uint (Pos.of_succ_nat i))).
  generalize (uint_digits (Pos.to_uint (Pos.of_succ_nat i))). intros ds Hds.
  let a := eval vm_compute in (u "--- TESSERACT ERROR ON PAGE ") in
  change (u "--- TESSERACT ERROR ON PAGE ") with a.
  let a := eval vm_compute in (u " ---") in change (u " ---") with a.
  let a := eval vm_compute in PAGE_MARKER in change PAGE_MARKER with a.
  let a := eval vm_compute in NL in change NL with a.
  cbn [app contains starts_with N.eqb Pos.eqb andb orb].
  induction Hds as [| d ds Hd Hds IH]; [reflexivity |].
  cbn [app contains starts_with]. rewrite IH.
  destruct (N.eqb_spec 45 d) as [<- |]; [lia | reflexivity].
Qed.

Lemma page_loop_marker_free : forall images i full_text,
  OcrProcessor.page_loop i images = Some full_text ->
  forallb marker_free images = true ->
  Forall (fun p => contains PAGE_MARKER p = false) full_text.
Proof.
  induction images as [| image rest IH]; intros i full_text H Hf.
  - injection H as <-. constructor.
  - cbn [forallb] in Hf. apply andb_true_iff in Hf. destruct Hf as [Hm Hf].
    cbn [OcrProcessor.page_loop] in H.
    destruct image as [text | |]; [| | discriminate];
      destruct (OcrProcessor.page_loop (S i) rest) as [texts |] eqn:E;
      try discriminate; injection H as <-; constructor;
      try (apply (IH (S i)); [exact E | exact Hf]).
    + simpl in Hm. apply negb_true_iff in Hm. exact Hm.
    + apply error_text_has_no_marker.
Qed.

Lemma page_marker_shape :
  PAGE_MARKER <> [] /\ ~ In NL PAGE_MARKER /\
  OcrProcessor.PAGE_SEPARATOR = NL :: NL :: PAGE_MARKER ++ [NL; NL].
Proof.
  split; [| split].
  - intros E. vm_compute in E. discriminate.
  - intros H. vm_compute in H.
    repeat (destruct H as [H | H]; [discriminate |]). exact H.
  - vm_compute. reflexivity.
Qed.

(** X13: the OCR step writes "--- NEW PAGE ---" between two blank lines
    between the texts of consecutive pages, and the normalizer deletes exactly
    these markers when no recognised page holds one: what is left is the page
    texts joined by four line breaks, and normalizing the OCR text gives the
    same as normalizing that. *)
Theorem X13_page_markers_are_removed (db : UnicodeDB)
    (images : list OcrProcessor.page_outcome) (full_text : list pystr) :
  OcrProcessor.page_loop 0 images = Some full_text ->
  forallb marker_free images = true ->
  Re.sub db LegalParser.NEW_PAGE [] (OcrProcessor.process_pdf true (Some images)) =
    OcrProcessor.join BLANK_LINES full_text /\
  LegalParser._pre_clean_gazette db (OcrProcessor.process_pdf true (Some images)) =
    LegalParser._pre_clean_gazette db (OcrProcessor.join BLANK_LINES full_text).
Proof.
  intros H Hf.
  pose proof (page_loop_marker_free _ _ H Hf) as Hp.
  destruct page_marker_shape as (Hw & Hnl & Hsep).
  assert (E1 : Re.sub db LegalParser.NEW_PAGE [] (OcrProcessor.process_pdf true (Some images)) =
               OcrProcessor.join BLANK_LINES full_text).
  { unfold OcrProcessor.process_pdf. rewrite H. cbn [negb]. rewrite Hsep.
    apply (@delete_join_separator db LegalParser.no_flags eq_refl PAGE_MARKER Hw Hnl full_text Hp). }
  assert (E2 : Re.sub db LegalParser.NEW_PAGE [] (OcrProcessor.join BLANK_LINES full_text) =
               OcrProcessor.join BLANK_LINES full_text).
  { apply (@delete_join_blank db LegalParser.no_flags eq_refl PAGE_MARKER Hw Hnl full_text Hp). }
  split; [exact E1 |].
  unfold LegalParser._pre_clean_gazette. rewrite E1, E2. reflexivity.
Qed.

Lemma X13_page_markers_are_removed_witness :
  Re.sub latin1 LegalParser.NEW_PAGE []
    (OcrProcessor.process_pdf true
       (Some [OcrProcessor.Recognised (u "Page un"); OcrProcessor.TesseractError;
              OcrProcessor.Recognised (u "Page trois")])) =
  OcrProcessor.join BLANK_LINES
    [u "Page un"; OcrProcessor.tesseract_error_text 2; u "Page trois"].
Proof.
  refine (proj1 (@X13_page_markers_are_removed latin1
           [OcrProcessor.Recognised (u "Page un"); OcrProcessor.TesseractError;
            OcrProcessor.Recognised (u "Page trois")]
           [u "Page un"; OcrProcessor.tesseract_error_text 2; u "Page trois"] _ _));
    vm_compute; reflexivity.
Defined.

(** ** The names of the gazette files *)

Lemma uint_digits_inj : forall d d', uint_digits d = uint_digits d' -> d = d'.
Proof.
  induction d; destruct d'; simpl; intros H; try discriminate; try reflexivity;
    injection H as H; f_equal; auto.
Qed.

Lemma pad_as_uint (k : nat) (d : Decimal.uint) :
  repeat 48%N k ++ uint_digits d = uint_digits (Nat.iter k Decimal.D0 d).
Proof. induction k; simpl; [reflexivity | rewrite IHk; reflexivity]. Qed.

Lemma of_uint_pad (k : nat) (d : Decimal.uint) :
  Pos.of_uint (Nat.iter k Decimal.D0 d) = Pos.of_uint d.
Proof. induction k; simpl; auto. Qed.

Lemma zero_pad_inj (n : nat) (d d' : Decimal.uint) :
  zero_pad n (uint_digits d) = zero_pad n (uint_digits d') ->
  Pos.of_uint d = Pos.of_uint d'.
Proof.
  unfold zero_pad. rewrite !pad_as_uint. intros H.
  apply uint_digits_inj in H.
  transitivity (Pos.of_uint (Nat.iter (n - List.length (uint_digits d)) Decimal.D0 d));
    [symmetry; apply of_uint_pad | rewrite H; apply of_uint_pad].
Qed.

Lemma zero_pad_digits (n : nat) (d : Decimal.uint) :
  Forall (fun c => (48 <= c <= 57)%N) (zero_pad n (uint_digits d)).
Proof.
  unfold zero_pad. rewrite pad_as_uint. apply uint_digits_are_digits.
Qed.

Lemma format_03d_inj (z z' : Z) : format_03d z = format_03d z' -> z = z'.
Proof.
  intros H. rewrite <- (DecimalZ.of_to z), <- (DecimalZ.of_to z').
  unfold format_03d in H.
  destruct (Z.to_int z) as [d | d], (Z.to_int z') as [d' | d'].
  - apply zero_pad_inj in H. unfold Z.of_int, Z.of_uint. rewrite H. reflexivity.
  - pose proof (zero_pad_digits 3 d) as F. rewrite H in F.
    inversion F; subst. lia.
  - pose proof (zero_pad_digits 3 d') as F. rewrite <- H in F.
    inversion F; subst. lia.
  - injection H as H. apply zero_pad_inj in H. unfold Z.of_int, Z.of_uint.
    rewrite H. reflexivity.
Qed.

Lemma str_int_inj (z z' : Z) : str_int z = str_int z' -> z = z'.
Proof.
  intros H. apply DecimalZ.to_int_inj. unfold str_int in H.
  destruct (Z.to_int z) as [d | d], (Z.to_int z') as [d' | d'].
  - apply uint_digits_inj in H. congruence.
  - pose proof (uint_digits_are_digits d) as F. rewrite H in F.
    inversion F; subst. lia.
  - pose proof (uint_digits_are_digits d') as F. rewrite <- H in F.
    inversion F; subst. lia.
  - injection H as H. apply uint_digits_inj in H. congruence.
Qed.

Lemma str_int_no_slash (z : Z) : ~ In 47%N (str_int z).
Proof.
  unfold str_int. destruct (Z.to_int z) as [d | d]; intros H.
  - pose proof (uint_digits_are_digits d) as F. rewrite Forall_forall in F.
    apply F in H. lia.
  - destruct H as [H | H]; [discriminate |].
    pose proof (uint_digits_are_digits d) as F. rewrite Forall_forall in F.
    apply F in H. lia.
Qed.

Lemma split_at_separator (c : char) : forall a a' x x' : pystr,
  ~ In c a -> ~ In c a' -> a ++ c :: x = a' ++ c :: x' -> a = a' /\ x = x'.
Proof.
  induction a as [| y a IH]; intros [| y' a'] x x' Ha Ha' H; simpl in *.
  - injection H as ->. auto.
  - injection H as <- _. exfalso. apply Ha'. left. reflexivity.
  - injection H as -> _. exfalso. apply Ha. left. reflexivity.
  - injection H as -> H. apply IH in H; [| tauto | tauto].
    destruct H as [-> ->]. auto.
Qed.

(** X14: the URL of an issue is the base URL followed by the year directory
    and the name of the local file, and neither the URL nor the local path
    is shared by two issues: equal URLs (for one base URL) or equal paths
    come from the same year and the same issue number. *)
Theorem X14_issue_names_are_distinct (base_url : pystr) (year issue year' issue' : Z) :
  JoradpScraper._construct_pdf_url base_url year issue =
    base_url ++ str_int year ++ u "/" ++ JoradpScraper.file_name year issue /\
  (JoradpScraper._construct_pdf_url base_url year issue =
     JoradpScraper._construct_pdf_url base_url year' issue' ->
   year = year' /\ issue = issue') /\
  (JoradpScraper.save_path year issue = JoradpScraper.save_path year' issue' ->
   year = year' /\ issue = issue').
Proof.
  assert (Hname : forall y i i',
            JoradpScraper.file_name y i = JoradpScraper.file_name y i' -> i = i').
  { unfold JoradpScraper.file_name. intros y i i' H.
    apply app_inv_head in H. apply app_inv_head in H. apply app_inv_tail in H.
    apply format_03d_inj, H. }
  assert (Hurl : JoradpScraper._construct_pdf_url base_url year issue =
                 base_url ++ str_int year ++ u "/" ++ JoradpScraper.file_name year issue).
  { unfold JoradpScraper._construct_pdf_url, JoradpScraper.file_name.
    change (u "/F") with (u "/" ++ u "F"). rewrite <- !app_assoc. reflexivity. }
  split; [exact Hurl | split].
  - assert (Hurl' : JoradpScraper._construct_pdf_url base_url year' issue' =
                    base_url ++ str_int year' ++ u "/" ++ JoradpScraper.file_name year' issue').
    { unfold JoradpScraper._construct_pdf_url, JoradpScraper.file_name.
      change (u "/F") with (u "/" ++ u "F"). rewrite <- !app_assoc. reflexivity. }
    rewrite Hurl, Hurl'. intros H. apply app_inv_head in H.
    change (u "/") with [47%N] in H. cbn [app] in H.
    apply split_at_separator in H; try apply str_int_no_slash.
    destruct H as [Hy Hf]. apply str_int_inj in Hy. subst year'.
    split; [reflexivity | exact (Hname _ _ _ Hf)].
  - unfold JoradpScraper.save_path. intros H. injection H as Hy Hf.
    apply str_int_inj in Hy. subst year'.
    apply app_inv_head in Hf. apply app_inv_tail in Hf.
    split; [reflexivity | apply format_03d_inj, Hf].
Qed.

(** ** The type field and the categories that occur *)

Section TypeField.
Import Re Patterns LegalParser.

Variable db : UnicodeDB.

(** A match only adds spans of the groups of its pattern. *)
Lemma matches_caps_grow fl r s s' :
  matches db fl r s s' ->
  exists extra, st_caps s' = extra ++ st_caps s /\
                Forall (fun e => In (fst e) (gnames r)) extra.
Proof.
  induction 1 as [s | p s c t Hr Hc | a b s s1 s2 _ (e1 & E1 & F1) _ (e2 & E2 & F2)
                 | a b s s' _ (e & E & F) | a b s s' _ (e & E & F) | g p s
                 | g p s c t s' Hr Hc _ (e & E & F) | name a s s' _ (e & E & F)
                 | a s s' _ (e & E & F) | s Hb | s He]; cbn [gnames st_caps] in *.
  - exists []; auto.
  - exists []; auto.
  - exists (e2 ++ e1). rewrite E2, E1, app_assoc. split; [reflexivity |].
    apply Forall_app; split; eapply Forall_impl; eauto; cbv beta;
      intros x Hx; apply in_or_app; auto.
  - exists e. split; [exact E |].
    eapply Forall_impl; eauto; cbv beta; intros x Hx; apply in_or_app; auto.
  - exists e. split; [exact E |].
    eapply Forall_impl; eauto; cbv beta; intros x Hx; apply in_or_app; auto.
  - exists []; auto.
  - exists e; auto.
  - exists ((name, (st_pos s, st_pos s')) :: e). rewrite E. split; [reflexivity |].
    constructor; [left; reflexivity |].
    eapply Forall_impl; eauto; cbv beta; intros x Hx; right; exact Hx.
  - exists e; auto.
  - exists []; auto.
  - exists []; auto.
Qed.

Lemma lookup_cap_skip name names extra rest :
  Forall (fun e : string * (nat * nat) => In (fst e) names) extra ->
  ~ In name names ->
  lookup_cap name (extra ++ rest) = lookup_cap name rest.
Proof.
  intros F Hn. induction F as [| [n sp] extra Hx _ IH]; [reflexivity |].
  cbn [app lookup_cap]. destruct (String.eqb_spec n name) as [-> |]; [| exact IH].
  exfalso. apply Hn. exact Hx.
Qed.

(** The span of a first group named "type" is the text its pattern
    consumed. *)
Lemma type_capture p T REST text m :
  p_re p = Seq Bol (Seq (Group "type" T) REST) ->
  gnames T = [] -> ~ In "type"%string (gnames REST) ->
  search db p text = Some m ->
  exists s0 s1 w, matches db (p_flags p) T s0 s1 /\ st_rest s0 = w ++ st_rest s1 /\
                  group_get text m "type" NA = w.
Proof.
  intros Ep HT HR H. unfold search in H. rewrite Ep in H.
  apply search_from_at in H. destruct H as (n & _ & _ & H). cbn [Nat.add] in H.
  apply match_at_matches in H. destruct H as (s' & H & _ & _ & Hc).
  apply matches_seq_inv in H. destruct H as (sb & Hb & H).
  apply matches_bol_inv in Hb. destruct Hb as (-> & _).
  apply matches_seq_inv in H. destruct H as (sg & Hg & H).
  apply matches_group_inv in Hg. destruct Hg as (s1 & HT1 & _ & _ & Cg).
  destruct (matches_caps_grow HT1) as (e1 & E1 & F1). rewrite HT in F1.
  assert (e1 = []) by (destruct e1 as [| x e1]; [reflexivity | inversion F1 as [| ? ? []]]).
  subst e1. simpl in Cg, E1.
  destruct (matches_caps_grow H) as (e2 & E2 & F2).
  destruct (matches_consumed HT1) as (w & Ew & Pw). simpl in Ew, Pw.
  exists (mk n (prev_at None text n) (skipn n text) []), s1, w.
  split; [exact HT1 | split; [exact Ew |]].
  unfold group_get. rewrite Hc, E2, Cg, E1.
  rewrite (@lookup_cap_skip "type" (gnames REST) e2 _ F2 HR).
  cbn [lookup_cap]. rewrite String.eqb_refl.
  unfold slice. rewrite Ew, Pw.
  replace (n + List.length w - n) with (List.length w) by lia.
  apply firstn_app_length.
Qed.

(** What a keyword followed by the rest of the type consumes starts with
    the keyword, letter case ignored. *)
Lemma keyword_prefix fl kw R s0 s1 s2 w :
  IGNORECASE fl = true ->
  matches db fl (str kw) s0 s1 -> matches db fl R s1 s2 ->
  st_rest s0 = w ++ st_rest s2 ->
  exists x more, w = x ++ more /\ lit_eq db IC (u kw) x.
Proof.
  intros Hi H1 H2 Ew. apply matches_lits in H1. destruct H1 as (x & Ex & Lx & _).
  destruct (matches_consumed H2) as (more & Em & _).
  exists x, more. split.
  - rewrite Ex, Em, app_assoc in Ew. apply app_inv_tail in Ew. symmetry. exact Ew.
  - eapply lit_eq_flags; [| exact Lx]. rewrite Hi. reflexivity.
Qed.

Lemma header_type_keyword t m isind :
  header_match db t = Some (m, isind) ->
  exists kw x more, In kw ACT_KEYWORDS /\ lit_eq db IC kw x /\
                    group_get t m "type" NA = x ++ more.
Proof.
  unfold header_match.
  destruct (search db DOCUMENT_HEADER_PATTERN t) as [m1 |] eqn:E1.
  - intros H; inversion H; subst m1 isind; clear H.
    eapply type_capture in E1; [| reflexivity | reflexivity |
      cbn; intros H; repeat (destruct H as [H | H]; [discriminate |]); exact H].
    destruct E1 as (s0 & s1 & w & HT & Ew & ->).
    apply matches_seq_inv in HT. destruct HT as (sk & Hk & HP).
    assert (K : forall kw, matches db (p_flags DOCUMENT_HEADER_PATTERN) (str kw) s0 sk ->
                           exists x more, w = x ++ more /\ lit_eq db IC (u kw) x).
    { intros kw Hkw. eapply keyword_prefix; [| exact Hkw | exact HP | exact Ew]. reflexivity. }
    cbn [alt] in Hk. unfold ACT_KEYWORDS.
    apply matches_alt_inv in Hk. destruct Hk as [Hk | Hk];
      [apply K in Hk; destruct Hk as (x & more & E & L);
       exists (u "Décret"), x, more; simpl; auto 10 |].
    apply matches_alt_inv in Hk. destruct Hk as [Hk | Hk];
      [apply K in Hk; destruct Hk as (x & more & E & L);
       exists (u "Loi"), x, more; simpl; auto 10 |].
    apply matches_alt_inv in Hk. destruct Hk as [Hk | Hk];
      apply K in Hk; destruct Hk as (x & more & E & L);
      [exists (u "Arrêté"), x, more | exists (u "Décision"), x, more]; simpl; auto 10.
  - destruct (search db INDIVIDUAL_DECISION_PATTERN t) as [m2 |] eqn:E2; [| discriminate].
    intros H; inversion H; subst m2 isind; clear H.
    eapply type_capture in E2; [| reflexivity | reflexivity |
      cbn; intros H; repeat (destruct H as [H | H]; [discriminate |]); exact H].
    destruct E2 as (s0 & s1 & w & HT & Ew & ->).
    unfold ACT_KEYWORDS.
    apply matches_alt_inv in HT. destruct HT as [HT | HT].
    + cbn [seq] in HT. apply matches_seq_inv in HT. destruct HT as (sk & Hk & HP).
      destruct (@keyword_prefix (p_flags INDIVIDUAL_DECISION_PATTERN) "Décret" _ s0 sk s1 w
                  eq_refl Hk HP Ew) as (x & more & E & L).
      exists (u "Décret"), x, more; simpl; auto 10.
    + destruct (@keyword_prefix (p_flags INDIVIDUAL_DECISION_PATTERN) "Arrêté" Eps s0 s1 s1 w
                  eq_refl HT (M_Eps db _ s1) Ew) as (x & more & E & L).
      exists (u "Arrêté"), x, more; simpl; auto 10.
Qed.

End TypeField.

(** Cleaning a field leaves a solid prefix in place. *)
Lemma dropwhile_keeps_suffix (p : char -> bool) (b : pystr) :
  b <> [] -> hd_not p b -> forall a, exists a', dropwhile p (a ++ b) = a' ++ b.
Proof.
  intros Hb Hh a. induction a as [| c a (a' & IH)]; simpl.
  - exists []. destruct b as [| d b]; [congruence |]. simpl in *. rewrite Hh. reflexivity.
  - destruct (p c); [exists a'; exact IH | exists (c :: a); reflexivity].
Qed.

Lemma dropwhile_stops (p : char -> bool) (l : pystr) : hd_not p l -> dropwhile p l = l.
Proof. destruct l as [| c l]; simpl; [reflexivity | intros ->; reflexivity]. Qed.

Lemma solid_last w : w <> [] -> Forall solid w -> rev w <> [] /\ hd_not isspace (rev w).
Proof.
  intros Hw F. split.
  - intros E. apply (f_equal (@rev char)) in E. rewrite rev_involutive in E. auto.
  - apply Forall_rev in F. destruct (rev w) as [| c r]; simpl; [exact I |].
    inversion F as [| ? ? [Hs _]]. exact Hs.
Qed.

Lemma strip_keeps_prefix w more :
  w <> [] -> Forall solid w -> exists more', LegalParser.strip (w ++ more) = w ++ more'.
Proof.
  intros Hw F. destruct (solid_last Hw F) as (Hr & Hh).
  unfold LegalParser.strip, LegalParser.rstrip_ws, LegalParser.lstrip_ws.
  rewrite rev_app_distr.
  destruct (dropwhile_keeps_suffix isspace Hr Hh (rev more)) as (a' & ->).
  rewrite rev_app_distr, rev_involutive. exists (rev a').
  apply dropwhile_stops. destruct w as [| c w]; [congruence |]. simpl.
  inversion F as [| ? ? [Hs _]]. exact Hs.
Qed.

Lemma collapse_keeps_prefix w more :
  Forall solid w -> collapse false (w ++ more) = w ++ collapse false more.
Proof.
  induction 1 as [| c w [Hs _] _ IH]; [reflexivity |].
  cbn [app collapse]. rewrite Hs, IH. reflexivity.
Qed.

Lemma replace_nl_keeps_prefix w more :
  Forall solid w -> LegalParser.replace_nl (w ++ more) = w ++ LegalParser.replace_nl more.
Proof.
  intros F. unfold LegalParser.replace_nl. rewrite map_app. f_equal.
  induction F as [| c w [Hs _] _ IH]; [reflexivity |]. cbn [map]. rewrite IH.
  destruct (N.eqb_spec c NL) as [-> |]; [discriminate | reflexivity].
Qed.

Lemma clean_keeps_prefix db w more :
  w <> [] -> Forall solid w ->
  exists more', LegalParser._clean_field db (w ++ more) = w ++ more'.
Proof.
  intros Hw F. unfold LegalParser._clean_field.
  rewrite (replace_nl_keeps_prefix _ F).
  destruct (strip_keeps_prefix (LegalParser.replace_nl more) Hw F) as (m1 & ->).
  rewrite sub_ws, (collapse_keeps_prefix _ F).
  unfold LegalParser.lstrip_chars. fold is_marker.
  rewrite dropwhile_stops.
  - apply strip_keeps_prefix; assumption.
  - destruct w as [| c w]; [congruence |]. simpl.
    inversion F as [| ? ? [_ Hm]]. exact Hm.
Qed.

(** The letters of the act keywords under IGNORECASE, in the Latin-1 tables. *)
Lemma latin1_tolower_cases x :
  (((0x41 <= x <= 0x5a) \/ (0xc0 <= x <= 0xd6) \/ (0xd8 <= x <= 0xde)) /\
   latin1_tolower x = x + 32)%N \/
  latin1_tolower x = x.
Proof.
  unfold latin1_tolower.
  destruct (in_ranges [(0x41, 0x5a); (0xc0, 0xd6); (0xd8, 0xde)]%N x) eqn:R;
    [left | right; reflexivity].
  split; [| reflexivity]. cbn [in_ranges] in R.
  rewrite !orb_true_iff, !andb_true_iff, !N.leb_le in R.
  destruct R as [R | [R | [R | R]]]; [lia | lia | lia | discriminate].
Qed.

Lemma range_out (lo hi x : N) :
  (x < lo \/ hi < x)%N -> ((lo <=? x) && (x <=? hi))%N = false.
Proof.
  intros H. apply andb_false_iff.
  destruct H as [H | H]; [left | right]; apply N.leb_gt; exact H.
Qed.

Lemma upper_solid x :
  ((0x41 <= x <= 0x5a) \/ (0xc0 <= x <= 0xd6) \/ (0xd8 <= x <= 0xde))%N -> solid x.
Proof.
  intros B. split.
  - unfold isspace. cbn [in_ranges]. rewrite !range_out by lia. reflexivity.
  - unfold is_marker.
    let l := eval vm_compute in (u ".- ") in change (u ".- ") with l.
    cbn [existsb]. rewrite !(proj2 (N.eqb_neq _ _)) by lia. reflexivity.
Qed.

Lemma lit_ok_latin1 c x :
  iscased latin1 c = true -> Re.lit_ok latin1 IC c x = true ->
  latin1_tolower x = latin1_tolower c \/
  In (latin1_tolower x) (EXTRA_CASES (latin1_tolower c)).
Proof.
  intros Hc H. unfold Re.lit_ok in H. rewrite Hc in H.
  cbn [Re.IGNORECASE IC andb tolower latin1] in H.
  apply orb_true_iff in H. destruct H as [H | H].
  - left. apply N.eqb_eq, H.
  - right. apply existsb_exists in H. destruct H as (y & Hy & E).
    apply N.eqb_eq in E. subst y. exact Hy.
Qed.

Ltac letter_case :=
  let x := fresh "x" in
  let H := fresh "H" in
  let B := fresh "B" in
  let E := fresh "E" in
  intros x H; apply lit_ok_latin1 in H; [| reflexivity];
  match type of H with
  | _ = latin1_tolower ?c \/ _ =>
      let lo := eval vm_compute in (latin1_tolower c) in
      let ex := eval vm_compute in (EXTRA_CASES lo) in
      change (latin1_tolower c) with lo in *;
      change (EXTRA_CASES lo) with ex in H
  end;
  cbn [In] in H;
  destruct (latin1_tolower_cases x) as [[B E] | E]; rewrite E in *;
  [ split; [apply upper_solid, B | intros _; lia]
  | repeat (destruct H as [H | H]); try contradiction; subst x;
    (split; [split; vm_compute; reflexivity |]);
    first [ intros _; reflexivity
          | let Hs := fresh "Hs" in intros Hs; vm_compute in Hs; discriminate ] ].

Lemma act_letters_latin1 :
  Forall (fun c => forall x, Re.lit_ok latin1 IC c x = true ->
                     solid x /\ (in_scope x = true -> latin1_tolower x = latin1_tolower c))
         ACT_LETTERS.
Proof.
  let l := eval vm_compute in ACT_LETTERS in change ACT_LETTERS with l.
  repeat (constructor; [letter_case |]). constructor.
Qed.

Lemma act_keyword_latin1 kw w :
  In kw ACT_KEYWORDS -> lit_eq latin1 IC kw w ->
  w <> [] /\ Forall solid w /\
  (scoped w -> map latin1_tolower w = map latin1_tolower kw).
Proof.
  intros Hk L.
  assert (Hl : Forall (fun c => forall x, Re.lit_ok latin1 IC c x = true ->
                         solid x /\ (in_scope x = true -> latin1_tolower x = latin1_tolower c))
                      kw).
  { apply Forall_forall. intros c Hc.
    pose proof act_letters_latin1 as F. rewrite Forall_forall in F. apply F.
    unfold ACT_LETTERS. apply in_concat. exists kw. auto. }
  split; [| split].
  - intros ->. inversion L; subst.
    unfold ACT_KEYWORDS in Hk. cbn [In] in Hk.
    repeat (destruct Hk as [Hk | Hk]; [vm_compute in Hk; discriminate |]). exact Hk.
  - clear Hk. induction L as [| c y kw' w' Hy _ IH]; constructor.
    + inversion Hl; subst. apply H1, Hy.
    + apply IH. inversion Hl; auto.
  - clear Hk. induction L as [| c y kw' w' Hy _ IH]; intros Hs; [reflexivity |].
    inversion Hs; subst. inversion Hl; subst. cbn [map]. f_equal.
    + apply H3; assumption.
    + apply IH; assumption.
Qed.

Lemma contains_prefix (a r : pystr) : contains a (a ++ r) = true.
Proof.
  destruct a as [| c a]; [destruct r; reflexivity |].
  cbn [app contains]. change (c :: a ++ r) with ((c :: a) ++ r).
  rewrite starts_with_app. reflexivity.
Qed.

Lemma classify_of_keyword (d : document) kw w more :
  In kw ACT_KEYWORDS -> lit_eq latin1 IC kw w ->
  document_type d = w ++ more -> scoped (document_type d) ->
  In (DocumentClassifier.classify latin1 d) ACT_CATEGORIES.
Proof.
  intros Hk L Hd Hs. rewrite Hd in Hs. apply Forall_app in Hs. destruct Hs as [Hw _].
  destruct (act_keyword_latin1 Hk L) as (_ & _ & Hlow). specialize (Hlow Hw).
  unfold DocumentClassifier.classify. rewrite Hd.
  cbn [str_lower latin1]. rewrite map_app, Hlow.
  unfold ACT_KEYWORDS in Hk. cbn [In] in Hk. unfold ACT_CATEGORIES. cbn [In].
  destruct Hk as [<- | [<- | [<- | [<- | []]]]].
  - change (map latin1_tolower (u "Décret")) with (u "décret").
    rewrite contains_prefix. auto.
  - change (map latin1_tolower (u "Loi")) with (u "loi").
    destruct (contains (u "décret") _); [auto |].
    rewrite contains_prefix. auto.
  - change (map latin1_tolower (u "Arrêté")) with (u "arrêté").
    destruct (contains (u "décret") _); [auto |].
    destruct (contains (u "loi") _); [auto |].
    rewrite contains_prefix. auto.
  - change (map latin1_tolower (u "Décision")) with (u "décision").
    destruct (contains (u "décret") _); [auto |].
    destruct (contains (u "loi") _); [auto |].
    destruct (contains (u "arrêté") _); [auto |].
    rewrite contains_prefix. auto 6.
Qed.

(** The type of every document starts with an act keyword. *)
Lemma document_type_keyword (text : pystr) :
  Forall (fun d => exists kw w more, In kw ACT_KEYWORDS /\ lit_eq latin1 IC kw w /\
                                     document_type d = w ++ more)
         (LegalParser.process_full_gazette latin1 text).
Proof.
  apply process_full_gazette_inv. intros t d Hp _.
  apply parse_document_some in Hp. destruct Hp as (Hs & _).
  unfold LegalParser.structural_record in Hs.
  destruct (LegalParser.header_match latin1 t) as [[m isind] |] eqn:Eh; [| discriminate].
  inversion Hs; subst d; clear Hs. cbn [document_type].
  apply header_type_keyword in Eh. destruct Eh as (kw & w & more & Hk & L & ->).
  destruct (act_keyword_latin1 Hk L) as (Hw & Fw & _).
  destruct (clean_keeps_prefix latin1 more Hw Fw) as (more' & ->).
  exists kw, w, more'. auto.
Qed.

Lemma process_full_gazette_scoped_types d text :
  scoped text ->
  Forall (fun doc => scoped (document_type doc)) (LegalParser.process_full_gazette d text).
Proof.
  intros H. unfold LegalParser.process_full_gazette.
  destruct (is_nil (LegalParser.starts d _)); [constructor |].
  apply parse_segments_scoped, doc_texts_scoped, find_content_start_scoped,
    pre_clean_scoped, H.
Qed.

(** X15: on a text of Basic Latin, Latin-1 and em-dash characters, read with
    character tables that agree with the interpreter's there, every document of
    the pipeline is classified Decree, Law, Order or Decision: the type of a
    document starts with one of the four act keywords, so the categories
    Circular, Ordinance and Uncategorized never occur. *)
Theorem X15_only_act_categories (db : UnicodeDB) (raw_text : pystr) :
  faithful db -> scoped raw_text ->
  Forall (fun d => exists c, category d = Some c /\ In c ACT_CATEGORIES)
         (structured_data db raw_text).
Proof.
  intros F H. rewrite (structured_data_faithful F H). unfold structured_data.
  apply Forall_map, Forall_forall. intros d Hin.
  pose proof (document_type_keyword raw_text) as K.
  pose proof (process_full_gazette_scoped_types latin1 H) as S.
  rewrite Forall_forall in K, S.
  destruct (K d Hin) as (kw & w & more & Hk & L & Hd).
  exists (DocumentClassifier.classify latin1 d). split; [reflexivity |].
  exact (@classify_of_keyword d kw w more Hk L Hd (S d Hin)).
Qed.

Lemma X15_only_act_categories_witness :
  Forall (fun d => exists c, category d = Some c /\ In c ACT_CATEGORIES)
         (structured_data latin1 scenario_B).
Proof.
  apply X15_only_act_categories; [apply latin1_faithful | solve_scoped].
Defined.

(** ** The numbers of the articles *)

Section ArticleNumbers.
Import Re Patterns LegalParser.

Variable db : UnicodeDB.

Lemma matches_keeps_position (text : pystr) fl r s s' :
  matches db fl r s s' ->
  st_rest s = skipn (st_pos s) text -> st_rest s' = skipn (st_pos s') text.
Proof.
  intros H E. destruct (matches_consumed H) as (w & Ew & Pw).
  rewrite Pw, Nat.add_comm, <- skipn_skipn, <- E, Ew. symmetry. apply skipn_app_length.
Qed.

Lemma matches_no_group fl r s s' :
  matches db fl r s s' -> gnames r = [] -> st_caps s' = st_caps s.
Proof.
  intros H G. destruct (matches_caps_grow H) as (e & E & F). rewrite G in F.
  destruct e as [| x e]; [exact E | inversion F as [| ? ? []]].
Qed.

(** What comes before the first group leaves the captures empty. *)
Lemma before_group (text : pystr) fl a b s s' :
  matches db fl (Seq a b) s s' -> gnames a = [] ->
  st_rest s = skipn (st_pos s) text /\ st_caps s = [] ->
  exists s1, matches db fl b s1 s' /\
             st_rest s1 = skipn (st_pos s1) text /\ st_caps s1 = [].
Proof.
  intros H G (E & C). apply matches_seq_inv in H. destruct H as (s1 & Ha & Hb).
  exists s1. split; [exact Hb | split].
  - eapply matches_keeps_position; eauto.
  - rewrite (matches_no_group Ha G). exact C.
Qed.

(** The span of a group is the text its pattern consumed. *)
Lemma group_capture (text : pystr) fl name T REST s s' :
  matches db fl (Seq (Group name T) REST) s s' ->
  gnames T = [] -> ~ In name (gnames REST) ->
  st_rest s = skipn (st_pos s) text /\ st_caps s = [] ->
  exists s1 w, matches db fl T s s1 /\ st_rest s = w ++ st_rest s1 /\
               lookup_cap name (st_caps s') = Some (st_pos s, st_pos s + List.length w) /\
               slice (st_pos s) (st_pos s + List.length w) text = w.
Proof.
  intros H GT GR (E & C). apply matches_seq_inv in H. destruct H as (sg & Hg & HR).
  apply matches_group_inv in Hg. destruct Hg as (s1 & HT & _ & _ & Cg).
  rewrite (matches_no_group HT GT), C in Cg.
  destruct (matches_caps_grow HR) as (e & Ee & Fe).
  destruct (matches_consumed HT) as (w & Ew & Pw).
  exists s1, w. split; [exact HT | split; [exact Ew | split]].
  - rewrite Ee, Cg, (@lookup_cap_skip name (gnames REST) e _ Fe GR), Pw.
    cbn [lookup_cap]. rewrite String.eqb_refl. reflexivity.
  - unfold slice. rewrite <- E, Ew.
    replace (st_pos s + List.length w - st_pos s) with (List.length w) by lia.
    apply firstn_app_length.
Qed.

Hypothesis Hdb : words_are_solid db.

Lemma word_is_solid x :
  cat_ok db CWord x || (cat_ok db CDigit x || false) = true -> solid x.
Proof.
  intros H. unfold cat_ok in H. rewrite orb_false_r in H.
  assert (K : isspace x = true \/ is_marker x = true -> x = 95%N).
  { intros Hx. destruct (Hdb x Hx) as (Ha & Hd). rewrite Ha, Hd in H.
    simpl in H. rewrite orb_false_r in H. apply N.eqb_eq, H. }
  split.
  - destruct (isspace x) eqn:E; [| reflexivity].
    rewrite K in E by auto. discriminate.
  - destruct (is_marker x) eqn:E; [| reflexivity].
    rewrite K in E by auto. discriminate.
Qed.

Lemma article_number (text : pystr) (m : mobj) :
  attempt_at db (p_flags ARTICLE_PATTERN) (p_re ARTICLE_PATTERN) 0 None text m ->
  group_get text m "number" [] <> [] /\ Forall solid (group_get text m "number" []).
Proof.
  intros (n & ma & _ & _ & H). cbn [Nat.add] in H.
  apply match_at_matches in H. destruct H as (s' & H & _ & _ & Hc).
  unfold ARTICLE_PATTERN, p_re, p_flags in H. cbn [seq] in H.
  set (fl := {| IGNORECASE := false; MULTILINE := false; DOTALL := true |}) in *.
  assert (I0 : st_rest (mk n (prev_at None text n) (skipn n text) []) =
               skipn (st_pos (mk n (prev_at None text n) (skipn n text) [])) text /\
               st_caps (mk n (prev_at None text n) (skipn n text) []) = [])
    by (split; reflexivity).
  apply (@before_group text) in H; [| reflexivity | exact I0].
  clear I0. destruct H as (s1 & H & I1).
  apply (@before_group text) in H; [| reflexivity | exact I1].
  clear I1. destruct H as (s2 & H & I2).
  apply (@before_group text) in H; [| reflexivity | exact I2].
  clear I2. destruct H as (s3 & H & I3).
  apply (@before_group text) in H; [| reflexivity | exact I3].
  clear I3. destruct H as (s4 & H & I4).
  apply (@before_group text) in H; [| reflexivity | exact I4].
  clear I4. destruct H as (s5 & H & I5).
  apply (@group_capture text) in H;
    [| reflexivity
     | cbn; intros K; repeat (destruct K as [K | K]; [discriminate |]); exact K
     | exact I5].
  destruct H as (s6 & w & HT & Ew & Hl & Hs).
  unfold group_get. rewrite Hc, Hl, Hs.
  apply matches_seq_inv in HT. destruct HT as (sa & Hp & Ho).
  unfold Plus in Hp. apply matches_seq_inv in Hp. destruct Hp as (sb & H1 & Hst).
  apply matches_one_inv in H1. destruct H1 as (c & Ec & Hcok & _).
  apply matches_star_inv in Hst. destruct Hst as (w1 & E1 & F1 & _).
  assert (Ex : exists x, st_rest sa = x ++ st_rest s6 /\ (x = [] \/ x = u "er")).
  { unfold Opt in Ho. apply matches_alt_inv in Ho. destruct Ho as [Ho | Ho].
    - apply matches_lits in Ho. destruct Ho as (x & Ex & Lx & _).
      exists x. split; [exact Ex | right].
      apply (lit_eq_exact (db := db) (fl := fl)); [reflexivity | exact Lx].
    - apply matches_eps_inv in Ho. subst sa. exists []. auto. }
  destruct Ex as (x & Ex & Hx).
  assert (Ew' : w = c :: w1 ++ x).
  { rewrite Ec, E1, Ex in Ew. apply (app_inv_tail (st_rest s6)).
    rewrite <- Ew. cbn [app]. rewrite <- app_assoc. reflexivity. }
  subst w. split; [discriminate |].
  constructor; [apply word_is_solid; exact Hcok |].
  apply Forall_app. split.
  - eapply Forall_impl; [| exact F1]. intros y Hy. apply word_is_solid. exact Hy.
  - destruct Hx as [-> | ->]; [constructor |].
    repeat constructor.
Qed.

Lemma solid_is_tidy w : w <> [] -> Forall solid w -> tidy w.
Proof.
  intros Hw F. destruct (solid_last Hw F) as (_ & Hl).
  repeat split.
  - clear Hw Hl. induction F as [| c t [Hs _] _ IH]; simpl; [exact I |].
    split; [rewrite Hs; discriminate | exact IH].
  - destruct F as [| c t [Hs _] _]; simpl; auto.
  - exact Hl.
  - destruct F as [| c t [_ Hm] _]; simpl; auto.
Qed.

Lemma parse_articles_numbers (text : pystr) :
  Forall (fun a => number a <> [] /\ Forall solid (number a)) (parse_articles db text).
Proof.
  unfold parse_articles. apply Forall_map.
  eapply Forall_impl; [| apply finditer_from_at]. cbv beta. intros m Hm. cbn [number].
  destruct (article_number Hm) as (Hn & Fn).
  rewrite (clean_tidy_id db (solid_is_tidy Hn Fn)). auto.
Qed.

End ArticleNumbers.

Lemma latin1_words_are_solid : words_are_solid latin1.
Proof.
  intros x [H | H].
  - unfold isspace in H. cbn [in_ranges] in H.
    rewrite !orb_true_iff, !andb_true_iff, !N.leb_le in H.
    cbn [isalnum isdecimal latin1 in_ranges].
    repeat (destruct H as [H | H];
            [split; rewrite !range_out by lia; reflexivity |]).
    discriminate.
  - unfold is_marker in H.
    let l := eval vm_compute in (u ".- ") in change (u ".- ") with l in H.
    cbn [existsb] in H. rewrite !orb_true_iff, !N.eqb_eq in H.
    destruct H as [-> | [-> | [-> | H]]]; [split; reflexivity .. | discriminate].
Qed.

(** X16: every article of every document of process_full_gazette has a
    number that is not empty and holds no whitespace, period or dash: the number
    is the run of word characters the article pattern captured, which cleaning
    leaves as it is (for character tables in which word characters and digits
    are never whitespace, periods or dashes, as in Unicode). *)
Theorem X16_article_numbers (db : UnicodeDB) (full_text : pystr) :
  words_are_solid db ->
  Forall (fun d => Forall (fun a => number a <> [] /\ Forall solid (number a)) (articles d))
         (LegalParser.process_full_gazette db full_text).
Proof.
  intros Hdb. apply process_full_gazette_inv. intros t d Hp _.
  apply parse_document_some in Hp. destruct Hp as (Hs & _).
  unfold LegalParser.structural_record in Hs.
  destruct (LegalParser.header_match db t) as [[m isind] |]; [| discriminate].
  inversion Hs; subst d; clear Hs. cbn [articles].
  destruct isind; [constructor |].
  apply parse_articles_numbers, Hdb.
Qed.

Lemma X16_article_numbers_witness :
  Forall (fun d => Forall (fun a => number a <> [] /\ Forall solid (number a)) (articles d))
         (LegalParser.process_full_gazette latin1 scenario_A_abbrev).
Proof.
  apply X16_article_numbers. apply latin1_words_are_solid.
Defined.
